(** * HTTP/3 frame parsing and encoding (internal/http3/frames.go)

    A shallow embedding of the frame dispatcher [frameParser.ParseNext],
    the SETTINGS codec ([parseSettingsFrame], [settingsFrame.Append]) and
    the GOAWAY codec ([parseGoAwayFrame], [goAwayFrame.Append]), together
    with the properties of them that the specification states. *)

From Stdlib Require Import ZArith Lia.
From Stdlib.Strings Require Import Byte.
From stdpp Require Import gmap list strings.
From Equations Require Import Equations.

#[local] Set Warnings "-clear-no-such-hyp".

Local Open Scope Z_scope.

(** ** Errors and results *)

Module io.
(** The errors an [io.Reader] reports: the two sentinels of package [io]
    and any other failure of the transport. *)
Inductive error : Type :=
| EOF
| ErrUnexpectedEOF
| ErrOther (msg : string).

Definition is_EOF (e : error) : bool :=
  match e with EOF => true | _ => false end.
End io.

(** Go's [error] values that can leave this file.  [ErrIO] carries an error
    of the reader unchanged; the others are the values built by
    [errors.New] and [fmt.Errorf] in frames.go, with the formatted number
    as argument; [ErrCustom] is any other error a callback may return. *)
Inductive error : Type :=
| ErrIO (e : io.error)
| errHijacked
| ErrReservedFrameType (t : Z)      (* "http3: reserved frame type: %d" *)
| ErrSettingsSize (l : Z)           (* "unexpected size for SETTINGS frame: %d" *)
| ErrDuplicateSetting (id : Z)      (* "duplicate setting: %d" *)
| ErrInvalidExtendedConnect (val : Z) (* "invalid value for SETTINGS_ENABLE_CONNECT_PROTOCOL: %d" *)
| ErrInvalidDatagram (val : Z)      (* "invalid value for SETTINGS_H3_DATAGRAM: %d" *)
| ErrGoAwayLength                   (* "GOAWAY frame: inconsistent length" *)
| ErrCustom (msg : string).

Inductive result (A : Type) : Type :=
| Ok (a : A)
| Err (e : error).
Arguments Ok {A} a.
Arguments Err {A} e.

(** ** A state-and-error monad

    A Go function that reads from a reader and returns [(value, error)] is
    a function from the reader's state to a result and the new state.  The
    state is kept on failure: bytes consumed before an error stay consumed. *)

Definition M (S A : Type) : Type := S -> result A * S.

Definition ret {S A} (a : A) : M S A := fun s => (Ok a, s).
Definition fail {S A} (e : error) : M S A := fun s => (Err e, s).
Definition bind {S A B} (m : M S A) (k : A -> M S B) : M S B :=
  fun s => match m s with
           | (Ok a, s') => k a s'
           | (Err e, s') => (Err e, s')
           end.
Definition get {S} : M S S := fun s => (Ok s, s).
Definition modify {S} (f : S -> S) : M S unit := fun s => (Ok tt, f s).

Notation "'let*' x ':=' m 'in' k" := (bind m (fun x => k))
  (at level 10, x pattern, m at level 100, k at level 200).

(** ** [for] loops

    A loop body either leaves the function ([Ok (Some a)]: return a value,
    [Err e]: return an error) or falls off its end ([Ok None]) and is run
    again.  The loops of this file consume input on every turn, which is
    the measure [mu]. *)

Definition inspect {A} (a : A) : {b | a = b} := exist _ a eq_refl.

Section Loop.
Context {S A : Type} (body : M S (option A)) (mu : S -> nat).
Hypothesis body_decreases : forall s s', body s = (Ok None, s') -> (mu s' < mu s)%nat.

Equations for_loop (s : S) : result A * S by wf (mu s) lt :=
  for_loop s with inspect (body s) := {
    | exist _ (Err e, s') _ => (Err e, s');
    | exist _ (Ok (Some a), s') _ => (Ok a, s');
    | exist _ (Ok None, s') _ => for_loop s' }.

Lemma for_loop_eq (s : S) :
  for_loop s = match body s with
               | (Err e, s') => (Err e, s')
               | (Ok (Some a), s') => (Ok a, s')
               | (Ok None, s') => for_loop s'
               end.
Proof.
  funelim (for_loop s);
    match goal with E : body _ = _ |- _ => rewrite E end; reflexivity.
Qed.
End Loop.

(** ** Bytes *)

Definition Z_of_byte (b : byte) : Z := Z.of_N (Byte.to_N b).

(** The conversion [uint8(x)] of an unsigned integer: the low eight bits. *)
Definition uint8 (x : Z) : byte :=
  default "000"%byte (Byte.of_N (Z.to_N (x mod 256))).

(** ** Readers

    The transport hands the parser an ordered byte stream.  A stream is the
    bytes that will still arrive and the error the reader reports once they
    are used up ([io.EOF] for a stream closed by the peer). *)

Record stream : Type := mkstream { data : list byte; final : io.error }.

(** The interface [io.ByteReader]. *)
Class ByteReader (R : Type) : Type := ReadByte : M R byte.

#[export] Instance stream_ByteReader : ByteReader stream := fun s =>
  match data s with
  | [] => (Err (ErrIO (final s)), s)
  | b :: bs => (Ok b, mkstream bs (final s))
  end.

(** [bytes.NewReader(buf)] and its [Len]. *)
Definition bytes_NewReader (buf : list byte) : stream := mkstream buf io.EOF.
Definition bytes_Len (b : stream) : Z := Z.of_nat (length (data b)).

(** The conversions [int64(x)] and [int(x)] of a [uint64] (64-bit [int]). *)
Definition int64 (x : Z) : Z := if x <? 2 ^ 63 then x else x - 2 ^ 64.
Definition int (x : Z) : Z := int64 x.

(** The two functions of Go's package [io] that frames.go calls. *)
Module io_ops.
(** [io.ReadFull(r, buf)] with [len(buf) = n]: the [n] bytes read, or the
    reader's error, where an end of stream after some but not all bytes
    becomes [io.ErrUnexpectedEOF].  Nothing is read for an empty buffer. *)
Definition ReadFull (n : nat) : M stream (list byte) := fun s =>
  if (n <=? length (data s))%nat then
    (Ok (take n (data s)), mkstream (drop n (data s)) (final s))
  else
    match data s with
    | [] => (Err (ErrIO (final s)), s)
    | _ :: _ =>
        (Err (ErrIO (if io.is_EOF (final s) then io.ErrUnexpectedEOF else final s)),
         mkstream [] (final s))
    end.

(** [io.CopyN(io.Discard, r, n)]: discards [n] bytes and returns the
    number discarded.  A stream that ends early gives its error, [io.EOF]
    included; a negative [n] copies nothing and is no error. *)
Definition CopyN_Discard (n : Z) : M stream Z := fun s =>
  if n <? 0 then (Ok 0, s)
  else if n <=? Z.of_nat (length (data s)) then
    (Ok n, mkstream (drop (Z.to_nat n) (data s)) (final s))
  else (Err (ErrIO (final s)), mkstream [] (final s)).
End io_ops.

(** ** Variable-length integers *)

(** Package [quicvarint] of quic-go is imported by frames.go and is not
    among the sources.  A variable-length integer is 1, 2, 4 or 8 bytes
    long: the two high bits of the first byte select the width, the other
    six bits and the following bytes hold the value, big-endian. *)
Module quicvarint.
Definition maxVarInt1 : Z := 63.
Definition maxVarInt2 : Z := 16383.
Definition maxVarInt4 : Z := 1073741823.
Definition maxVarInt8 : Z := 4611686018427387903.

(** Modelled from the spec: the bytes that follow the first one, [n] of
    them, shifted into [acc] most significant first; a byte that cannot be
    read ends the read with the reader's error. *)
Fixpoint read_more {R} `{ByteReader R} (n : nat) (acc : Z) : M R Z :=
  match n with
  | O => ret acc
  | S n' => let* b := ReadByte in
            read_more n' (Z.shiftl acc 8 + Z_of_byte b)
  end.

(** Modelled from the spec: [quicvarint.Read], which reads one
    variable-length integer from an [io.ByteReader]. *)
Definition Read {R} `{ByteReader R} : M R Z :=
  let* firstByte := ReadByte in
  let l := Z.shiftl 1 (Z.shiftr (Z.land (Z_of_byte firstByte) 0xc0) 6) in
  let b1 := Z.land (Z_of_byte firstByte) (0xff - 0xc0) in
  read_more (Z.to_nat (l - 1)) b1.

(** Modelled from the spec: [quicvarint.Len], the number of bytes of the
    shortest encoding; it panics ([None]) above [maxVarInt8]. *)
Definition Len (i : Z) : option Z :=
  if i <=? maxVarInt1 then Some 1
  else if i <=? maxVarInt2 then Some 2
  else if i <=? maxVarInt4 then Some 4
  else if i <=? maxVarInt8 then Some 8
  else None.

(** The [n] low bytes of [x], most significant first. *)
Fixpoint be_bytes (n : nat) (x : Z) : list byte :=
  match n with
  | O => []
  | S n' => uint8 (Z.shiftr x (8 * Z.of_nat n')) :: be_bytes n' x
  end.

(** Modelled from the spec: [quicvarint.Append], which appends the shortest
    encoding of [i] to [b]; it panics ([None]) above [maxVarInt8]. *)
Definition Append (b : list byte) (i : Z) : option (list byte) :=
  if i <=? maxVarInt1 then Some (b ++ be_bytes 1 i)
  else if i <=? maxVarInt2 then Some (b ++ be_bytes 2 (Z.lor i 0x4000))
  else if i <=? maxVarInt4 then Some (b ++ be_bytes 4 (Z.lor i 0x80000000))
  else if i <=? maxVarInt8 then Some (b ++ be_bytes 8 (Z.lor i 0xc000000000000000))
  else None.
End quicvarint.

(** A reader that knows how many bytes it can still deliver: every
    successful [ReadByte] takes exactly one of them, a failed one takes
    none.  All readers of this file are of this kind. *)
Class Remaining (R : Type) `{ByteReader R} : Type := {
  remaining : R -> nat;
  ReadByte_Ok : forall r b r', ReadByte r = (Ok b, r') -> remaining r = S (remaining r');
  ReadByte_Err : forall r e r', ReadByte r = (Err e, r') -> remaining r' = remaining r
}.

Lemma stream_ReadByte_Ok (s : stream) (x : byte) (s' : stream) :
  ReadByte s = (Ok x, s') -> length (data s) = S (length (data s')).
Proof.
  destruct s as [d f]. unfold ReadByte, stream_ByteReader. simpl.
  destruct d; intros [= <- <-]; reflexivity.
Qed.

Lemma stream_ReadByte_Err (s : stream) (e : error) (s' : stream) :
  ReadByte s = (Err e, s') -> length (data s') = length (data s).
Proof.
  destruct s as [d f]. unfold ReadByte, stream_ByteReader. simpl.
  destruct d; intros [= <- <-]; reflexivity.
Qed.

#[export] Instance stream_Remaining : Remaining stream :=
  {| remaining s := length (data s);
     ReadByte_Ok := stream_ReadByte_Ok;
     ReadByte_Err := stream_ReadByte_Err |}.

Lemma read_more_remaining {R} `{Remaining R} (n : nat) (acc : Z) (r : R) :
  (remaining (quicvarint.read_more n acc r).2 <= remaining r)%nat.
Proof.
  revert acc r. induction n as [|n IH]; intros acc r; simpl; [lia|].
  unfold bind. destruct (ReadByte r) as [[b|e] r'] eqn:E; simpl.
  - apply ReadByte_Ok in E. specialize (IH (Z.shiftl acc 8 + Z_of_byte b) r'). lia.
  - apply ReadByte_Err in E. lia.
Qed.

(** A successful [quicvarint.Read] consumes at least one byte, and no read
    gives bytes back. *)
Lemma Read_remaining {R} `{Remaining R} (r r' : R) (x : result Z) :
  quicvarint.Read r = (x, r') ->
  (remaining r' <= remaining r)%nat /\
  (forall v, x = Ok v -> (remaining r' < remaining r)%nat).
Proof.
  unfold quicvarint.Read, bind.
  destruct (ReadByte r) as [[b|e] r1] eqn:E.
  - apply ReadByte_Ok in E. intros Hm.
    pose proof (read_more_remaining
      (Z.to_nat (Z.shiftl 1 (Z.shiftr (Z.land (Z_of_byte b) 192) 6) - 1))
      (Z.land (Z_of_byte b) (255 - 192)) r1) as Hle.
    simpl in Hm. rewrite Hm in Hle. simpl in Hle. split; [lia|]. intros; lia.
  - apply ReadByte_Err in E. intros [= <- <-]. split; [lia|]. intros v [=].
Qed.

(** ** Frames *)

Definition FrameType : Type := Z.

Record dataFrame : Type := { data_Length : Z }.
Record headersFrame : Type := { headers_Length : Z }.

(** [Other] is a Go map: [None] is the nil map, [Some m] an allocated one. *)
Record settingsFrame : Type := {
  Datagram : bool;
  ExtendedConnect : bool;
  Other : option (gmap Z Z)
}.

Record goAwayFrame : Type := { StreamID : Z }.

(** [type frame any]: the values [ParseNext] returns are pointers to one of
    the four frame structs. *)
Inductive frame : Type :=
| FData (f : dataFrame)
| FHeaders (f : headersFrame)
| FSettings (f : settingsFrame)
| FGoAway (f : goAwayFrame).

Definition dataFrame_Append (f : dataFrame) (b : list byte) : option (list byte) :=
  b ← quicvarint.Append b 0x0;
  quicvarint.Append b (data_Length f).

Definition headersFrame_Append (f : headersFrame) (b : list byte) : option (list byte) :=
  b ← quicvarint.Append b 0x1;
  quicvarint.Append b (headers_Length f).

(** ** SETTINGS *)

Definition settingExtendedConnect : Z := 0x8.
Definition settingDatagram : Z := 0x33.

(** Reading a Go map, nil or not: [v, ok := m[id]]. *)
Definition map_index (m : option (gmap Z Z)) (id : Z) : option Z :=
  m ≫= (fun m => m !! id).

(** The local variables of [parseSettingsFrame] that its loop changes. *)
Record settings_locals : Type := {
  b : stream;
  frame_ : settingsFrame;
  readDatagram : bool;
  readExtendedConnect : bool
}.

Definition set_b (s : stream) (st : settings_locals) : settings_locals :=
  {| b := s; frame_ := frame_ st; readDatagram := readDatagram st;
     readExtendedConnect := readExtendedConnect st |}.

(** An operation on the reader [b]. *)
Definition on_b {A} (m : M stream A) : M settings_locals A := fun st =>
  let (x, b') := m (b st) in (x, set_b b' st).

Definition set_readDatagram (v : bool) (st : settings_locals) : settings_locals :=
  {| b := b st; frame_ := frame_ st; readDatagram := v;
     readExtendedConnect := readExtendedConnect st |}.
Definition set_readExtendedConnect (v : bool) (st : settings_locals) : settings_locals :=
  {| b := b st; frame_ := frame_ st; readDatagram := readDatagram st;
     readExtendedConnect := v |}.
Definition set_frame (f : settingsFrame -> settingsFrame) (st : settings_locals)
  : settings_locals :=
  {| b := b st; frame_ := f (frame_ st); readDatagram := readDatagram st;
     readExtendedConnect := readExtendedConnect st |}.
Definition set_Datagram (v : bool) (f : settingsFrame) : settingsFrame :=
  {| Datagram := v; ExtendedConnect := ExtendedConnect f; Other := Other f |}.
Definition set_ExtendedConnect (v : bool) (f : settingsFrame) : settingsFrame :=
  {| Datagram := Datagram f; ExtendedConnect := v; Other := Other f |}.
(** [if frame.Other == nil { frame.Other = make(...) }; frame.Other[id] = val] *)
Definition set_Other (id val : Z) (f : settingsFrame) : settingsFrame :=
  {| Datagram := Datagram f; ExtendedConnect := ExtendedConnect f;
     Other := Some (<[id := val]> (default ∅ (Other f))) |}.

(** The [switch id] of the loop. *)
Definition settings_switch (id val : Z) : M settings_locals unit :=
  let* st := get in
  if id =? settingExtendedConnect then
    if readExtendedConnect st then fail (ErrDuplicateSetting id) else
    let* _ := modify (set_readExtendedConnect true) in
    if negb (val =? 0) && negb (val =? 1) then fail (ErrInvalidExtendedConnect val) else
    modify (set_frame (set_ExtendedConnect (val =? 1)))
  else if id =? settingDatagram then
    if readDatagram st then fail (ErrDuplicateSetting id) else
    let* _ := modify (set_readDatagram true) in
    if negb (val =? 0) && negb (val =? 1) then fail (ErrInvalidDatagram val) else
    modify (set_frame (set_Datagram (val =? 1)))
  else
    match map_index (Other (frame_ st)) id with
    | Some _ => fail (ErrDuplicateSetting id)
    | None => modify (set_frame (set_Other id val))
    end.

(** One turn of [for b.Len() > 0 { ... }], with the [return frame, nil]
    that follows the loop. *)
Definition settings_body : M settings_locals (option settingsFrame) :=
  let* st := get in
  if negb (bytes_Len (b st) >? 0) then ret (Some (frame_ st)) else
  let* id := on_b quicvarint.Read in
  let* val := on_b quicvarint.Read in
  let* _ := settings_switch id val in
  ret None.

Lemma settings_switch_b (id val : Z) (st st' : settings_locals) (x : result unit) :
  settings_switch id val st = (x, st') -> b st' = b st.
Proof.
  unfold settings_switch, bind, get, modify, fail.
  repeat match goal with
         | |- context [if ?c then _ else _] => destruct c
         | |- context [match ?c with Some _ => _ | None => _ end] => destruct c
         end; intros [= <- <-]; reflexivity.
Qed.

Lemma settings_body_decreases (st st' : settings_locals) :
  settings_body st = (Ok None, st') ->
  (length (data (b st')) < length (data (b st)))%nat.
Proof.
  unfold settings_body, bind, get, ret, on_b.
  destruct (negb (bytes_Len (b st) >? 0)); [intros [=]|].
  destruct (quicvarint.Read (b st)) as [[id|e] b1] eqn:E1; [|intros [=]].
  simpl.
  destruct (quicvarint.Read b1) as [[val|e] b2] eqn:E2; [|intros [=]].
  destruct (settings_switch id val _) as [[[]|e] st2] eqn:E3; [|intros [=]].
  intros [= <-]. apply settings_switch_b in E3. rewrite E3. simpl.
  apply Read_remaining in E1 as [H1 _]. apply Read_remaining in E2 as [H2 H3].
  specialize (H3 _ eq_refl). simpl in *. lia.
Qed.

Definition settings_loop : settings_locals -> result settingsFrame * settings_locals :=
  for_loop settings_body (fun st => length (data (b st))) settings_body_decreases.

(** The locals when the loop is entered:
    [frame := &settingsFrame{}], [b := bytes.NewReader(buf)],
    [var readDatagram, readExtendedConnect bool]. *)
Definition settings_start (buf : list byte) : settings_locals :=
  {| b := bytes_NewReader buf;
     frame_ := {| Datagram := false; ExtendedConnect := false; Other := None |};
     readDatagram := false; readExtendedConnect := false |}.

Definition parseSettingsFrame (l : Z) : M stream settingsFrame := fun r =>
  if l >? 8 * Z.shiftl 1 10 then (Err (ErrSettingsSize l), r) else
  match io_ops.ReadFull (Z.to_nat l) r with
  | (Err err, r) =>
      match err with
      | ErrIO io.ErrUnexpectedEOF => (Err (ErrIO io.EOF), r)
      | _ => (Err err, r)
      end
  | (Ok buf, r) => ((settings_loop (settings_start buf)).1, r)
  end.

(** The conversion [uint64(x)] of an [int] or [int64]. *)
Definition uint64 (x : Z) : Z := x mod 2 ^ 64.

(** [for id, val := range f.Other] visits the entries of the map in an
    order that Go leaves unspecified and that may change from one loop to
    the next.  The encoder takes the order of each of its two loops as an
    argument; [range_of m kvs] says that [kvs] is such an order. *)
Definition range_of (m : option (gmap Z Z)) (kvs : list (Z * Z)) : Prop :=
  kvs ≡ₚ map_to_list (default ∅ m).

Fixpoint range_Len (kvs : list (Z * Z)) (l : Z) : option Z :=
  match kvs with
  | [] => Some l
  | (id, val) :: kvs =>
      a ← quicvarint.Len id; c ← quicvarint.Len val; range_Len kvs (l + (a + c))
  end.

Fixpoint range_Append (kvs : list (Z * Z)) (b : list byte) : option (list byte) :=
  match kvs with
  | [] => Some b
  | (id, val) :: kvs =>
      b ← quicvarint.Append b id; b ← quicvarint.Append b val; range_Append kvs b
  end.

Definition settingsFrame_Append (range1 range2 : list (Z * Z))
    (f : settingsFrame) (b : list byte) : option (list byte) :=
  b ← quicvarint.Append b 0x4;
  l ← range_Len range1 0;
  l ← (if Datagram f
       then a ← quicvarint.Len settingDatagram; c ← quicvarint.Len 1; Some (l + (a + c))
       else Some l);
  l ← (if ExtendedConnect f
       then a ← quicvarint.Len settingExtendedConnect; c ← quicvarint.Len 1; Some (l + (a + c))
       else Some l);
  b ← quicvarint.Append b (uint64 l);
  b ← (if Datagram f
       then b ← quicvarint.Append b settingDatagram; quicvarint.Append b 1
       else Some b);
  b ← (if ExtendedConnect f
       then b ← quicvarint.Append b settingExtendedConnect; quicvarint.Append b 1
       else Some b);
  range_Append range2 b.

(** ** GOAWAY *)

(** Modelled from the spec: [countingByteReader] is declared in another file
    of package http3.  It wraps an [io.ByteReader] and counts in [Read] the
    bytes that were consumed through it. *)
Record countingByteReader (R : Type) : Type := {
  inner : R;
  Read : Z
}.
Arguments inner {R} _.
Arguments Read {R} _.
Arguments Build_countingByteReader {R} inner Read.

#[export] Instance counting_ByteReader {R} `{ByteReader R}
  : ByteReader (countingByteReader R) := fun c =>
  match ReadByte (inner c) with
  | (Ok x, r') => (Ok x, {| inner := r'; Read := Read c + 1 |})
  | (Err e, r') => (Err e, {| inner := r'; Read := Read c |})
  end.

Definition parseGoAwayFrame {R} `{ByteReader R} (l : Z) : M R goAwayFrame := fun r =>
  let cbr := {| inner := r; Read := 0 |} in
  match quicvarint.Read cbr with
  | (Err err, cbr) => (Err err, inner cbr)
  | (Ok id, cbr) =>
      if negb (Read cbr =? int l) then (Err ErrGoAwayLength, inner cbr)
      else (Ok {| StreamID := int64 id |}, inner cbr)
  end.

Definition goAwayFrame_Append (f : goAwayFrame) (b : list byte) : option (list byte) :=
  b ← quicvarint.Append b 0x7;
  n ← quicvarint.Len (uint64 (StreamID f));
  b ← quicvarint.Append b (uint64 n);
  quicvarint.Append b (uint64 (StreamID f)).

(** ** The frame dispatcher *)

(** Modelled from the spec: [ErrCodeFrameUnexpected] is declared in another
    file of package http3; it is the "frame unexpected" application error
    code, H3_FRAME_UNEXPECTED. *)
Definition ErrCodeFrameUnexpected : Z := 0x105.

(** The callback for unknown frames.  It may keep state of its own, of type
    [H], between calls; it answers [(processed, err)]. *)
Definition unknownFrameHandlerFunc (H : Type) : Type :=
  FrameType -> option error -> H -> (bool * option error) * H.

(** The parser and what it acts on: the bytes still to come on [r], the
    calls [closeConn] has received so far (oldest first), the callback and
    the callback's state. *)
Record frameParser (H : Type) : Type := {
  r : stream;
  closeConn_calls : list (Z * string);
  unknownFrameHandler : option (unknownFrameHandlerFunc H);
  handler_state : H
}.
Arguments r {H} _.
Arguments closeConn_calls {H} _.
Arguments unknownFrameHandler {H} _.
Arguments handler_state {H} _.
Arguments Build_frameParser {H} r closeConn_calls unknownFrameHandler handler_state.

Section Dispatcher.
Context {H : Type}.

Definition set_r (s : stream) (p : frameParser H) : frameParser H :=
  {| r := s; closeConn_calls := closeConn_calls p;
     unknownFrameHandler := unknownFrameHandler p;
     handler_state := handler_state p |}.
Definition set_handler_state (hs : H) (p : frameParser H) : frameParser H :=
  {| r := r p; closeConn_calls := closeConn_calls p;
     unknownFrameHandler := unknownFrameHandler p;
     handler_state := hs |}.
Definition add_closeConn_call (c : Z * string) (p : frameParser H) : frameParser H :=
  {| r := r p; closeConn_calls := closeConn_calls p ++ [c];
     unknownFrameHandler := unknownFrameHandler p;
     handler_state := handler_state p |}.

(** An operation on the reader [p.r]. *)
Definition on_r {A} (m : M stream A) : M (frameParser H) A := fun p =>
  let (x, r') := m (r p) in (x, set_r r' p).

(** [qr := quicvarint.NewReader(p.r)]: the parser's reader, byte by byte. *)
#[export] Instance frameParser_ByteReader : ByteReader (frameParser H) :=
  on_r ReadByte.

(** [p.closeConn(code, reason)]; the value it returns is not used. *)
Definition closeConn (code : Z) (reason : string) : M (frameParser H) unit :=
  modify (add_closeConn_call (code, reason)).

Definition call_handler (h : unknownFrameHandlerFunc H) (t : FrameType)
    (e : option error) : M (frameParser H) (bool * option error) := fun p =>
  let (res, hs) := h t e (handler_state p) in
  (Ok res, set_handler_state hs p).

(** What follows a call of the callback, on both paths:
    [if err != nil { return nil, err }; if hijacked { return nil, errHijacked }]. *)
Definition after_handler (res : bool * option error) : M (frameParser H) unit :=
  match res.2 with
  | Some err => fail err
  | None => if res.1 then fail errHijacked else ret tt
  end.

(** [io.CopyN(io.Discard, qr, int64(l))] *)
Definition skip (l : Z) : M (frameParser H) (option frame) :=
  let* _ := on_r (io_ops.CopyN_Discard (int64 l)) in
  ret None.

(** The callback, when one is registered, and the two tests after it. *)
Definition consult (t : FrameType) (e : option error) : M (frameParser H) unit :=
  let* p := get in
  match unknownFrameHandler p with
  | Some h => let* res := call_handler h t e in after_handler res
  | None => ret tt
  end.

(** One turn of the [for] loop of [ParseNext]: first the part that
    follows a type tag [t], then the turn itself. *)
Definition after_type (t : FrameType) : M (frameParser H) (option frame) :=
  let* _ := if t >? 0xd then consult t None else ret tt in
  let* l := quicvarint.Read in
  if t =? 0x0 then ret (Some (FData {| data_Length := l |}))
  else if t =? 0x1 then ret (Some (FHeaders {| headers_Length := l |}))
  else if t =? 0x4 then
    let* f := on_r (parseSettingsFrame l) in ret (Some (FSettings f))
  else if t =? 0x3 then skip l (* CANCEL_PUSH *)
  else if t =? 0x5 then skip l (* PUSH_PROMISE *)
  else if t =? 0x7 then
    let* f := parseGoAwayFrame l in ret (Some (FGoAway f))
  else if t =? 0xd then skip l (* MAX_PUSH_ID *)
  else if (t =? 0x2) || (t =? 0x6) || (t =? 0x8) || (t =? 0x9) then
    let* _ := closeConn ErrCodeFrameUnexpected "" in
    fail (ErrReservedFrameType t)
  else skip l.

Definition ParseNext_body : M (frameParser H) (option frame) := fun p =>
  match quicvarint.Read p with
  | (Err err, p) => (let* _ := consult 0 (Some err) in fail err) p
  | (Ok t, p) => after_type t p
  end.

Lemma frameParser_ReadByte_Ok (p : frameParser H) (x : byte) (p' : frameParser H) :
  ReadByte p = (Ok x, p') -> length (data (r p)) = S (length (data (r p'))).
Proof.
  unfold ReadByte, frameParser_ByteReader, on_r.
  destruct (ReadByte (r p)) as [y r'] eqn:E. intros [= -> <-]. simpl.
  exact (stream_ReadByte_Ok _ _ _ E).
Qed.

Lemma frameParser_ReadByte_Err (p : frameParser H) (e : error) (p' : frameParser H) :
  ReadByte p = (Err e, p') -> length (data (r p')) = length (data (r p)).
Proof.
  unfold ReadByte, frameParser_ByteReader, on_r.
  destruct (ReadByte (r p)) as [y r'] eqn:E. intros [= -> <-]. simpl.
  exact (stream_ReadByte_Err _ _ _ E).
Qed.

#[export] Instance frameParser_Remaining : Remaining (frameParser H) :=
  {| remaining p := length (data (r p));
     ReadByte_Ok := frameParser_ReadByte_Ok;
     ReadByte_Err := frameParser_ReadByte_Err |}.

Lemma consult_r (t : FrameType) (e : option error) (p p' : frameParser H)
    (x : result unit) :
  consult t e p = (x, p') ->
  r p' = r p /\ closeConn_calls p' = closeConn_calls p /\
  unknownFrameHandler p' = unknownFrameHandler p.
Proof.
  unfold consult, bind, get, call_handler, after_handler, fail, ret.
  destruct (unknownFrameHandler p) as [h|] eqn:Eh; [|intros [= <- <-]; auto].
  destruct (h t e (handler_state p)) as [[hij [err|]] hs]; simpl;
    [|destruct hij]; intros [= <- <-]; simpl; auto.
Qed.

Lemma skip_remaining (l : Z) (p p' : frameParser H) (x : result (option frame)) :
  skip l p = (x, p') -> (length (data (r p')) <= length (data (r p)))%nat.
Proof.
  unfold skip, bind, on_r, io_ops.CopyN_Discard, ret.
  destruct (int64 l <? 0); [intros [= <- <-]; simpl; lia|].
  destruct (int64 l <=? _); intros [= <- <-]; simpl; [|lia].
  rewrite length_drop. lia.
Qed.

Lemma ParseNext_body_decreases (p p' : frameParser H) :
  ParseNext_body p = (Ok None, p') ->
  (length (data (r p')) < length (data (r p)))%nat.
Proof.
  unfold ParseNext_body.
  destruct (quicvarint.Read p) as [[t|e] p1] eqn:E1.
  2:{ unfold bind, fail. destruct (consult 0 (Some e) p1) as [[]]; intros [=]. }
  apply Read_remaining in E1 as [_ Hlt]. specialize (Hlt _ eq_refl). simpl in Hlt.
  unfold after_type, bind at 1.
  destruct ((if t >? 13 then consult t None else ret tt) p1) as [[[]|e] p2] eqn:E2;
    [|intros [=]].
  assert (Hr : r p2 = r p1).
  { destruct (t >? 13); [apply consult_r in E2; tauto|]. injection E2 as <-. reflexivity. }
  unfold bind at 1.
  destruct (quicvarint.Read p2) as [[l|e] p3] eqn:E3; [|intros [=]].
  apply Read_remaining in E3 as [Hle _]. simpl in Hle. rewrite Hr in Hle.
  repeat match goal with
         | |- context [if ?c then _ else _] => destruct c
         end;
    try (intros E; apply skip_remaining in E; lia);
    unfold bind, ret, fail;
    repeat match goal with
           | |- context [match ?c with (_, _) => _ end] => destruct c as [[?|?] ?]
           end; intros [=].
Qed.

(** [ParseNext]: the loop runs until a turn returns. *)
Definition ParseNext : M (frameParser H) frame :=
  for_loop ParseNext_body (fun p => length (data (r p))) ParseNext_body_decreases.
End Dispatcher.

(** ** Vocabulary of the specification *)

(** [decodes buf kvs rest]: reading identifier and value in turn from [buf]
    gives the pairs [kvs] and leaves [rest]. *)
Inductive decodes : list byte -> list (Z * Z) -> list byte -> Prop :=
| decodes_nil buf : decodes buf [] buf
| decodes_cons buf id val s1 s2 kvs rest :
    quicvarint.Read (bytes_NewReader buf) = (Ok id, s1) ->
    quicvarint.Read s1 = (Ok val, s2) ->
    decodes (data s2) kvs rest ->
    decodes buf ((id, val) :: kvs) rest.

(** The [switch] applied to the pairs of a body in turn. *)
Fixpoint settings_pairs (kvs : list (Z * Z)) : M settings_locals unit :=
  match kvs with
  | [] => ret tt
  | (id, val) :: kvs => let* _ := settings_switch id val in settings_pairs kvs
  end.

(** The locals record exactly the identifiers [keys] met so far. *)
Definition seen_by (keys : gset Z) (st : settings_locals) : Prop :=
  readExtendedConnect st = bool_decide (settingExtendedConnect ∈ keys) /\
  readDatagram st = bool_decide (settingDatagram ∈ keys) /\
  forall k, k <> settingExtendedConnect -> k <> settingDatagram ->
    (is_Some (map_index (Other (frame_ st)) k) <-> (k ∈ keys)).

(** A pair for one of the two boolean settings carries 0 or 1. *)
Definition valid_pair (kv : Z * Z) : Prop :=
  kv.1 = settingExtendedConnect \/ kv.1 = settingDatagram -> kv.2 = 0 \/ kv.2 = 1.

(** [first_offence keys kvs e]: after the identifiers [keys], the pairs
    [kvs] have a first offending pair [(id, val)], and [e] is the error it
    asks for.  The pairs [pre] before it offend in nothing: their
    identifiers are new and differ from each other, and those for 0x8 and
    0x33 carry 0 or 1.  The offending pair either repeats an identifier,
    which asks for the duplicate-setting error whatever its value, or has a
    new identifier that is 0x8 or 0x33 and a value other than 0 and 1, which
    asks for the invalid-value error of that setting. *)
Definition first_offence (keys : gset Z) (kvs : list (Z * Z)) (e : error) : Prop :=
  exists pre id val post, kvs = pre ++ (id, val) :: post /\
    (NoDup pre.*1 /\ (forall k, k ∈ pre.*1 -> k ∉ keys) /\ Forall valid_pair pre) /\
    ((((id ∈ keys) \/ (id ∈ pre.*1)) /\ e = ErrDuplicateSetting id) \/
     ((id ∉ keys) /\ (id ∉ pre.*1) /\ id = settingExtendedConnect /\
      val <> 0 /\ val <> 1 /\ e = ErrInvalidExtendedConnect val) \/
     ((id ∉ keys) /\ (id ∉ pre.*1) /\ id = settingDatagram /\
      val <> 0 /\ val <> 1 /\ e = ErrInvalidDatagram val)).

(** [Other] is nil or holds an entry, and has no entry for 0x8 or 0x33. *)
Definition Other_ok (f : settingsFrame) : Prop :=
  Other f <> Some ∅ /\
  map_index (Other f) settingExtendedConnect = None /\
  map_index (Other f) settingDatagram = None.

(** The map that inserting the pairs one after the other builds. *)
Definition insert_pairs (o : option (gmap Z Z)) (kvs : list (Z * Z))
  : option (gmap Z Z) :=
  foldl (fun o kv => Some (<[kv.1 := kv.2]> (default ∅ o))) o kvs.

(** What the parser gives back for an [Other]: an empty map comes back nil. *)
Definition nil_if_empty (o : option (gmap Z Z)) : option (gmap Z Z) :=
  match o with
  | Some m => if decide (m = ∅) then None else Some m
  | None => None
  end.

(** A callback that records its calls and answers with a fixed value. *)
Definition recording_handler (answer : bool * option error)
  : unknownFrameHandlerFunc (list (FrameType * option error)) :=
  fun t e calls => (answer, calls ++ [(t, e)]).

(** A pair for a setting that goes to [Other]. *)
Definition other_pair (kv : Z * Z) : Prop :=
  kv.1 <> settingExtendedConnect /\ kv.1 <> settingDatagram.

#[local] Instance other_pair_dec (kv : Z * Z) : Decision (other_pair kv).
Proof. unfold other_pair. apply _. Defined.

(** None of the identifiers of [kvs] has been met by the locals [st]. *)
Definition fresh_for (kvs : list (Z * Z)) (st : settings_locals) : Prop :=
  ((settingExtendedConnect ∈ kvs.*1) -> readExtendedConnect st = false) /\
  ((settingDatagram ∈ kvs.*1) -> readDatagram st = false) /\
  forall k, k ∈ kvs.*1 -> k <> settingExtendedConnect -> k <> settingDatagram ->
    map_index (Other (frame_ st)) k = None.

(** The frame that a body with the pairs [kvs] stands for. *)
Definition settings_of_pairs (kvs : list (Z * Z)) : settingsFrame :=
  {| Datagram := bool_decide ((settingDatagram, 1) ∈ kvs);
     ExtendedConnect := bool_decide ((settingExtendedConnect, 1) ∈ kvs);
     Other := nil_if_empty (Some (list_to_map (filter other_pair kvs))) |}.

(** [advanced p p']: the parser [p'] is [p] after some reading and perhaps
    some calls of the callback.  The callback and the calls of [closeConn]
    are the same, the reader has the same final error and holds a suffix of
    the bytes, and the state of the callback is the same when there is no
    callback. *)
Definition advanced {H} (p p' : frameParser H) : Prop :=
  unknownFrameHandler p' = unknownFrameHandler p /\
  closeConn_calls p' = closeConn_calls p /\
  final (r p') = final (r p) /\
  (exists pre, data (r p) = pre ++ data (r p')) /\
  (unknownFrameHandler p = None -> handler_state p' = handler_state p).

(** [skipped_type p t hs']: the dispatcher of [p] skips a frame of type [t]
    and leaves the state [hs'] of the callback: [t] is one of the base
    types without a case of its own or with an empty one, for which the
    callback is not consulted, or an extension type that no callback is
    registered for or that the callback declines. *)
Definition skipped_type {H} (p : frameParser H) (t : FrameType) (hs' : H) : Prop :=
  ((t = 0x3 \/ t = 0x5 \/ t = 0xa \/ t = 0xb \/ t = 0xc \/ t = 0xd) /\
   hs' = handler_state p) \/
  (t > 0xd /\
   match unknownFrameHandler p with
   | Some h => h t None (handler_state p) = ((false, None), hs')
   | None => hs' = handler_state p
   end).

(** [skippable ext s s']: the stream [s] holds frames that are all there and
    all of a type the dispatcher skips without a callback, and [s'] is what
    follows them; extension types above 0xd count when [ext] is set. *)
Inductive skippable (ext : bool) : stream -> stream -> Prop :=
| skippable_nil s : skippable ext s s
| skippable_cons s t s1 l s2 body rest s' :
    quicvarint.Read s = (Ok t, s1) ->
    (t = 0x3 \/ t = 0x5 \/ t = 0xa \/ t = 0xb \/ t = 0xc \/ t = 0xd) \/
    (t > 0xd /\ ext = true) ->
    quicvarint.Read s1 = (Ok l, s2) ->
    data s2 = body ++ rest ->
    Z.of_nat (length body) = l ->
    skippable ext (mkstream rest (final s2)) s' ->
    skippable ext s s'.

(** * Properties *)

(** ** Bytes and variable-length integers *)

Lemma Z_of_byte_range (b : byte) : 0 <= Z_of_byte b < 256.
Proof.
  unfold Z_of_byte. pose proof (Byte.to_N_bounded b). lia.
Qed.

Lemma Z_of_byte_uint8 (x : Z) : Z_of_byte (uint8 x) = x mod 256.
Proof.
  unfold uint8, Z_of_byte.
  assert (Hx : 0 <= x mod 256 < 256) by (apply Z.mod_pos_bound; lia).
  destruct (Byte.of_N (Z.to_N (x mod 256))) as [b|] eqn:E.
  - apply Byte.to_of_N in E. simpl. rewrite E. lia.
  - apply Byte.of_N_None_iff in E. lia.
Qed.

(** The sample encodings of RFC 9000, appendix A.1. *)
Example Read_1 : quicvarint.Read (mkstream [x25; x01] io.EOF)
                 = (Ok 37, mkstream [x01] io.EOF).
Proof. reflexivity. Qed.
Example Read_2 : quicvarint.Read (mkstream [x7b; xbd; x01] io.EOF)
                 = (Ok 15293, mkstream [x01] io.EOF).
Proof. reflexivity. Qed.
Example Read_4 : quicvarint.Read (mkstream [x9d; x7f; x3e; x7d] io.EOF)
                 = (Ok 494878333, mkstream [] io.EOF).
Proof. reflexivity. Qed.
Example Read_8 :
  quicvarint.Read (mkstream [xc2; x19; x7c; x5e; xff; x14; xe8; x8c] io.EOF)
  = (Ok 151288809941952652, mkstream [] io.EOF).
Proof. reflexivity. Qed.
Example Read_short : quicvarint.Read (mkstream [x9d; x7f] io.EOF)
                     = (Err (ErrIO io.EOF), mkstream [] io.EOF).
Proof. reflexivity. Qed.
Example Append_8 : quicvarint.Append [] 151288809941952652
                   = Some [xc2; x19; x7c; x5e; xff; x14; xe8; x8c].
Proof. reflexivity. Qed.
Example Append_2 : quicvarint.Append [x00] 15293 = Some [x00; x7b; xbd].
Proof. reflexivity. Qed.

Lemma first_byte_width (f : Z) :
  0 <= f < 256 -> Z.shiftr (Z.land f 0xc0) 6 = f / 64.
Proof.
  intros Hf. rewrite Z.shiftr_land. change (Z.shiftr 192 6) with (Z.ones 2).
  rewrite Z.land_ones by lia. rewrite Z.shiftr_div_pow2 by lia.
  change (2 ^ 6) with 64. change (2 ^ 2) with 4.
  apply Z.mod_small. split; [apply Z.div_pos; lia|].
  apply Z.div_lt_upper_bound; lia.
Qed.

Lemma first_byte_value (f : Z) : Z.land f (0xff - 0xc0) = f mod 64.
Proof. change (255 - 192) with (Z.ones 6). rewrite Z.land_ones by lia. reflexivity. Qed.

Lemma read_more_be_bytes (n : nat) (acc y : Z) (rest : list byte) (e : io.error) :
  quicvarint.read_more n acc (mkstream (quicvarint.be_bytes n y ++ rest) e)
  = (Ok (acc * 256 ^ Z.of_nat n + y mod 256 ^ Z.of_nat n), mkstream rest e).
Proof.
  revert acc. induction n as [|n IH]; intros acc.
  - simpl. unfold ret. rewrite Z.mod_1_r. do 2 f_equal. lia.
  - cbn [quicvarint.read_more quicvarint.be_bytes app]. unfold bind.
    unfold ReadByte at 1, stream_ByteReader. cbn [data final].
    rewrite IH. rewrite Z_of_byte_uint8. do 2 f_equal.
    rewrite Z.shiftl_mul_pow2, Z.shiftr_div_pow2 by lia.
    rewrite Nat2Z.inj_succ, Z.pow_succ_r by lia.
    replace (2 ^ (8 * Z.of_nat n)) with (256 ^ Z.of_nat n)
      by (change 256 with (2 ^ 8); rewrite <- Z.pow_mul_r by lia; reflexivity).
    assert (Hp : 0 < 256 ^ Z.of_nat n) by (apply Z.pow_pos_nonneg; lia).
    rewrite (Z.mul_comm 256 (256 ^ Z.of_nat n)).
    rewrite (Z.rem_mul_r y (256 ^ Z.of_nat n) 256) by lia.
    change (2 ^ 8) with 256. ring.
Qed.

Lemma lor_high (i c k : Z) :
  0 <= k -> 0 <= i < 2 ^ k -> Z.lor i (c * 2 ^ k) = i + c * 2 ^ k.
Proof.
  intros Hk Hi.
  assert (Hland : Z.land i (c * 2 ^ k) = 0).
  { rewrite <- Z.shiftl_mul_pow2 by lia. apply Z.bits_inj'. intros n Hn.
    rewrite Z.land_spec, Z.bits_0.
    destruct (Z.lt_ge_cases n k) as [Hlt|Hge].
    - rewrite (Z.shiftl_spec_low c k n) by lia. apply andb_false_r.
    - rewrite <- (Z.mod_small i (2 ^ k)) by lia.
      rewrite Z.mod_pow2_bits_high by lia. reflexivity. }
  rewrite <- Z.lxor_lor by exact Hland.
  symmetry. apply Z.add_nocarry_lxor. exact Hland.
Qed.

(** Reading back [n + 1] big-endian bytes whose two high bits hold the
    width code [c]. *)
Lemma Read_be_bytes (n : nat) (c i : Z) (rest : list byte) (e : io.error) :
  0 <= i < 64 * 256 ^ Z.of_nat n -> 0 <= c < 4 ->
  Z.to_nat (Z.shiftl 1 c - 1) = n ->
  quicvarint.Read
    (mkstream (quicvarint.be_bytes (S n) (i + c * (64 * 256 ^ Z.of_nat n)) ++ rest) e)
  = (Ok i, mkstream rest e).
Proof.
  intros Hi Hc Hn.
  assert (Hp : 0 < 256 ^ Z.of_nat n) by (apply Z.pow_pos_nonneg; lia).
  set (y := i + c * (64 * 256 ^ Z.of_nat n)).
  unfold quicvarint.Read, bind. cbn [quicvarint.be_bytes app].
  unfold ReadByte at 1, stream_ByteReader. cbn [data final].
  rewrite Z_of_byte_uint8.
  rewrite (Z.shiftr_div_pow2 y) by lia.
  replace (2 ^ (8 * Z.of_nat n)) with (256 ^ Z.of_nat n)
    by (change 256 with (2 ^ 8); rewrite <- Z.pow_mul_r by lia; reflexivity).
  assert (Hq : y / 256 ^ Z.of_nat n = i / 256 ^ Z.of_nat n + c * 64).
  { unfold y. replace (c * (64 * 256 ^ Z.of_nat n)) with (c * 64 * 256 ^ Z.of_nat n) by ring.
    rewrite Z.div_add by lia. reflexivity. }
  assert (Hi' : 0 <= i / 256 ^ Z.of_nat n < 64).
  { split; [apply Z.div_pos; lia|]. apply Z.div_lt_upper_bound; lia. }
  rewrite Hq.
  set (f := (i / 256 ^ Z.of_nat n + c * 64) mod 256).
  assert (Hf : f = i / 256 ^ Z.of_nat n + c * 64) by (apply Z.mod_small; lia).
  rewrite first_byte_width by lia. rewrite first_byte_value.
  replace (f / 64) with c by (rewrite Hf, Z.div_add by lia; rewrite Z.div_small; lia).
  replace (f mod 64) with (i / 256 ^ Z.of_nat n)
    by (rewrite Hf, Z.mod_add by lia; rewrite Z.mod_small; lia).
  rewrite Hn. rewrite read_more_be_bytes. do 2 f_equal.
  unfold y. replace (c * (64 * 256 ^ Z.of_nat n)) with (c * 64 * 256 ^ Z.of_nat n) by ring.
  rewrite Z.mod_add by lia.
  pose proof (Z.div_mod i (256 ^ Z.of_nat n)). lia.
Qed.

Lemma Read_Append (i : Z) :
  0 <= i <= quicvarint.maxVarInt8 ->
  exists enc,
    (forall out, quicvarint.Append out i = Some (out ++ enc)) /\
    quicvarint.Len i = Some (Z.of_nat (length enc)) /\
    forall rest e, quicvarint.Read (mkstream (enc ++ rest) e) = (Ok i, mkstream rest e).
Proof.
  intros Hi. unfold quicvarint.Append, quicvarint.Len.
  unfold quicvarint.maxVarInt1, quicvarint.maxVarInt2, quicvarint.maxVarInt4,
    quicvarint.maxVarInt8 in *.
  destruct (Z.leb_spec i 63).
  { eexists. split; [reflexivity|]. split; [reflexivity|]. intros rest e.
    replace i with (i + 0 * (64 * 256 ^ Z.of_nat 0)) at 1 by lia.
    apply (Read_be_bytes 0 0); [change (Z.of_nat 0) with 0|..]; first [lia|reflexivity]. }
  destruct (Z.leb_spec i 16383).
  { eexists. split; [reflexivity|]. split; [reflexivity|]. intros rest e.
    change 0x4000 with (1 * 2 ^ 14). rewrite (lor_high i 1 14) by lia.
    apply (Read_be_bytes 1 1); [change (Z.of_nat 1) with 1|..]; first [lia|reflexivity]. }
  destruct (Z.leb_spec i 1073741823).
  { eexists. split; [reflexivity|]. split; [reflexivity|]. intros rest e.
    change 0x80000000 with (2 * 2 ^ 30). rewrite (lor_high i 2 30) by lia.
    apply (Read_be_bytes 3 2); [change (Z.of_nat 3) with 3|..]; first [lia|reflexivity]. }
  destruct (Z.leb_spec i 4611686018427387903); [|lia].
  eexists. split; [reflexivity|]. split; [reflexivity|]. intros rest e.
  change 0xc000000000000000 with (3 * 2 ^ 62). rewrite (lor_high i 3 62) by lia.
  apply (Read_be_bytes 7 3); [change (Z.of_nat 7) with 7|..]; first [lia|reflexivity].
Qed.

(** What a successful read consumed and what it can return. *)
Lemma read_more_Ok {R} `{Remaining R} (n : nat) (acc : Z) (r r' : R) (v : Z) :
  quicvarint.read_more n acc r = (Ok v, r') ->
  remaining r = (n + remaining r')%nat /\
  (0 <= acc -> acc * 256 ^ Z.of_nat n <= v < (acc + 1) * 256 ^ Z.of_nat n).
Proof.
  revert acc r. induction n as [|n IH]; intros acc r.
  - simpl. unfold ret. intros [= <- <-]. split; [reflexivity|]. lia.
  - cbn [quicvarint.read_more]. unfold bind.
    destruct (ReadByte r) as [[x|e] r1] eqn:E; [|intros [=]].
    intros Hm. apply IH in Hm as [Hrem Hv]. apply ReadByte_Ok in E.
    split; [lia|]. intros Hacc.
    pose proof (Z_of_byte_range x) as Hx.
    rewrite Z.shiftl_mul_pow2 in Hv by lia. change (2 ^ 8) with 256 in Hv.
    specialize (Hv ltac:(lia)).
    rewrite Nat2Z.inj_succ, Z.pow_succ_r by lia.
    assert (Hp : 0 < 256 ^ Z.of_nat n) by (apply Z.pow_pos_nonneg; lia).
    split; nia.
Qed.

Lemma Read_Ok {R} `{Remaining R} (r r' : R) (v : Z) :
  quicvarint.Read r = (Ok v, r') ->
  exists w : nat, (w = 1 \/ w = 2 \/ w = 4 \/ w = 8)%nat /\
    remaining r = (w + remaining r')%nat /\
    0 <= v <= quicvarint.maxVarInt8.
Proof.
  unfold quicvarint.Read, bind.
  destruct (ReadByte r) as [[x|e] r1] eqn:E; [|intros [=]].
  apply ReadByte_Ok in E. pose proof (Z_of_byte_range x) as Hx.
  rewrite first_byte_width, first_byte_value by lia.
  set (f := Z_of_byte x) in *.
  assert (Hc : f / 64 = 0 \/ f / 64 = 1 \/ f / 64 = 2 \/ f / 64 = 3).
  { assert (0 <= f / 64 < 4); [|lia].
    split; [apply Z.div_pos; lia|apply Z.div_lt_upper_bound; lia]. }
  assert (Hv : 0 <= f mod 64 < 64) by (apply Z.mod_pos_bound; lia).
  unfold quicvarint.maxVarInt8.
  destruct Hc as [-> | [-> | [-> | ->]]]; intros Hm; apply read_more_Ok in Hm as [Hrem Hr];
    specialize (Hr ltac:(lia)).
  - exists 1%nat. change (Z.to_nat (Z.shiftl 1 0 - 1)) with 0%nat in *.
    change (256 ^ Z.of_nat 0) with 1 in Hr. lia.
  - exists 2%nat. change (Z.to_nat (Z.shiftl 1 1 - 1)) with 1%nat in *.
    change (256 ^ Z.of_nat 1) with 256 in Hr. lia.
  - exists 4%nat. change (Z.to_nat (Z.shiftl 1 2 - 1)) with 3%nat in *.
    change (256 ^ Z.of_nat 3) with 16777216 in Hr. lia.
  - exists 8%nat. change (Z.to_nat (Z.shiftl 1 3 - 1)) with 7%nat in *.
    change (256 ^ Z.of_nat 7) with 72057594037927936 in Hr. lia.
Qed.

Lemma int64_small (x : Z) : 0 <= x <= quicvarint.maxVarInt8 -> int64 x = x.
Proof.
  unfold int64, quicvarint.maxVarInt8. intros Hx.
  destruct (Z.ltb_spec x (2 ^ 63)); lia.
Qed.

(** On a stream, a read takes a prefix of the data and leaves the final
    error alone. *)
Lemma read_more_stream (n : nat) (acc : Z) (s s' : stream) (x : result Z) :
  quicvarint.read_more n acc s = (x, s') ->
  final s' = final s /\ exists pre, data s = pre ++ data s'.
Proof.
  revert acc s. induction n as [|n IH]; intros acc s.
  - simpl. unfold ret. intros [= <- <-]. split; [reflexivity|]. by exists [].
  - cbn [quicvarint.read_more]. unfold bind, ReadByte at 1, stream_ByteReader.
    destruct s as [[|y d] f]; cbn [data final].
    + intros [= <- <-]. split; [reflexivity|]. by exists [].
    + intros Hm. apply IH in Hm as [Hf [pre Hpre]]. cbn [data final] in *.
      split; [exact Hf|]. exists (y :: pre). rewrite Hpre. reflexivity.
Qed.

Lemma Read_stream (s s' : stream) (x : result Z) :
  quicvarint.Read s = (x, s') ->
  final s' = final s /\ exists pre, data s = pre ++ data s'.
Proof.
  unfold quicvarint.Read, bind, ReadByte at 1, stream_ByteReader.
  destruct s as [[|y d] f]; cbn [data final].
  - intros [= <- <-]. split; [reflexivity|]. by exists [].
  - intros Hm. apply read_more_stream in Hm as [Hf [pre Hpre]]. cbn [data final] in *.
    split; [exact Hf|]. exists (y :: pre). rewrite Hpre. reflexivity.
Qed.

(** The parser reads through its reader [r] and touches nothing else. *)
Lemma read_more_frameParser {H} (n : nat) (acc : Z) (p : frameParser H) :
  quicvarint.read_more n acc p = on_r (quicvarint.read_more n acc) p.
Proof.
  revert acc p. induction n as [|n IH]; intros acc p.
  - destruct p; reflexivity.
  - cbn [quicvarint.read_more]. unfold bind.
    change (ReadByte p) with (on_r ReadByte p). unfold on_r.
    destruct (ReadByte (r p)) as [[x|e] r1]; [|reflexivity].
    rewrite IH. reflexivity.
Qed.

Lemma Read_frameParser {H} (p : frameParser H) :
  quicvarint.Read p = on_r quicvarint.Read p.
Proof.
  unfold quicvarint.Read, bind.
  change (ReadByte p) with (on_r ReadByte p). unfold on_r.
  destruct (ReadByte (r p)) as [[x|e] r1]; [|reflexivity].
  cbv zeta. rewrite read_more_frameParser. reflexivity.
Qed.

(** ** The counting reader *)

(** Reading through the counting reader reads the wrapped reader, and
    [Read] grows by the number of bytes consumed. *)
Lemma read_more_counting {R} `{Remaining R} (n : nat) (acc : Z) (r0 : R) (c : Z) :
  quicvarint.read_more n acc {| inner := r0; Read := c |}
  = let (x, r') := quicvarint.read_more n acc r0 in
    (x, {| inner := r'; Read := c + Z.of_nat (remaining r0 - remaining r') |}).
Proof.
  revert acc r0 c. induction n as [|n IH]; intros acc r0 c.
  - simpl. unfold ret. rewrite Nat.sub_diag. do 2 f_equal. lia.
  - cbn [quicvarint.read_more]. unfold bind.
    change (ReadByte {| inner := r0; Read := c |})
      with (counting_ByteReader {| inner := r0; Read := c |}).
    unfold counting_ByteReader at 1. cbn [inner Read].
    destruct (ReadByte r0) as [[y|e] r1] eqn:E.
    + rewrite IH. apply ReadByte_Ok in E.
      pose proof (read_more_remaining n (Z.shiftl acc 8 + Z_of_byte y) r1) as Hle.
      destruct (quicvarint.read_more n _ r1) as [x r']. simpl in Hle.
      do 2 f_equal. lia.
    + apply ReadByte_Err in E. do 2 f_equal. lia.
Qed.

Lemma Read_counting {R} `{Remaining R} (r0 : R) (c : Z) :
  quicvarint.Read {| inner := r0; Read := c |}
  = let (x, r') := quicvarint.Read r0 in
    (x, {| inner := r'; Read := c + Z.of_nat (remaining r0 - remaining r') |}).
Proof.
  unfold quicvarint.Read, bind.
  change (ReadByte {| inner := r0; Read := c |})
    with (counting_ByteReader {| inner := r0; Read := c |}).
  unfold counting_ByteReader at 1. cbn [inner Read].
  destruct (ReadByte r0) as [[y|e] r1] eqn:E.
  - cbv zeta. rewrite read_more_counting. apply ReadByte_Ok in E.
    match goal with |- context [quicvarint.read_more ?n ?a r1] =>
      pose proof (read_more_remaining n a r1) as Hle;
      destruct (quicvarint.read_more n a r1) as [x r'] end.
    simpl in Hle. do 2 f_equal. lia.
  - apply ReadByte_Err in E. do 2 f_equal. lia.
Qed.

(** ** The dispatcher, one turn at a time *)

Section DispatcherFacts.
Context {H : Type}.
Implicit Types (p : frameParser H) (s : stream) (t l : Z).

Lemma ParseNext_eq p :
  ParseNext p = match ParseNext_body p with
                | (Err e, p') => (Err e, p')
                | (Ok (Some a), p') => (Ok a, p')
                | (Ok None, p') => ParseNext p'
                end.
Proof. unfold ParseNext. apply for_loop_eq. Qed.

Lemma Read_parser p s' (x : result Z) :
  quicvarint.Read (r p) = (x, s') -> quicvarint.Read p = (x, set_r s' p).
Proof. intros E. rewrite Read_frameParser. unfold on_r. rewrite E. reflexivity. Qed.

Lemma ParseNext_body_type p t s1 :
  quicvarint.Read (r p) = (Ok t, s1) ->
  ParseNext_body p = after_type t (set_r s1 p).
Proof. intros E. unfold ParseNext_body. rewrite (Read_parser _ _ _ E). reflexivity. Qed.

Lemma ParseNext_body_no_type p e s1 :
  quicvarint.Read (r p) = (Err e, s1) ->
  ParseNext_body p = (let* _ := consult 0 (Some e) in fail e) (set_r s1 p).
Proof. intros E. unfold ParseNext_body. rewrite (Read_parser _ _ _ E). reflexivity. Qed.
End DispatcherFacts.

(** C2: a frame of type 0x2, 0x6, 0x8 or 0x9 makes [ParseNext] call
    [closeConn] exactly once, with the code [ErrCodeFrameUnexpected] and the
    empty reason, and return the error for a reserved frame type; the reader
    is left right behind the length field, so no byte of the body was read
    or skipped, and the callback was not consulted. *)
Theorem forbidden_type_closes_connection {H} (p : frameParser H) (t l : Z)
    (s1 s2 : stream) :
  quicvarint.Read (r p) = (Ok t, s1) ->
  quicvarint.Read s1 = (Ok l, s2) ->
  t = 0x2 \/ t = 0x6 \/ t = 0x8 \/ t = 0x9 ->
  ParseNext p
  = (Err (ErrReservedFrameType t),
     {| r := s2;
        closeConn_calls := closeConn_calls p ++ [(ErrCodeFrameUnexpected, "")];
        unknownFrameHandler := unknownFrameHandler p;
        handler_state := handler_state p |}).
Proof.
  intros Et El Ht. rewrite ParseNext_eq, (ParseNext_body_type _ _ _ Et).
  unfold after_type, bind at 1.
  replace (t >? 13) with false by (destruct Ht as [-> | [-> | [-> | ->]]]; reflexivity).
  unfold ret at 1. unfold bind at 1.
  rewrite (Read_parser (set_r s1 p) s2 (Ok l)) by exact El.
  destruct Ht as [-> | [-> | [-> | ->]]]; reflexivity.
Qed.

Lemma forbidden_type_closes_connection_witness :
  ParseNext {| r := mkstream [x06; x02; xaa; xbb; x07] io.EOF; closeConn_calls := [];
               unknownFrameHandler := None; handler_state := tt |}
  = (Err (ErrReservedFrameType 6),
     {| r := mkstream [xaa; xbb; x07] io.EOF;
        closeConn_calls := [(0x105, "")];
        unknownFrameHandler := None; handler_state := tt |}).
Proof.
  apply (forbidden_type_closes_connection
           {| r := mkstream [x06; x02; xaa; xbb; x07] io.EOF; closeConn_calls := [];
              unknownFrameHandler := None; handler_state := tt |}
           6 2 (mkstream [x02; xaa; xbb; x07] io.EOF)
           (mkstream [xaa; xbb; x07] io.EOF)).
  - reflexivity.
  - reflexivity.
  - right; left; reflexivity.
Defined.

(** ** SETTINGS bodies as sequences of pairs *)

Lemma for_loop_invariant {S A} (body : M S (option A)) (mu : S -> nat)
    (Hdec : forall s s', body s = (Ok None, s') -> (mu s' < mu s)%nat)
    (Inv : S -> Prop) (Post : result A -> Prop) :
  (forall s, Inv s ->
     match body s with
     | (Err e, _) => Post (Err e)
     | (Ok (Some a), _) => Post (Ok a)
     | (Ok None, s') => Inv s'
     end) ->
  forall s, Inv s -> Post (for_loop body mu Hdec s).1.
Proof.
  intros Hstep s. remember (mu s) as n eqn:Hn. revert s Hn.
  induction n as [n IH] using lt_wf_ind. intros s -> Hs.
  rewrite for_loop_eq. specialize (Hstep s Hs).
  destruct (body s) as [[[a|]|e] s'] eqn:E; simpl; try exact Hstep.
  apply (IH (mu s')); [apply Hdec; exact E|reflexivity|exact Hstep].
Qed.

Lemma settings_loop_eq (st : settings_locals) :
  settings_loop st = match settings_body st with
                     | (Err e, st') => (Err e, st')
                     | (Ok (Some f), st') => (Ok f, st')
                     | (Ok None, st') => settings_loop st'
                     end.
Proof. unfold settings_loop. apply for_loop_eq. Qed.

Lemma settings_loop_done (st : settings_locals) :
  data (b st) = [] -> settings_loop st = (Ok (frame_ st), st).
Proof.
  intros Hd. rewrite settings_loop_eq. unfold settings_body, bind, get, bytes_Len.
  rewrite Hd. reflexivity.
Qed.

Lemma settings_switch_set_b (id val : Z) (s : stream) (st : settings_locals) :
  settings_switch id val (set_b s st)
  = let (x, st') := settings_switch id val st in (x, set_b s st').
Proof.
  unfold settings_switch, bind, get, modify, fail. cbn [set_b readExtendedConnect
    readDatagram frame_].
  repeat match goal with
         | |- context [if ?c then _ else _] => destruct c
         | |- context [match ?c with Some _ => _ | None => _ end] => destruct c
         end; reflexivity.
Qed.

Lemma settings_pairs_set_b (kvs : list (Z * Z)) (s : stream) (st : settings_locals) :
  settings_pairs kvs (set_b s st)
  = let (x, st') := settings_pairs kvs st in (x, set_b s st').
Proof.
  revert st. induction kvs as [|[id val] kvs IH]; intros st; [reflexivity|].
  cbn [settings_pairs]. unfold bind. rewrite settings_switch_set_b.
  destruct (settings_switch id val st) as [[[]|e] st1]; [apply IH|reflexivity].
Qed.

(** The loop on a body that decodes to [kvs] is the switch on each pair,
    and then the loop on what is left. *)
Lemma settings_loop_decodes (buf : list byte) (kvs : list (Z * Z)) (rest : list byte) :
  decodes buf kvs rest ->
  forall st, b st = bytes_NewReader buf ->
    (settings_loop st).1
    = match settings_pairs kvs st with
      | (Err e, _) => Err e
      | (Ok _, st') => (settings_loop (set_b (bytes_NewReader rest) st')).1
      end.
Proof.
  induction 1 as [buf|buf id val s1 s2 kvs rest E1 E2 Hd IH]; intros st Hb.
  - cbn [settings_pairs]. unfold ret. rewrite <- Hb. destruct st; reflexivity.
  - rewrite settings_loop_eq. unfold settings_body, bind at 1, get.
    pose proof (Read_Ok _ _ _ E1) as (w & Hw & Hrem & _).
    cbn [remaining stream_Remaining bytes_NewReader data] in Hrem.
    unfold bytes_Len. rewrite Hb. cbn [bytes_NewReader data].
    destruct (Z.gtb_spec (Z.of_nat (length buf)) 0) as [_|Hle]; [|lia].
    cbn [negb]. unfold bind at 1, on_b at 1. rewrite Hb, E1.
    unfold bind at 1, on_b at 1. cbn [set_b b]. rewrite E2.
    unfold bind at 1. rewrite !settings_switch_set_b.
    cbn [settings_pairs]. unfold bind at 1.
    destruct (settings_switch id val st) as [[[]|e] st1]; [|reflexivity].
    unfold ret. change (set_b s2 (set_b s1 st1)) with (set_b s2 st1).
    apply Read_stream in E1 as [Hf1 _]. apply Read_stream in E2 as [Hf2 _].
    cbn [bytes_NewReader final] in Hf1.
    rewrite (IH (set_b s2 st1)).
    2:{ destruct s2 as [d2 f2]. cbn in *. unfold bytes_NewReader. congruence. }
    rewrite settings_pairs_set_b.
    destruct (settings_pairs kvs st1) as [[[]|e] st2]; reflexivity.
Qed.

Lemma ReadFull_prefix (buf rest : list byte) (e : io.error) :
  io_ops.ReadFull (length buf) (mkstream (buf ++ rest) e) = (Ok buf, mkstream rest e).
Proof.
  unfold io_ops.ReadFull. cbn [data final]. rewrite length_app.
  destruct (Nat.leb_spec (length buf) (length buf + length rest)); [|lia].
  rewrite take_app_length, drop_app_length. reflexivity.
Qed.

(** Parsing a frame whose first [l] bytes are a body that decodes to [kvs]. *)
Lemma parseSettingsFrame_decodes (buf : list byte) (kvs : list (Z * Z))
    (tl more : list byte) (e : io.error) :
  decodes buf kvs tl ->
  Z.of_nat (length buf) <= 8192 ->
  parseSettingsFrame (Z.of_nat (length buf)) (mkstream (buf ++ more) e)
  = (match settings_pairs kvs (settings_start buf) with
     | (Err e, _) => Err e
     | (Ok _, st') => (settings_loop (set_b (bytes_NewReader tl) st')).1
     end, mkstream more e).
Proof.
  intros Hd Hl. unfold parseSettingsFrame.
  change (8 * Z.shiftl 1 10) with 8192.
  destruct (Z.gtb_spec (Z.of_nat (length buf)) 8192) as [|_]; [lia|].
  rewrite Nat2Z.id, ReadFull_prefix.
  rewrite (settings_loop_decodes _ _ _ Hd) by reflexivity. reflexivity.
Qed.

(** ** Duplicate settings *)

(** Decoding a concrete body by running the reads. *)
Ltac decode_by_reading :=
  repeat (eapply decodes_cons; [reflexivity|reflexivity|]); apply decodes_nil.

Lemma seen_by_start (buf : list byte) : seen_by ∅ (settings_start buf).
Proof.
  split; [reflexivity|]. split; [reflexivity|]. intros k _ _. simpl.
  split; [intros [x Hx]; discriminate Hx|set_solver].
Qed.

Lemma settings_switch_seen (keys : gset Z) (st : settings_locals) (id val : Z) :
  seen_by keys st ->
  match settings_switch id val st with
  | (Ok _, st') => (id ∉ keys) /\ seen_by ({[id]} ∪ keys) st'
  | (Err e, _) =>
      ((id ∈ keys) /\ e = ErrDuplicateSetting id) \/
      ((id ∉ keys) /\ id = settingExtendedConnect /\ val <> 0 /\ val <> 1 /\
       e = ErrInvalidExtendedConnect val) \/
      ((id ∉ keys) /\ id = settingDatagram /\ val <> 0 /\ val <> 1 /\
       e = ErrInvalidDatagram val)
  end.
Proof.
  intros (Hec & Hdg & Hother).
  unfold settings_switch, bind, get, modify, fail, settingExtendedConnect,
    settingDatagram in *.
  destruct (Z.eqb_spec id 8) as [->|Hne8].
  { rewrite Hec. destruct (bool_decide_reflect (8 ∈ keys)) as [Hin|Hin]; [left; auto|].
    destruct (Z.eqb_spec val 0) as [->|H0]; cbn [negb andb].
    2: destruct (Z.eqb_spec val 1) as [->|H1]; cbn [negb andb].
    3: right; left; auto.
    all: split; [exact Hin|]; unfold seen_by; cbn [set_frame set_ExtendedConnect set_Datagram set_readExtendedConnect set_readDatagram readExtendedConnect readDatagram frame_ Other set_Other]; split_and!;
      [rewrite bool_decide_eq_true_2; [reflexivity|set_solver]
      |rewrite Hdg; apply bool_decide_ext; set_solver
      |intros k Hk1 Hk2; rewrite Hother by assumption; set_solver]. }
  destruct (Z.eqb_spec id 51) as [->|Hne51].
  { rewrite Hdg. destruct (bool_decide_reflect (51 ∈ keys)) as [Hin|Hin]; [left; auto|].
    destruct (Z.eqb_spec val 0) as [->|H0]; cbn [negb andb].
    2: destruct (Z.eqb_spec val 1) as [->|H1]; cbn [negb andb].
    3: right; right; auto.
    all: split; [exact Hin|]; unfold seen_by; cbn [set_frame set_ExtendedConnect set_Datagram set_readExtendedConnect set_readDatagram readExtendedConnect readDatagram frame_ Other set_Other]; split_and!;
      [rewrite Hec; apply bool_decide_ext; set_solver
      |rewrite bool_decide_eq_true_2; [reflexivity|set_solver]
      |intros k Hk1 Hk2; rewrite Hother by assumption; set_solver]. }
  pose proof (Hother id Hne8 Hne51) as Hid.
  destruct (map_index (Other (frame_ st)) id) as [x|] eqn:E.
  { left. split; [apply Hid; eauto|reflexivity]. }
  assert (Hnin : id ∉ keys) by (intros Hin; apply Hid in Hin as [x Hx]; discriminate Hx).
  split; [exact Hnin|]. unfold seen_by; cbn [set_frame set_ExtendedConnect set_Datagram set_readExtendedConnect set_readDatagram readExtendedConnect readDatagram frame_ Other set_Other map_index mbind option_bind]. split_and!.
  - rewrite Hec. apply bool_decide_ext. set_solver.
  - rewrite Hdg. apply bool_decide_ext. set_solver.
  - intros k Hk1 Hk2. destruct (decide (k = id)) as [->|Hk].
    + rewrite lookup_insert_eq. split; [set_solver|eauto].
    + rewrite lookup_insert_ne by congruence.
      specialize (Hother k Hk1 Hk2). unfold map_index in Hother.
      destruct (Other (frame_ st)) as [m|]; cbn in *.
      * rewrite Hother. set_solver.
      * rewrite lookup_empty. rewrite Hother. set_solver.
Qed.

(** A pair that the switch lets through carries a valid value. *)
Lemma settings_switch_Ok_valid (id val : Z) (st st' : settings_locals) (x : unit) :
  settings_switch id val st = (Ok x, st') -> valid_pair (id, val).
Proof.
  intros E. unfold valid_pair. cbn [fst snd].
  unfold settings_switch, bind, get, modify, fail, settingExtendedConnect,
    settingDatagram in *.
  intros [-> | ->]; cbn [Z.eqb Pos.eqb] in E.
  - destruct (readExtendedConnect st); [discriminate|].
    destruct (Z.eqb_spec val 0); [auto|]. destruct (Z.eqb_spec val 1); [auto|].
    discriminate.
  - destruct (readDatagram st); [discriminate|].
    destruct (Z.eqb_spec val 0); [auto|]. destruct (Z.eqb_spec val 1); [auto|].
    discriminate.
Qed.

(** The first offence behind a pair that offends in nothing. *)
Lemma first_offence_cons (keys : gset Z) (id val : Z) (kvs : list (Z * Z)) (e : error) :
  id ∉ keys -> valid_pair (id, val) ->
  first_offence ({[id]} ∪ keys) kvs e -> first_offence keys ((id, val) :: kvs) e.
Proof.
  intros Hnin Hv (pre & id' & val' & post & -> & (Hnd & Hfresh & Hvalid) & Hoff).
  exists ((id, val) :: pre), id', val', post. split; [reflexivity|].
  cbn [fmap list_fmap fst]. split.
  - split; [|split].
    + apply NoDup_cons. split; [|exact Hnd].
      intros Hin. apply Hfresh in Hin. set_solver.
    + intros k Hk. apply elem_of_cons in Hk as [->|Hk]; [exact Hnin|].
      apply Hfresh in Hk. set_solver.
    + apply Forall_cons. split; assumption.
  - destruct Hoff as [[Hdup ->]|[(Hk & Hp & Hid & H0 & H1 & ->)|(Hk & Hp & Hid & H0 & H1 & ->)]].
    + left. split; [|reflexivity]. destruct Hdup as [Hin|Hin]; [|right; set_solver].
      apply elem_of_union in Hin as [Hin|Hin]; [right; set_solver|left; exact Hin].
    + right; left. split_and!; try assumption; set_solver.
    + right; right. split_and!; try assumption; set_solver.
Qed.

Lemma app_cons_eq_inv {A} (pre1 pre2 : list A) (x1 x2 : A) (post1 post2 : list A) :
  pre1 ++ x1 :: post1 = pre2 ++ x2 :: post2 ->
  (pre1 = pre2 /\ x1 = x2 /\ post1 = post2) \/
  (exists rest, pre2 = pre1 ++ x1 :: rest) \/
  (exists rest, pre1 = pre2 ++ x2 :: rest).
Proof.
  revert pre2. induction pre1 as [|a pre1 IH]; intros [|c pre2]; cbn [app].
  - intros [= -> ->]. auto.
  - intros [= -> _]. right; left. eauto.
  - intros [= -> _]. right; right. eauto.
  - intros [= -> E]. destruct (IH _ E) as [(-> & -> & ->)|[[rest ->]|[rest ->]]]; eauto.
Qed.

(** An element that occurs twice in two lists without repetitions put
    end to end occurs in both. *)
Lemma twice_in_app {A} (l1 l2 p1 p2 post : list A) (x : A) :
  l1 ++ l2 = p1 ++ x :: p2 ++ x :: post ->
  NoDup l1 -> NoDup l2 -> (x ∈ l1) /\ (x ∈ l2).
Proof.
  revert p1. induction l1 as [|a l1 IH]; intros p1 E Hnd1 Hnd2.
  - exfalso. cbn [app] in E. rewrite E in Hnd2.
    apply NoDup_app in Hnd2 as (_ & _ & Hnd2). apply NoDup_cons in Hnd2 as [Hnin _].
    apply Hnin. set_solver.
  - apply NoDup_cons in Hnd1 as [Ha Hnd1]. destruct p1 as [|c p1]; cbn [app] in E.
    + injection E as -> E. split; [left|].
      assert (Hin : x ∈ l1 ++ l2) by (rewrite E; set_solver).
      apply elem_of_app in Hin as [Hin|Hin]; [contradiction|exact Hin].
    + injection E as -> E. destruct (IH p1 E Hnd1 Hnd2) as [H1 H2].
      split; [right; exact H1|exact H2].
Qed.

(** A pair inside a stretch that offends in nothing is no offence. *)
Lemma no_offence_inside (keys : gset Z) (pre rest : list (Z * Z)) (id val : Z) :
  NoDup (pre ++ (id, val) :: rest).*1 ->
  (forall k, k ∈ (pre ++ (id, val) :: rest).*1 -> k ∉ keys) ->
  Forall valid_pair (pre ++ (id, val) :: rest) ->
  (id ∉ keys) /\ (id ∉ pre.*1) /\
  ((id = settingExtendedConnect \/ id = settingDatagram) -> val = 0 \/ val = 1).
Proof.
  rewrite fmap_app. cbn [fmap list_fmap fst]. intros Hnd Hfresh Hvalid.
  split; [apply Hfresh; set_solver|]. split.
  - apply NoDup_app in Hnd as (_ & Hdisj & _). intros Hin.
    apply (Hdisj id Hin). left.
  - apply Forall_app in Hvalid as [_ Hvalid]. apply Forall_cons in Hvalid as [Hv _].
    exact Hv.
Qed.

(** The pairs have at most one first offence, with one error. *)
Lemma first_offence_unique (keys : gset Z) (kvs : list (Z * Z)) (e e' : error) :
  first_offence keys kvs e -> first_offence keys kvs e' -> e' = e.
Proof.
  intros (pre1 & id1 & val1 & post1 & -> & (Hnd1 & Hf1 & Hv1) & Ho1)
         (pre2 & id2 & val2 & post2 & E & (Hnd2 & Hf2 & Hv2) & Ho2).
  apply app_cons_eq_inv in E as [(-> & [= -> ->] & ->)|[[rest ->]|[rest ->]]].
  - unfold settingExtendedConnect, settingDatagram in *.
    destruct Ho1 as [[Hd1 ->]|[(Hk1 & Hp1 & Hi1 & _ & _ & ->)|(Hk1 & Hp1 & Hi1 & _ & _ & ->)]],
             Ho2 as [[Hd2 ->]|[(Hk2 & Hp2 & Hi2 & _ & _ & ->)|(Hk2 & Hp2 & Hi2 & _ & _ & ->)]];
      first [reflexivity|tauto|congruence].
  - exfalso.
    destruct (no_offence_inside keys pre1 rest id1 val1 Hnd2 Hf2 Hv2) as (Hk & Hp & Hv).
    destruct Ho1 as [[Hd _]|[(_ & _ & Hi & H0 & H1 & _)|(_ & _ & Hi & H0 & H1 & _)]];
      tauto.
  - exfalso.
    destruct (no_offence_inside keys pre2 rest id2 val2 Hnd1 Hf1 Hv1) as (Hk & Hp & Hv).
    destruct Ho2 as [[Hd _]|[(_ & _ & Hi & H0 & H1 & _)|(_ & _ & Hi & H0 & H1 & _)]];
      tauto.
Qed.

Lemma settings_pairs_seen (kvs : list (Z * Z)) :
  forall (keys : gset Z) (st : settings_locals),
    seen_by keys st ->
    match settings_pairs kvs st with
    | (Ok _, st') =>
        NoDup kvs.*1 /\ (forall k, k ∈ kvs.*1 -> k ∉ keys) /\
        seen_by (list_to_set kvs.*1 ∪ keys) st'
    | (Err e, _) => first_offence keys kvs e
    end.
Proof.
  induction kvs as [|[id val] kvs IH]; intros keys st Hseen.
  - cbn. split; [constructor|]. split; [set_solver|].
    replace (∅ ∪ keys) with keys by set_solver. exact Hseen.
  - cbn [settings_pairs]. unfold bind.
    pose proof (settings_switch_seen keys st id val Hseen) as Hsw.
    destruct (settings_switch id val st) as [[[]|e] st1] eqn:Esw.
    + destruct Hsw as [Hnin Hseen1]. specialize (IH _ _ Hseen1).
      destruct (settings_pairs kvs st1) as [[[]|e] st2].
      * destruct IH as (Hnd & Hfresh & Hseen2). cbn [fmap list_fmap fst].
        split; [constructor; [|exact Hnd]; intros Hin; apply Hfresh in Hin; set_solver|].
        split; [intros k Hk; apply elem_of_cons in Hk as [->|Hk];
                  [exact Hnin|apply Hfresh in Hk; set_solver]|].
        replace (list_to_set (id :: kvs.*1) ∪ keys)
          with (list_to_set kvs.*1 ∪ ({[id]} ∪ keys)) by set_solver.
        exact Hseen2.
      * apply first_offence_cons; [exact Hnin| |exact IH].
        exact (settings_switch_Ok_valid _ _ _ _ _ Esw).
    + exists [], id, val, kvs. split; [reflexivity|].
      split; [split; [constructor|split; [intros k Hk; inversion Hk|constructor]]|].
      cbn [fmap list_fmap].
      destruct Hsw as [[Hin ->]|[(Hk & -> & H0 & H1 & ->)|(Hk & -> & H0 & H1 & ->)]].
      * left. auto.
      * right; left. split_and!; try done. intros Hin; inversion Hin.
      * right; right. split_and!; try done. intros Hin; inversion Hin.
Qed.

(** C3, as amended: a SETTINGS body of at most 8192 bytes in which an
    identifier occurs twice is always rejected, whether or not the repeated
    occurrences carry equal values, and the reader is left behind the body.
    The error is the one of the first offending pair, and there is only one
    such error: the pairs before that pair have distinct identifiers and
    valid values, and the pair itself either repeats an identifier, which
    gives the duplicate-setting error whatever its value, or is a first
    pair for 0x8 or 0x33 with a value other than 0 and 1, which gives the
    invalid-value error.  When every pair for 0x8 and 0x33 carries 0 or 1,
    the error is the duplicate-setting error of the first pair that
    repeats an identifier. *)
Theorem duplicate_setting_rejected (buf tl more : list byte) (kvs : list (Z * Z))
    (fin : io.error) :
  decodes buf kvs tl ->
  ~ NoDup kvs.*1 ->
  Z.of_nat (length buf) <= 8192 ->
  exists e,
    parseSettingsFrame (Z.of_nat (length buf)) (mkstream (buf ++ more) fin)
    = (Err e, mkstream more fin) /\
    first_offence ∅ kvs e /\
    (forall e', first_offence ∅ kvs e' -> e' = e) /\
    (Forall valid_pair kvs ->
     exists pre id val post,
       kvs = pre ++ (id, val) :: post /\ NoDup pre.*1 /\ (id ∈ pre.*1) /\
       e = ErrDuplicateSetting id).
Proof.
  intros Hd Hdup Hl.
  rewrite (parseSettingsFrame_decodes _ _ _ _ _ Hd Hl).
  pose proof (settings_pairs_seen kvs ∅ (settings_start buf) (seen_by_start buf)) as Hp.
  destruct (settings_pairs kvs (settings_start buf)) as [[[]|e] st'].
  { destruct Hp as [Hnd _]. contradiction. }
  exists e. split; [reflexivity|]. split; [exact Hp|].
  split; [intros e' He'; exact (first_offence_unique _ _ _ _ Hp He')|].
  intros Hvalid. destruct Hp as (pre & id & val & post & -> & (Hnd & _ & _) & Hoff).
  exists pre, id, val, post. split; [reflexivity|]. split; [exact Hnd|].
  apply Forall_app in Hvalid as [_ Hvalid]. apply Forall_cons in Hvalid as [Hv _].
  unfold valid_pair in Hv. cbn [fst snd] in Hv.
  destruct Hoff as [[[Hin|Hin] ->]|[(_ & _ & -> & H0 & H1 & _)|(_ & _ & -> & H0 & H1 & _)]].
  - set_solver.
  - auto.
  - destruct Hv; [left; reflexivity|contradiction..].
  - destruct Hv; [right; reflexivity|contradiction..].
Qed.

Lemma duplicate_setting_rejected_witness :
  exists e,
    parseSettingsFrame 4 (mkstream [x0a; x01; x0a; x02] io.EOF)
    = (Err e, mkstream [] io.EOF) /\
    first_offence ∅ [(10, 1); (10, 2)] e /\
    (forall e', first_offence ∅ [(10, 1); (10, 2)] e' -> e' = e) /\
    (Forall valid_pair [(10, 1); (10, 2)] ->
     exists pre id val post,
       [(10, 1); (10, 2)] = pre ++ (id, val) :: post /\ NoDup pre.*1 /\
       (id ∈ pre.*1) /\ e = ErrDuplicateSetting id).
Proof.
  apply (duplicate_setting_rejected [x0a; x01; x0a; x02] [] [] [(10, 1); (10, 2)] io.EOF).
  - decode_by_reading.
  - intros Hnd. apply NoDup_cons in Hnd as [Hnin _]. apply Hnin. left.
  - simpl. lia.
Defined.

(** Which pair offends first: a repeated 0x8 gives the duplicate-setting
    error although its value is invalid too; an invalid value that comes
    before a repetition gives the invalid-value error; of two repetitions
    the earlier one gives the error. *)
Example first_offence_order :
  parseSettingsFrame 4 (mkstream [x08; x01; x08; x02] io.EOF)
  = (Err (ErrDuplicateSetting 8), mkstream [] io.EOF) /\
  parseSettingsFrame 6 (mkstream [x08; x02; x0a; x01; x0a; x01] io.EOF)
  = (Err (ErrInvalidExtendedConnect 2), mkstream [] io.EOF) /\
  parseSettingsFrame 8 (mkstream [x0a; x01; x0a; x01; x0b; x01; x0b; x01] io.EOF)
  = (Err (ErrDuplicateSetting 10), mkstream [] io.EOF).
Proof. split; [|split]; reflexivity. Qed.

(** C3 as stated fails.  The body [08 02 08 02] repeats identifier 0x8, and
    parsing it ends in the invalid-value error of its first pair, not in a
    duplicate-setting error.  A body of 8194 bytes that begins with
    [0a 01 0a 01] repeats identifier 0xa, and parsing it ends in the size
    error before anything is read. *)
Lemma duplicate_setting_counterexample :
  (decodes [x08; x02; x08; x02] [(8, 2); (8, 2)] [] /\
   ~ NoDup [(8, 2); (8, 2)].*1 /\
   parseSettingsFrame 4 (mkstream [x08; x02; x08; x02] io.EOF)
   = (Err (ErrInvalidExtendedConnect 2), mkstream [] io.EOF) /\
   forall id, ErrInvalidExtendedConnect 2 <> ErrDuplicateSetting id) /\
  (let buf := [x0a; x01; x0a; x01] ++ replicate (Z.to_nat 8190) x00 in
   decodes buf [(10, 1); (10, 1)] (replicate (Z.to_nat 8190) x00) /\
   ~ NoDup [(10, 1); (10, 1)].*1 /\
   parseSettingsFrame (Z.of_nat (length buf)) (mkstream buf io.EOF)
   = (Err (ErrSettingsSize 8194), mkstream buf io.EOF) /\
   forall id, ErrSettingsSize 8194 <> ErrDuplicateSetting id).
Proof.
  split.
  - split.
    { decode_by_reading. }
    split.
    { intros Hnd. apply NoDup_cons in Hnd as [Hnin _]. apply Hnin. left. }
    split; [reflexivity|]. intros id. discriminate.
  - cbv zeta. split.
    { decode_by_reading. }
    split.
    { intros Hnd. apply NoDup_cons in Hnd as [Hnin _]. apply Hnin. left. }
    split; [reflexivity|]. intros id. discriminate.
Qed.

(** ** The shape of a parsed [Other] *)

Lemma settings_switch_Other_ok (id val : Z) (st st' : settings_locals) (x : unit) :
  settings_switch id val st = (Ok x, st') ->
  Other_ok (frame_ st) -> Other_ok (frame_ st').
Proof.
  unfold settings_switch, bind, get, modify, fail, Other_ok, settingExtendedConnect,
    settingDatagram.
  intros Hsw (Hne & H8 & H51).
  destruct (Z.eqb_spec id 8) as [->|Hne8].
  { destruct (readExtendedConnect st); [discriminate|].
    destruct (negb (val =? 0) && negb (val =? 1)); [discriminate|].
    injection Hsw as _ <-. exact (conj Hne (conj H8 H51)). }
  destruct (Z.eqb_spec id 51) as [->|Hne51].
  { destruct (readDatagram st); [discriminate|].
    destruct (negb (val =? 0) && negb (val =? 1)); [discriminate|].
    injection Hsw as _ <-. exact (conj Hne (conj H8 H51)). }
  destruct (map_index (Other (frame_ st)) id); [discriminate|].
  injection Hsw as _ <-.
  cbn [frame_ set_frame set_Other Other map_index mbind option_bind].
  split_and!.
  - intros [= Hm]. exact (insert_non_empty _ _ _ Hm).
  - rewrite lookup_insert_ne by congruence.
    destruct (Other (frame_ st)); [exact H8|apply lookup_empty].
  - rewrite lookup_insert_ne by congruence.
    destruct (Other (frame_ st)); [exact H51|apply lookup_empty].
Qed.

Lemma settings_loop_Other_ok (st : settings_locals) (f : settingsFrame) :
  Other_ok (frame_ st) -> (settings_loop st).1 = Ok f -> Other_ok f.
Proof.
  intros Hst Hloop.
  assert (Hpost : match (settings_loop st).1 with
                  | Ok f => Other_ok f
                  | Err _ => True
                  end).
  { unfold settings_loop.
    apply (for_loop_invariant settings_body _ settings_body_decreases
             (fun st => Other_ok (frame_ st))
             (fun res => match res with Ok f => Other_ok f | Err _ => True end));
      [|exact Hst].
    clear. intros st Hst. unfold settings_body, bind, get, ret, on_b.
    destruct (negb (bytes_Len (b st) >? 0)); [exact Hst|].
    destruct (quicvarint.Read (b st)) as [[id|e] b1]; [|exact I].
    cbn [set_b b].
    destruct (quicvarint.Read b1) as [[val|e] b2]; [|exact I].
    destruct (settings_switch id val _) as [[[]|e] st2] eqn:E; [|exact I].
    apply settings_switch_Other_ok in E; [exact E|exact Hst]. }
  rewrite Hloop in Hpost. exact Hpost.
Qed.

Lemma settings_pairs_promoted (kvs : list (Z * Z)) (st st' : settings_locals) (x : unit) :
  Forall (fun kv => kv.1 = settingExtendedConnect \/ kv.1 = settingDatagram) kvs ->
  settings_pairs kvs st = (Ok x, st') ->
  Other (frame_ st') = Other (frame_ st).
Proof.
  revert st. induction kvs as [|[id val] kvs IH]; intros st Hall.
  - cbn. unfold ret. intros [= _ <-]. reflexivity.
  - apply Forall_cons in Hall as [Hid Hall]. cbn [fst] in Hid.
    cbn [settings_pairs]. unfold bind.
    destruct (settings_switch id val st) as [[[]|e] st1] eqn:E; [|discriminate].
    intros Hp. rewrite (IH _ Hall Hp). clear Hp IH.
    unfold settings_switch, bind, get, modify, fail, settingExtendedConnect,
      settingDatagram in *.
    destruct Hid as [-> | ->]; cbn [Z.eqb Pos.eqb] in E.
    + destruct (readExtendedConnect st); [discriminate|].
      destruct (negb (val =? 0) && negb (val =? 1)); [discriminate|].
      injection E as <-. reflexivity.
    + destruct (readDatagram st); [discriminate|].
      destruct (negb (val =? 0) && negb (val =? 1)); [discriminate|].
      injection E as <-. reflexivity.
Qed.

Lemma range_of_empty (m : option (gmap Z Z)) (kvs : list (Z * Z)) :
  default ∅ m = ∅ -> range_of m kvs -> kvs = [].
Proof.
  unfold range_of. intros ->. rewrite map_to_list_empty.
  apply Permutation_nil_r.
Qed.

(** C10: a successfully parsed SETTINGS frame has an [Other] that is nil or
    non-empty, never an allocated empty map, and that holds neither 0x8 nor
    0x33; when the body has no identifiers but 0x8 and 0x33, [Other] is nil.
    The encoder ranges over a nil map and over an empty map alike: it
    writes the same bytes for both. *)
Theorem parsed_Other_nil_or_nonempty (l : Z) (s s' : stream) (f : settingsFrame) :
  parseSettingsFrame l s = (Ok f, s') ->
  Other f <> Some ∅ /\
  map_index (Other f) settingExtendedConnect = None /\
  map_index (Other f) settingDatagram = None /\
  (forall kvs,
     decodes (take (Z.to_nat l) (data s)) kvs [] ->
     Forall (fun kv => kv.1 = settingExtendedConnect \/ kv.1 = settingDatagram) kvs ->
     Other f = None) /\
  (forall dg ec range1 range2 range1' range2' out,
     range_of None range1 -> range_of None range2 ->
     range_of (Some ∅) range1' -> range_of (Some ∅) range2' ->
     settingsFrame_Append range1 range2
       {| Datagram := dg; ExtendedConnect := ec; Other := None |} out
     = settingsFrame_Append range1' range2'
       {| Datagram := dg; ExtendedConnect := ec; Other := Some ∅ |} out).
Proof.
  unfold parseSettingsFrame.
  destruct (l >? 8 * Z.shiftl 1 10); [discriminate|].
  unfold io_ops.ReadFull.
  destruct (Z.to_nat l <=? length (data s))%nat.
  2:{ destruct (data s); destruct (final s); discriminate. }
  intros [= Hloop _].
  pose proof (settings_loop_Other_ok (settings_start (take (Z.to_nat l) (data s))) f)
    as (Hne & H8 & H51).
  { split; [discriminate|]. split; reflexivity. }
  { exact Hloop. }
  split; [exact Hne|]. split; [exact H8|]. split; [exact H51|]. split.
  - intros kvs Hd Hall.
    rewrite (settings_loop_decodes _ _ _ Hd) in Hloop by reflexivity.
    destruct (settings_pairs kvs _) as [[[]|e] st'] eqn:E; [|discriminate].
    rewrite settings_loop_done in Hloop by reflexivity. cbn in Hloop.
    injection Hloop as <-.
    apply (settings_pairs_promoted _ _ _ _ Hall E).
  - intros dg ec r1 r2 r1' r2' out H1 H2 H1' H2'.
    apply range_of_empty in H1, H2, H1', H2'; try reflexivity. subst. reflexivity.
Qed.

Lemma parsed_Other_nil_or_nonempty_witness :
  Other {| Datagram := true; ExtendedConnect := false; Other := None |} <> Some ∅ /\
  map_index None settingExtendedConnect = None /\
  map_index None settingDatagram = None /\
  (forall kvs,
     decodes (take (Z.to_nat 4) [x33; x01; x08; x00]) kvs [] ->
     Forall (fun kv => kv.1 = settingExtendedConnect \/ kv.1 = settingDatagram) kvs ->
     @None (gmap Z Z) = None) /\
  (forall dg ec range1 range2 range1' range2' out,
     range_of None range1 -> range_of None range2 ->
     range_of (Some ∅) range1' -> range_of (Some ∅) range2' ->
     settingsFrame_Append range1 range2
       {| Datagram := dg; ExtendedConnect := ec; Other := None |} out
     = settingsFrame_Append range1' range2'
       {| Datagram := dg; ExtendedConnect := ec; Other := Some ∅ |} out).
Proof.
  apply (parsed_Other_nil_or_nonempty 4 (mkstream [x33; x01; x08; x00] io.EOF)
           (mkstream [] io.EOF)
           {| Datagram := true; ExtendedConnect := false; Other := None |}).
  reflexivity.
Defined.

(** ** Encoding SETTINGS *)

Lemma Len_Some (x n : Z) : quicvarint.Len x = Some n -> x <= quicvarint.maxVarInt8.
Proof.
  unfold quicvarint.Len, quicvarint.maxVarInt1, quicvarint.maxVarInt2,
    quicvarint.maxVarInt4, quicvarint.maxVarInt8.
  repeat match goal with |- context [Z.leb ?a ?c] => destruct (Z.leb_spec a c) end;
    intros [=]; lia.
Qed.

Lemma range_Len_Some (kvs : list (Z * Z)) (l n : Z) :
  range_Len kvs l = Some n ->
  Forall (fun kv => kv.1 <= quicvarint.maxVarInt8 /\ kv.2 <= quicvarint.maxVarInt8) kvs.
Proof.
  revert l. induction kvs as [|[id val] kvs IH]; intros l; [constructor|].
  cbn [range_Len].
  destruct (quicvarint.Len id) as [a|] eqn:Ea; [|discriminate].
  destruct (quicvarint.Len val) as [c|] eqn:Ec; [|discriminate].
  cbn. intros Hl. constructor; [|exact (IH _ Hl)].
  split; eapply Len_Some; eassumption.
Qed.

(** The length is the same for every order of the entries. *)
Lemma range_Len_perm (kvs1 kvs2 : list (Z * Z)) :
  kvs1 ≡ₚ kvs2 -> forall l, range_Len kvs1 l = range_Len kvs2 l.
Proof.
  induction 1 as [|[id val] k1 k2 _ IH|[id1 val1] [id2 val2] k|k1 k2 k3 _ IH1 _ IH2];
    intros l.
  - reflexivity.
  - cbn [range_Len]. destruct (quicvarint.Len id), (quicvarint.Len val); cbn; auto.
  - cbn [range_Len].
    destruct (quicvarint.Len id1), (quicvarint.Len val1), (quicvarint.Len id2),
      (quicvarint.Len val2); cbn; try reflexivity.
    f_equal. lia.
  - rewrite IH1. apply IH2.
Qed.

(** Appending pairs that fit writes bytes that decode to the same pairs;
    [range_Len] is the number of these bytes. *)
Lemma range_Append_decodes (kvs : list (Z * Z)) :
  Forall (fun kv => 0 <= kv.1 <= quicvarint.maxVarInt8 /\
                    0 <= kv.2 <= quicvarint.maxVarInt8) kvs ->
  exists enc,
    (forall out, range_Append kvs out = Some (out ++ enc)) /\
    (forall l, range_Len kvs l = Some (l + Z.of_nat (length enc))) /\
    forall tl, decodes (enc ++ tl) kvs tl.
Proof.
  induction 1 as [|[id val] kvs [Hid Hval] _ (e3 & Ha3 & Hl3 & Hd3)].
  - exists []. split; [intros out; by rewrite app_nil_r|].
    split; [intros l; cbn; f_equal; lia|]. intros tl. constructor.
  - cbn [fst snd] in *.
    destruct (Read_Append id Hid) as (e1 & Ha1 & Hl1 & Hr1).
    destruct (Read_Append val Hval) as (e2 & Ha2 & Hl2 & Hr2).
    exists (e1 ++ e2 ++ e3). split_and!.
    + intros out. cbn [range_Append]. rewrite Ha1. cbn. rewrite Ha2. cbn.
      rewrite Ha3. by rewrite <- !(assoc_L (++)).
    + intros l. cbn [range_Len]. rewrite Hl1. cbn. rewrite Hl2. cbn.
      rewrite Hl3. f_equal. rewrite !length_app. lia.
    + intros tl. eapply decodes_cons.
      * unfold bytes_NewReader. rewrite <- (assoc_L (++)). apply Hr1.
      * rewrite <- (assoc_L (++)). apply Hr2.
      * apply Hd3.
Qed.

(** ** Parsing what was encoded *)

Lemma insert_pairs_map (kvs : list (Z * Z)) (o : option (gmap Z Z)) :
  default ∅ (insert_pairs o kvs) = list_to_map (reverse kvs) ∪ default ∅ o.
Proof.
  revert o. induction kvs as [|[k v] kvs IH]; intros o.
  - cbn. rewrite (left_id_L ∅ (∪)). reflexivity.
  - cbn [insert_pairs foldl]. fold (insert_pairs (Some (<[k:=v]> (default ∅ o))) kvs).
    rewrite IH. cbn [default fst snd]. rewrite reverse_cons, list_to_map_app.
    cbn [list_to_map foldr fst snd uncurry]. rewrite insert_empty.
    rewrite <- (assoc_L (∪)). rewrite <- insert_union_singleton_l. reflexivity.
Qed.

Lemma insert_pairs_None (kvs : list (Z * Z)) (o : option (gmap Z Z)) :
  insert_pairs o kvs = None -> kvs = [] /\ o = None.
Proof.
  revert o. induction kvs as [|[k v] kvs IH]; intros o; [auto|].
  cbn [insert_pairs foldl]. intros Hn. apply IH in Hn as [_ [=]].
Qed.

Lemma settings_pairs_insert (kvs : list (Z * Z)) :
  forall st,
    NoDup kvs.*1 ->
    (forall k, k ∈ kvs.*1 ->
       k <> settingExtendedConnect /\ k <> settingDatagram /\
       map_index (Other (frame_ st)) k = None) ->
    exists st',
      settings_pairs kvs st = (Ok tt, st') /\
      Datagram (frame_ st') = Datagram (frame_ st) /\
      ExtendedConnect (frame_ st') = ExtendedConnect (frame_ st) /\
      Other (frame_ st') = insert_pairs (Other (frame_ st)) kvs.
Proof.
  induction kvs as [|[id val] kvs IH]; intros st Hnd Hfresh.
  - exists st. auto.
  - cbn [fmap list_fmap fst] in Hnd. apply NoDup_cons in Hnd as [Hnin Hnd].
    destruct (Hfresh id) as (H8 & H51 & Hnone); [left|].
    cbn [settings_pairs]. unfold bind at 1.
    assert (Hsw : settings_switch id val st = (Ok tt, set_frame (set_Other id val) st)).
    { unfold settings_switch, bind, get, modify.
      unfold settingExtendedConnect, settingDatagram in *.
      destruct (Z.eqb_spec id 8); [contradiction|].
      destruct (Z.eqb_spec id 51); [contradiction|].
      rewrite Hnone. reflexivity. }
    rewrite Hsw.
    destruct (IH (set_frame (set_Other id val) st) Hnd) as (st' & Hp & Hdg & Hec & Ho).
    { intros k Hk. destruct (Hfresh k) as (Hk8 & Hk51 & Hkn); [right; exact Hk|].
      split; [exact Hk8|]. split; [exact Hk51|].
      cbn [frame_ set_frame set_Other Other map_index mbind option_bind].
      rewrite lookup_insert_ne by (intros ->; contradiction).
      destruct (Other (frame_ st)); [exact Hkn|apply lookup_empty]. }
    exists st'. split; [exact Hp|]. split; [exact Hdg|]. split; [exact Hec|].
    rewrite Ho. reflexivity.
Qed.

Section DispatcherSettings.
Context {H : Type}.

Lemma ParseNext_settings (p : frameParser H) (l : Z) (s1 s2 : stream) :
  quicvarint.Read (r p) = (Ok 0x4, s1) ->
  quicvarint.Read s1 = (Ok l, s2) ->
  ParseNext p = let (x, s3) := parseSettingsFrame l s2 in
                (match x with Ok f => Ok (FSettings f) | Err e => Err e end,
                 set_r s3 p).
Proof.
  intros Et El. rewrite ParseNext_eq, (ParseNext_body_type _ _ _ Et).
  unfold after_type, bind at 1. cbn [Z.gtb Z.compare Pos.compare Pos.compare_cont].
  unfold ret at 1. unfold bind at 1.
  rewrite (Read_parser (set_r s1 p) s2 (Ok l)) by exact El.
  cbn [Z.eqb Pos.eqb]. unfold bind, on_r. cbn [r set_r].
  destruct (parseSettingsFrame l s2) as [[f|e] s3]; reflexivity.
Qed.
End DispatcherSettings.

Lemma insert_pairs_range (o : option (gmap Z Z)) (kvs : list (Z * Z)) :
  range_of o kvs -> insert_pairs None kvs = nil_if_empty o.
Proof.
  unfold range_of. intros Hperm.
  assert (Hm : default ∅ (insert_pairs None kvs) = default ∅ o).
  { rewrite insert_pairs_map. simpl. rewrite (right_id_L ∅ (∪)).
    rewrite <- (list_to_map_to_list (default ∅ o)).
    apply list_to_map_proper.
    - rewrite reverse_Permutation, Hperm. apply NoDup_fst_map_to_list.
    - rewrite reverse_Permutation. exact Hperm. }
  destruct (insert_pairs None kvs) as [m'|] eqn:E.
  - simpl in Hm. subst m'.
    assert (Hne : kvs <> []).
    { intros ->. discriminate E. }
    destruct o as [m|]; simpl in *.
    + destruct (decide (m = ∅)) as [->|_]; [|reflexivity].
      rewrite map_to_list_empty in Hperm. apply Permutation_nil_r in Hperm. contradiction.
    + rewrite map_to_list_empty in Hperm. apply Permutation_nil_r in Hperm. contradiction.
  - apply insert_pairs_None in E as [-> _].
    symmetry in Hperm. apply Permutation_nil_r in Hperm.
    apply map_to_list_empty_iff in Hperm.
    destruct o as [m|]; simpl in *; [|reflexivity].
    subst m. destruct (decide (∅ = ∅)); [reflexivity|contradiction].
Qed.

Lemma Append_0x4 (out : list byte) : quicvarint.Append out 0x4 = Some (out ++ [x04]).
Proof. reflexivity. Qed.
Lemma Append_0x33 (out : list byte) :
  quicvarint.Append out settingDatagram = Some (out ++ [x33]).
Proof. reflexivity. Qed.
Lemma Append_0x8 (out : list byte) :
  quicvarint.Append out settingExtendedConnect = Some (out ++ [x08]).
Proof. reflexivity. Qed.
Lemma Append_0x1 (out : list byte) : quicvarint.Append out 1 = Some (out ++ [x01]).
Proof. reflexivity. Qed.

(** The bytes of the encoder: type, length, the enabled flags, the entries. *)
Lemma settingsFrame_Append_eq (f : settingsFrame) (range1 range2 : list (Z * Z))
    (n : Z) (out : list byte) :
  range_Len range1 0 = Some n ->
  settingsFrame_Append range1 range2 f out
  = (out' ← quicvarint.Append (out ++ [x04])
               (uint64 (n + (if Datagram f then 2 else 0)
                          + (if ExtendedConnect f then 2 else 0)));
     range_Append range2
       (out' ++ (if Datagram f then [x33; x01] else [])
             ++ (if ExtendedConnect f then [x08; x01] else []))).
Proof.
  intros Hn. unfold settingsFrame_Append. rewrite Append_0x4, Hn.
  cbn [mbind option_bind].
  destruct (Datagram f), (ExtendedConnect f); cbn [mbind option_bind quicvarint.Len
    settingDatagram settingExtendedConnect Z.leb Z.compare Pos.compare
    Pos.compare_cont quicvarint.maxVarInt1].
  all: rewrite ?Z.add_0_r; change (1 + 1) with 2; rewrite <- ?Z.add_assoc;
    change (2 + 2) with 4.
  all: destruct (quicvarint.Append (out ++ [x04]) _) as [out'|]; [|reflexivity].
  all: cbn [mbind option_bind];
    rewrite ?Append_0x33; cbn [mbind option_bind];
    rewrite ?Append_0x1; cbn [mbind option_bind];
    rewrite ?Append_0x8; cbn [mbind option_bind];
    rewrite ?Append_0x1; cbn [mbind option_bind].
  all: repeat rewrite <- (assoc_L (++)); cbn [app]; rewrite ?app_nil_r; reflexivity.
Qed.

Lemma settings_pairs_flags (dg ec : bool) (kvs : list (Z * Z)) (buf : list byte) :
  settings_pairs ((if dg then [(settingDatagram, 1)] else []) ++
                  (if ec then [(settingExtendedConnect, 1)] else []) ++ kvs)
                 (settings_start buf)
  = settings_pairs kvs
      {| b := bytes_NewReader buf;
         frame_ := {| Datagram := dg; ExtendedConnect := ec; Other := None |};
         readDatagram := dg; readExtendedConnect := ec |}.
Proof. destruct dg, ec; reflexivity. Qed.

Lemma decodes_flags (dg ec : bool) (kvs : list (Z * Z)) (enc tl : list byte) :
  decodes enc kvs tl ->
  decodes ((if dg then [x33; x01] else []) ++ (if ec then [x08; x01] else []) ++ enc)
          ((if dg then [(settingDatagram, 1)] else []) ++
           (if ec then [(settingExtendedConnect, 1)] else []) ++ kvs) tl.
Proof.
  intros Hd. destruct dg, ec; cbn [app]; try exact Hd;
    repeat (eapply decodes_cons; [reflexivity|reflexivity|]); exact Hd.
Qed.

(** C4, as amended: let [f] be a settings frame whose [Other] holds
    neither 0x8 nor 0x33 and only non-negative identifiers and values, let
    the encoder's first loop find a length [n] (no identifier or value is
    above 2^62 - 1, so nothing panics), and let the body length [l], which is
    [n] plus two bytes for each enabled flag, be at most 8192.  Then for
    every order in which the two loops of the encoder visit [Other], the
    encoder writes the type 0x4, the length [l] and a body of [l] bytes, and
    parsing that body with declared length [l] gives back the same two flags
    and the same entries of [Other], an empty [Other] coming back as nil;
    [ParseNext] on the encoded bytes returns that frame and stops right
    behind it. *)
Theorem settings_roundtrip (f : settingsFrame) (range1 range2 : list (Z * Z)) (n : Z) :
  range_of (Other f) range1 ->
  range_of (Other f) range2 ->
  (forall k v, map_index (Other f) k = Some v ->
     k <> settingExtendedConnect /\ k <> settingDatagram /\ 0 <= k /\ 0 <= v) ->
  range_Len range1 0 = Some n ->
  n + (if Datagram f then 2 else 0) + (if ExtendedConnect f then 2 else 0) <= 8192 ->
  let l := n + (if Datagram f then 2 else 0) + (if ExtendedConnect f then 2 else 0) in
  let f' := {| Datagram := Datagram f; ExtendedConnect := ExtendedConnect f;
               Other := nil_if_empty (Other f) |} in
  exists hdr body,
    (out ← quicvarint.Append [] 0x4; quicvarint.Append out l) = Some hdr /\
    Z.of_nat (length body) = l /\
    settingsFrame_Append range1 range2 f [] = Some (hdr ++ body) /\
    forall more fin,
      parseSettingsFrame l (mkstream (body ++ more) fin) = (Ok f', mkstream more fin) /\
      forall (H : Type) (p : frameParser H),
        r p = mkstream (hdr ++ body ++ more) fin ->
        ParseNext p = (Ok (FSettings f'), set_r (mkstream more fin) p).
Proof.
  intros Hr1 Hr2 Hkeys Hn Hl l f'.
  assert (Hperm : range1 ≡ₚ range2) by (unfold range_of in *; rewrite Hr1, Hr2; done).
  assert (Hentry : forall k v, (k, v) ∈ range2 -> map_index (Other f) k = Some v).
  { intros k v Hin. unfold range_of in Hr2. rewrite Hr2 in Hin.
    apply elem_of_map_to_list in Hin.
    destruct (Other f) as [m|]; [exact Hin|]. simpl in Hin.
    rewrite lookup_empty in Hin. discriminate. }
  assert (Hfit : Forall (fun kv => 0 <= kv.1 <= quicvarint.maxVarInt8 /\
                                   0 <= kv.2 <= quicvarint.maxVarInt8) range2).
  { pose proof (range_Len_Some _ _ _ Hn) as Hmax. rewrite Hperm in Hmax.
    rewrite Forall_forall in Hmax |- *. intros [k v] Hin.
    specialize (Hmax _ Hin). cbn [fst snd] in *.
    apply Hentry, Hkeys in Hin. lia. }
  assert (Hfresh : forall k, k ∈ range2.*1 ->
            k <> settingExtendedConnect /\ k <> settingDatagram).
  { intros k Hk. apply list_elem_of_fmap in Hk as ([k' v] & -> & Hin). cbn [fst].
    apply Hentry, Hkeys in Hin. tauto. }
  assert (Hnd : NoDup range2.*1).
  { unfold range_of in Hr2. rewrite Hr2. apply NoDup_fst_map_to_list. }
  destruct (range_Append_decodes range2 Hfit) as (enc & Happ & Hlen & Hdec).
  specialize (Hlen 0). rewrite <- (range_Len_perm _ _ Hperm), Hn in Hlen.
  injection Hlen as Hlen.
  set (prebytes := (if Datagram f then [x33; x01] else []) ++
                   (if ExtendedConnect f then [x08; x01] else [])).
  assert (Hbody : Z.of_nat (length (prebytes ++ enc)) = l).
  { rewrite length_app. subst l prebytes.
    destruct (Datagram f), (ExtendedConnect f); cbn [length app]; lia. }
  assert (Hl0 : 0 <= l <= quicvarint.maxVarInt8)
    by (unfold quicvarint.maxVarInt8; lia).
  destruct (Read_Append l Hl0) as (lenc & Hlapp & _ & Hlread).
  exists ([x04] ++ lenc), (prebytes ++ enc).
  split; [rewrite Append_0x4; cbn [mbind option_bind app]; apply Hlapp|].
  split; [exact Hbody|]. split.
  { rewrite (settingsFrame_Append_eq _ _ _ _ _ Hn). fold l.
    replace (uint64 l) with l
      by (unfold uint64, quicvarint.maxVarInt8 in *; rewrite Z.mod_small; lia).
    rewrite Hlapp. cbn [mbind option_bind]. rewrite Happ.
    subst prebytes. f_equal. cbn [app]. by rewrite <- !(assoc_L (++)). }
  intros more fin.
  assert (Hparse : parseSettingsFrame l (mkstream ((prebytes ++ enc) ++ more) fin)
                   = (Ok f', mkstream more fin)).
  { rewrite <- Hbody.
    assert (Hd : decodes (prebytes ++ enc)
                   ((if Datagram f then [(settingDatagram, 1)] else []) ++
                    (if ExtendedConnect f then [(settingExtendedConnect, 1)] else []) ++
                    range2) []).
    { subst prebytes. rewrite <- (assoc_L (++)). apply decodes_flags.
      specialize (Hdec []). rewrite app_nil_r in Hdec. exact Hdec. }
    rewrite (parseSettingsFrame_decodes _ _ _ _ _ Hd) by lia.
    rewrite settings_pairs_flags.
    match goal with |- context [settings_pairs range2 ?st] =>
      destruct (settings_pairs_insert range2 st Hnd) as (st' & -> & Hdg & Hec & Ho) end.
    { intros k Hk. destruct (Hfresh k Hk) as [H8 H51]. auto. }
    rewrite settings_loop_done by reflexivity. cbn [fst set_b frame_].
    cbn [frame_ Datagram ExtendedConnect Other] in Hdg, Hec, Ho.
    rewrite (insert_pairs_range _ _ Hr2) in Ho.
    subst f'. destruct (frame_ st') as [dg' ec' o']. cbn in Hdg, Hec, Ho. by subst. }
  split; [exact Hparse|].
  intros H p Hp.
  rewrite (ParseNext_settings p l (mkstream (lenc ++ (prebytes ++ enc) ++ more) fin)
             (mkstream ((prebytes ++ enc) ++ more) fin)).
  - rewrite Hparse. reflexivity.
  - rewrite Hp. reflexivity.
  - apply Hlread.
Qed.

Lemma settings_roundtrip_witness :
  let f := {| Datagram := true; ExtendedConnect := false;
              Other := Some {[ 13 := 37; 0xdead := 0xbeef ]} |} in
  let f' := {| Datagram := true; ExtendedConnect := false;
               Other := nil_if_empty (Some {[ 13 := 37; 0xdead := 0xbeef ]}) |} in
  exists hdr body,
    (out ← quicvarint.Append [] 0x4; quicvarint.Append out 12) = Some hdr /\
    Z.of_nat (length body) = 12 /\
    settingsFrame_Append [(13, 37); (0xdead, 0xbeef)] [(0xdead, 0xbeef); (13, 37)] f []
    = Some (hdr ++ body) /\
    forall more fin,
      parseSettingsFrame 12 (mkstream (body ++ more) fin) = (Ok f', mkstream more fin) /\
      forall (H : Type) (p : frameParser H),
        r p = mkstream (hdr ++ body ++ more) fin ->
        ParseNext p = (Ok (FSettings f'), set_r (mkstream more fin) p).
Proof.
  apply (settings_roundtrip
           {| Datagram := true; ExtendedConnect := false;
              Other := Some {[ 13 := 37; 0xdead := 0xbeef ]} |}
           [(13, 37); (0xdead, 0xbeef)] [(0xdead, 0xbeef); (13, 37)] 10).
  - unfold range_of. vm_compute. apply Permutation_swap.
  - unfold range_of. vm_compute. reflexivity.
  - intros k v Hkv. cbn in Hkv.
    apply lookup_insert_Some in Hkv as [[<- <-]|[_ Hkv]].
    + unfold settingExtendedConnect, settingDatagram. lia.
    + apply lookup_singleton_Some in Hkv as [<- <-].
      unfold settingExtendedConnect, settingDatagram. lia.
  - reflexivity.
  - simpl. lia.
Defined.

(** C4 as stated fails.  A frame with 513 entries of sixteen bytes each,
    none for 0x8 or 0x33, is encoded with a body of 8208 bytes, and parsing
    that body is refused for its size.  A frame with the entry 2^62 cannot be
    encoded: [quicvarint.Append] panics.  A frame whose [Other] is an
    allocated empty map is encoded as [04 00] and parsed back with a nil
    [Other]. *)
Lemma settings_roundtrip_counterexample :
  (let m : gmap Z Z :=
     list_to_map ((fun i => (2 ^ 30 + Z.of_nat i, 2 ^ 30)) <$> seq 0 513) in
   let f := {| Datagram := false; ExtendedConnect := false; Other := Some m |} in
   map_index (Other f) settingExtendedConnect = None /\
   map_index (Other f) settingDatagram = None /\
   range_of (Other f) (map_to_list m) /\
   exists body,
     settingsFrame_Append (map_to_list m) (map_to_list m) f []
     = Some ([x04; x60; x10] ++ body) /\
     Z.of_nat (length body) = 8208 /\
     parseSettingsFrame 8208 (mkstream body io.EOF)
     = (Err (ErrSettingsSize 8208), mkstream body io.EOF)) /\
  (let f := {| Datagram := false; ExtendedConnect := false;
               Other := Some {[ 2 ^ 62 := 0 ]} |} in
   range_of (Other f) [(2 ^ 62, 0)] /\
   settingsFrame_Append [(2 ^ 62, 0)] [(2 ^ 62, 0)] f [] = None) /\
  (let f := {| Datagram := false; ExtendedConnect := false; Other := Some ∅ |} in
   range_of (Other f) [] /\
   settingsFrame_Append [] [] f [] = Some [x04; x00] /\
   parseSettingsFrame 0 (mkstream [] io.EOF)
   = (Ok {| Datagram := false; ExtendedConnect := false; Other := None |},
      mkstream [] io.EOF) /\
   {| Datagram := false; ExtendedConnect := false; Other := None |} <> f).
Proof.
  split; [|split].
  - intros m f.
    split; [vm_compute; reflexivity|]. split; [vm_compute; reflexivity|].
    split; [unfold range_of; reflexivity|].
    exists (drop 3 (default [] (settingsFrame_Append (map_to_list m) (map_to_list m) f []))).
    split; [vm_compute; reflexivity|]. split; [vm_compute; reflexivity|].
    reflexivity.
  - cbv zeta. split; [|reflexivity].
    unfold range_of. cbn [Other]. simpl. rewrite map_to_list_singleton. reflexivity.
  - cbv zeta. split.
    { unfold range_of. cbn [Other]. simpl. rewrite map_to_list_empty. reflexivity. }
    split; [reflexivity|]. split; [reflexivity|]. discriminate.
Qed.

(** C6: a SETTINGS frame that declares more than 8192 bytes is refused with
    the size error before anything is read: the reader is where it was,
    right behind the length field when [ParseNext] did the parsing. *)
Theorem oversized_settings_rejected (l : Z) :
  l > 8192 ->
  (forall s, parseSettingsFrame l s = (Err (ErrSettingsSize l), s)) /\
  (forall (H : Type) (p : frameParser H) (s1 s2 : stream),
     quicvarint.Read (r p) = (Ok 0x4, s1) ->
     quicvarint.Read s1 = (Ok l, s2) ->
     ParseNext p = (Err (ErrSettingsSize l), set_r s2 p)).
Proof.
  intros Hl.
  assert (Hparse : forall s, parseSettingsFrame l s = (Err (ErrSettingsSize l), s)).
  { intros s. unfold parseSettingsFrame. change (8 * Z.shiftl 1 10) with 8192.
    destruct (Z.gtb_spec l 8192); [reflexivity|lia]. }
  split; [exact Hparse|]. intros H p s1 s2 Et El.
  rewrite (ParseNext_settings p l s1 s2 Et El), Hparse. reflexivity.
Qed.

Lemma oversized_settings_rejected_witness :
  (forall s, parseSettingsFrame 8193 s = (Err (ErrSettingsSize 8193), s)) /\
  (forall (H : Type) (p : frameParser H) (s1 s2 : stream),
     quicvarint.Read (r p) = (Ok 0x4, s1) ->
     quicvarint.Read s1 = (Ok 8193, s2) ->
     ParseNext p = (Err (ErrSettingsSize 8193), set_r s2 p)).
Proof. apply (oversized_settings_rejected 8193). lia. Defined.

Example oversized_settings_frame :
  ParseNext {| r := mkstream [x04; x60; x01; x08; x01] io.EOF; closeConn_calls := [];
               unknownFrameHandler := None; handler_state := tt |}
  = (Err (ErrSettingsSize 8193),
     {| r := mkstream [x08; x01] io.EOF; closeConn_calls := [];
        unknownFrameHandler := None; handler_state := tt |}).
Proof. reflexivity. Qed.

(** C8: when the declared length is within the ceiling of 8192, the ceiling
    itself included, and the stream ends before that many bytes have come,
    parsing a SETTINGS frame fails with [io.EOF], also where [io.ReadFull]
    reports [io.ErrUnexpectedEOF]; the bytes that were there are consumed. *)
Theorem truncated_settings_is_EOF (l : Z) (s : stream) :
  0 <= l <= 8192 ->
  Z.of_nat (length (data s)) < l ->
  final s = io.EOF ->
  parseSettingsFrame l s = (Err (ErrIO io.EOF), mkstream [] io.EOF) /\
  (data s <> [] ->
   (io_ops.ReadFull (Z.to_nat l) s).1 = Err (ErrIO io.ErrUnexpectedEOF)) /\
  (forall (H : Type) (p : frameParser H) (s0 : stream),
     quicvarint.Read (r p) = (Ok 0x4, s0) ->
     quicvarint.Read s0 = (Ok l, s) ->
     ParseNext p = (Err (ErrIO io.EOF), set_r (mkstream [] io.EOF) p)).
Proof.
  intros Hl Hshort Hfin.
  assert (Hfull : io_ops.ReadFull (Z.to_nat l) s
                  = (Err (ErrIO (if decide (data s = []) then io.EOF
                                 else io.ErrUnexpectedEOF)), mkstream [] io.EOF)).
  { unfold io_ops.ReadFull.
    destruct (Nat.leb_spec (Z.to_nat l) (length (data s))); [lia|].
    destruct s as [[|x d] f]; cbn in *; subst f; reflexivity. }
  assert (Hparse : parseSettingsFrame l s = (Err (ErrIO io.EOF), mkstream [] io.EOF)).
  { unfold parseSettingsFrame. change (8 * Z.shiftl 1 10) with 8192.
    destruct (Z.gtb_spec l 8192); [lia|]. rewrite Hfull.
    destruct (decide (data s = [])); reflexivity. }
  split; [exact Hparse|]. split.
  - intros Hne. rewrite Hfull. destruct (decide (data s = [])); [contradiction|reflexivity].
  - intros H p s0 Et El.
    rewrite (ParseNext_settings p l s0 s Et El), Hparse. reflexivity.
Qed.

Lemma truncated_settings_is_EOF_witness :
  parseSettingsFrame 8192 (mkstream [x08; x01; x33] io.EOF)
  = (Err (ErrIO io.EOF), mkstream [] io.EOF) /\
  (data (mkstream [x08; x01; x33] io.EOF) <> [] ->
   (io_ops.ReadFull (Z.to_nat 8192) (mkstream [x08; x01; x33] io.EOF)).1
   = Err (ErrIO io.ErrUnexpectedEOF)) /\
  (forall (H : Type) (p : frameParser H) (s0 : stream),
     quicvarint.Read (r p) = (Ok 0x4, s0) ->
     quicvarint.Read s0 = (Ok 8192, mkstream [x08; x01; x33] io.EOF) ->
     ParseNext p = (Err (ErrIO io.EOF), set_r (mkstream [] io.EOF) p)).
Proof.
  apply (truncated_settings_is_EOF 8192 (mkstream [x08; x01; x33] io.EOF)).
  - lia.
  - simpl. lia.
  - reflexivity.
Defined.

(** ** GOAWAY *)

Lemma goaway_read_error {R} `{ByteReader R} `{!Remaining R} (l : Z) (r0 r1 : R)
    (e : error) :
  quicvarint.Read r0 = (Err e, r1) -> parseGoAwayFrame l r0 = (Err e, r1).
Proof.
  intros E. unfold parseGoAwayFrame. rewrite Read_counting, E. reflexivity.
Qed.

(** C5, as amended: [parseGoAwayFrame] reads one variable-length integer
    through the counting reader, and the count is the number of bytes the
    read took from the reader, whether the read succeeds or fails.  When
    the read fails, the parse fails with the read error, whatever the count
    and the declared length [l] are.  When the read succeeds, the parse
    fails with the inconsistent-length error exactly when the count differs
    from [l], and otherwise returns the integer as the stream identifier.
    In every case the reader is left where the read left it. *)
Theorem goaway_length_cross_check {R} `{Remaining R} (l : Z) (r0 r1 : R)
    (x : result Z) :
  0 <= l < 2 ^ 64 ->
  quicvarint.Read r0 = (x, r1) ->
  let count := Z.of_nat (remaining r0 - remaining r1) in
  (quicvarint.Read {| inner := r0; Read := 0 |}
   = (x, {| inner := r1; Read := count |})) /\
  parseGoAwayFrame l r0
  = (match x with
     | Err e => Err e
     | Ok id => if decide (count = l) then Ok {| StreamID := id |}
                else Err ErrGoAwayLength
     end, r1) /\
  (forall id, x = Ok id ->
     (parseGoAwayFrame l r0 = (Err ErrGoAwayLength, r1) <-> count <> l) /\
     (count = l -> parseGoAwayFrame l r0 = (Ok {| StreamID := id |}, r1))).
Proof.
  intros Hl E count. subst count.
  assert (Hcount : quicvarint.Read {| inner := r0; Read := 0 |}
                   = (x, {| inner := r1;
                            Read := Z.of_nat (remaining r0 - remaining r1) |})).
  { rewrite Read_counting, E. rewrite Z.add_0_l. reflexivity. }
  assert (Hparse : parseGoAwayFrame l r0
                   = (match x with
                      | Err e => Err e
                      | Ok id =>
                          if decide (Z.of_nat (remaining r0 - remaining r1) = l)
                          then Ok {| StreamID := id |} else Err ErrGoAwayLength
                      end, r1)).
  { unfold parseGoAwayFrame. rewrite Hcount. cbn [Read inner].
    destruct x as [id|e]; [|reflexivity].
    apply Read_Ok in E as (w & Hw & Hrem & Hid). rewrite (int64_small id Hid).
    assert (Hint : Z.of_nat (remaining r0 - remaining r1) = int l <->
                   Z.of_nat (remaining r0 - remaining r1) = l).
    { unfold int, int64. destruct (Z.ltb_spec l (2 ^ 63)); lia. }
    destruct (Z.eqb_spec (Z.of_nat (remaining r0 - remaining r1)) (int l));
      cbn [negb]; destruct (decide (Z.of_nat (remaining r0 - remaining r1) = l));
      first [reflexivity|tauto]. }
  split; [exact Hcount|]. split; [exact Hparse|].
  intros id ->. rewrite Hparse.
  destruct (decide (Z.of_nat (remaining r0 - remaining r1) = l)) as [Heq|Hne].
  - split; [split; [discriminate|contradiction]|reflexivity].
  - split; [split; [auto|reflexivity]|contradiction].
Qed.

Lemma goaway_length_cross_check_witness :
  (quicvarint.Read {| inner := mkstream [x40; x05; x00] io.EOF; Read := 0 |}
   = (Ok 5, {| inner := mkstream [x00] io.EOF; Read := 2 |})) /\
  parseGoAwayFrame 1 (mkstream [x40; x05; x00] io.EOF)
  = (if decide (2 = 1) then Ok {| StreamID := 5 |} else Err ErrGoAwayLength,
     mkstream [x00] io.EOF) /\
  (forall id, Ok 5 = Ok id ->
     (parseGoAwayFrame 1 (mkstream [x40; x05; x00] io.EOF)
      = (Err ErrGoAwayLength, mkstream [x00] io.EOF) <-> 2 <> 1) /\
     (2 = 1 -> parseGoAwayFrame 1 (mkstream [x40; x05; x00] io.EOF)
               = (Ok {| StreamID := id |}, mkstream [x00] io.EOF))).
Proof.
  exact (goaway_length_cross_check 1 (mkstream [x40; x05; x00] io.EOF)
           (mkstream [x00] io.EOF) (Ok 5) ltac:(lia) eq_refl).
Defined.

(** C5 as stated fails.  The GOAWAY frame [07 01 c0 00 05] declares a body
    of one byte and holds an identifier that begins an integer of eight
    bytes, of which only three are there.  The counting reader has counted
    3 bytes, which differs from the declared length 1, and yet the parse
    does not fail with the inconsistent-length error: it fails with the
    read error [io.EOF], alone and through [ParseNext]. *)
Lemma goaway_length_counterexample :
  (quicvarint.Read {| inner := mkstream [xc0; x00; x05] io.EOF; Read := 0 |}
   = (Err (ErrIO io.EOF), {| inner := mkstream [] io.EOF; Read := 3 |})) /\
  3 <> 1 /\
  parseGoAwayFrame 1 (mkstream [xc0; x00; x05] io.EOF)
  = (Err (ErrIO io.EOF), mkstream [] io.EOF) /\
  ErrIO io.EOF <> ErrGoAwayLength /\
  ParseNext {| r := mkstream [x07; x01; xc0; x00; x05] io.EOF; closeConn_calls := [];
               unknownFrameHandler := None; handler_state := tt |}
  = (Err (ErrIO io.EOF),
     {| r := mkstream [] io.EOF; closeConn_calls := [];
        unknownFrameHandler := None; handler_state := tt |}).
Proof.
  split; [reflexivity|]. split; [lia|]. split; [reflexivity|].
  split; [discriminate|reflexivity].
Qed.

(** The two sample frames of the specification. *)
Example settings_frame :
  ParseNext {| r := mkstream [x04; x02; x08; x01] io.EOF; closeConn_calls := [];
               unknownFrameHandler := None; handler_state := tt |}
  = (Ok (FSettings {| Datagram := false; ExtendedConnect := true; Other := None |}),
     {| r := mkstream [] io.EOF; closeConn_calls := [];
        unknownFrameHandler := None; handler_state := tt |}).
Proof. reflexivity. Qed.

Example goaway_frame :
  ParseNext {| r := mkstream [x07; x01; x05] io.EOF; closeConn_calls := [];
               unknownFrameHandler := None; handler_state := tt |}
  = (Ok (FGoAway {| StreamID := 5 |}),
     {| r := mkstream [] io.EOF; closeConn_calls := [];
        unknownFrameHandler := None; handler_state := tt |}).
Proof. reflexivity. Qed.

Example goaway_frame_Append :
  goAwayFrame_Append {| StreamID := 5 |} [] = Some [x07; x01; x05].
Proof. reflexivity. Qed.

(** ** The unknown-frame callback *)

(** For a type [t] above 0xd, every test [t =? k] of the dispatch on a base
    type fails. *)
Ltac not_a_base_type t :=
  repeat match goal with
         | |- context [Z.eqb t ?k] => destruct (Z.eqb_spec t k); [lia|]
         end.

Section Callback.
Context {H : Type}.
Implicit Types (p : frameParser H) (h : unknownFrameHandlerFunc H).

Lemma consult_Some p h (t : FrameType) (e : option error) (hij : bool)
    (oe : option error) (hs' : H) :
  unknownFrameHandler p = Some h ->
  h t e (handler_state p) = ((hij, oe), hs') ->
  consult t e p
  = (match oe with
     | Some e' => Err e'
     | None => if hij then Err errHijacked else Ok tt
     end, set_handler_state hs' p).
Proof.
  intros Hh Hcall. unfold consult, bind, get, call_handler, after_handler.
  rewrite Hh, Hcall. cbn [fst snd]. destruct oe as [e'|]; [reflexivity|].
  destruct hij; reflexivity.
Qed.

Lemma consult_None p (t : FrameType) (e : option error) :
  unknownFrameHandler p = None -> consult t e p = (Ok tt, p).
Proof. intros Hh. unfold consult, bind, get. rewrite Hh. reflexivity. Qed.

(** After a failed read of the type tag. *)
Lemma ParseNext_no_type p h (e : error) (s' : stream) (hij : bool)
    (oe : option error) (hs' : H) :
  quicvarint.Read (r p) = (Err e, s') ->
  unknownFrameHandler p = Some h ->
  h 0 (Some e) (handler_state p) = ((hij, oe), hs') ->
  ParseNext p
  = (Err (match oe with
          | Some e' => e'
          | None => if hij then errHijacked else e
          end), set_handler_state hs' (set_r s' p)).
Proof.
  intros Er Hh Hcall. rewrite ParseNext_eq, (ParseNext_body_no_type _ _ _ Er).
  unfold bind. rewrite (consult_Some (set_r s' p) h 0 (Some e) hij oe hs' Hh Hcall).
  destruct oe as [e'|]; [reflexivity|]. destruct hij; reflexivity.
Qed.

(** After the type tag of an extension frame. *)
Lemma after_type_extension p h (t : FrameType) (hij : bool) (oe : option error)
    (hs' : H) :
  t > 0xd ->
  unknownFrameHandler p = Some h ->
  h t None (handler_state p) = ((hij, oe), hs') ->
  after_type t p
  = match oe with
    | Some e' => (Err e', set_handler_state hs' p)
    | None =>
        if hij then (Err errHijacked, set_handler_state hs' p)
        else (let* l := quicvarint.Read in skip l) (set_handler_state hs' p)
    end.
Proof.
  intros Ht Hh Hcall. unfold after_type, bind at 1.
  destruct (Z.gtb_spec t 13) as [_|]; [|lia].
  rewrite (consult_Some p h t None hij oe hs' Hh Hcall).
  destruct oe as [e'|]; [reflexivity|]. destruct hij; [reflexivity|].
  unfold bind. destruct (quicvarint.Read _) as [[l|e] p1]; [|reflexivity].
  not_a_base_type t.
  reflexivity.
Qed.
End Callback.

Lemma read_more_stream_Err (n : nat) (acc : Z) (s s' : stream) (e : error) :
  quicvarint.read_more n acc s = (Err e, s') -> e = ErrIO (final s).
Proof.
  revert acc s. induction n as [|n IH]; intros acc s; [discriminate|].
  cbn [quicvarint.read_more]. unfold bind, ReadByte at 1, stream_ByteReader.
  destruct s as [[|y d] f]; cbn [data final].
  - intros [= <- _]. reflexivity.
  - intros Hm. apply IH in Hm. exact Hm.
Qed.

(** A read from a stream fails with the stream's own error. *)
Lemma Read_stream_Err (s s' : stream) (e : error) :
  quicvarint.Read s = (Err e, s') -> e = ErrIO (final s).
Proof.
  unfold quicvarint.Read, bind, ReadByte at 1, stream_ByteReader.
  destruct s as [[|y d] f]; cbn [data final].
  - intros [= <- _]. reflexivity.
  - intros Hm. apply read_more_stream_Err in Hm. exact Hm.
Qed.

(** C7, as amended: when reading the type tag fails and a callback is
    registered, [ParseNext] calls it once, with type 0 and the read error;
    if the callback returns an error of its own, [ParseNext] returns that
    error; otherwise, if the callback reports hijacked, [ParseNext] returns
    [errHijacked]; otherwise it returns the read error. *)
Theorem type_tag_failure_consults_callback {H} (p : frameParser H)
    (h : unknownFrameHandlerFunc H) (e : error) (s' : stream) (hij : bool)
    (oe : option error) (hs' : H) :
  quicvarint.Read (r p) = (Err e, s') ->
  unknownFrameHandler p = Some h ->
  h 0 (Some e) (handler_state p) = ((hij, oe), hs') ->
  ParseNext p
  = (Err (match oe with
          | Some e' => e'
          | None => if hij then errHijacked else e
          end),
     {| r := s'; closeConn_calls := closeConn_calls p;
        unknownFrameHandler := Some h; handler_state := hs' |}).
Proof.
  intros Er Hh Hcall. rewrite (ParseNext_no_type p h e s' hij oe hs' Er Hh Hcall).
  unfold set_handler_state, set_r. cbn. rewrite Hh. reflexivity.
Qed.

Lemma type_tag_failure_consults_callback_witness :
  ParseNext {| r := mkstream [] io.EOF; closeConn_calls := [];
               unknownFrameHandler := Some (recording_handler (true, None));
               handler_state := [] |}
  = (Err errHijacked,
     {| r := mkstream [] io.EOF; closeConn_calls := [];
        unknownFrameHandler := Some (recording_handler (true, None));
        handler_state := [(0, Some (ErrIO io.EOF))] |}).
Proof.
  apply (type_tag_failure_consults_callback
           {| r := mkstream [] io.EOF; closeConn_calls := [];
              unknownFrameHandler := Some (recording_handler (true, None));
              handler_state := [] |}
           (recording_handler (true, None)) (ErrIO io.EOF) (mkstream [] io.EOF)
           true None [(0, Some (ErrIO io.EOF))]); reflexivity.
Defined.

(** C7 as stated fails.  On a closed stream, a callback that reports
    hijacked and also returns an error makes [ParseNext] return that error,
    not [errHijacked]; a callback that does not report hijacked and returns
    an error makes [ParseNext] return that error, not the read error. *)
Lemma type_tag_failure_counterexample :
  (let h := recording_handler (true, Some (ErrCustom "stream reset")) in
   let p := {| r := mkstream [] io.EOF; closeConn_calls := [];
               unknownFrameHandler := Some h; handler_state := [] |} in
   quicvarint.Read (r p) = (Err (ErrIO io.EOF), r p) /\
   (h 0 (Some (ErrIO io.EOF)) (handler_state p)).1.1 = true /\
   (ParseNext p).1 = Err (ErrCustom "stream reset") /\
   (ParseNext p).1 <> Err errHijacked) /\
  (let h := recording_handler (false, Some (ErrCustom "stream reset")) in
   let p := {| r := mkstream [] io.EOF; closeConn_calls := [];
               unknownFrameHandler := Some h; handler_state := [] |} in
   quicvarint.Read (r p) = (Err (ErrIO io.EOF), r p) /\
   (h 0 (Some (ErrIO io.EOF)) (handler_state p)).1.1 = false /\
   (ParseNext p).1 = Err (ErrCustom "stream reset") /\
   (ParseNext p).1 <> Err (ErrIO io.EOF)).
Proof.
  split; cbv zeta.
  - split; [reflexivity|]. split; [reflexivity|]. split; [reflexivity|]. discriminate.
  - split; [reflexivity|]. split; [reflexivity|]. split; [reflexivity|]. discriminate.
Qed.

Section Skipping.
Context {H : Type}.
Implicit Types (p : frameParser H) (h : unknownFrameHandlerFunc H).

(** Reading the length and skipping a body that is there. *)
Lemma read_length_and_skip p (l : Z) (s2 : stream) (body rest : list byte) :
  quicvarint.Read (r p) = (Ok l, s2) ->
  data s2 = body ++ rest ->
  Z.of_nat (length body) = l ->
  (let* l := quicvarint.Read in skip l) p
  = (Ok None, set_r (mkstream rest (final s2)) p).
Proof.
  intros El Hdata Hlen. unfold bind at 1. rewrite (Read_parser _ _ _ El).
  apply Read_Ok in El as (_ & _ & _ & Hl).
  unfold skip, bind, on_r, io_ops.CopyN_Discard. rewrite (int64_small l Hl).
  cbn [r set_r]. rewrite Hdata, length_app.
  destruct (Z.ltb_spec l 0); [lia|].
  destruct (Z.leb_spec l (Z.of_nat (length body + length rest))); [|lia].
  rewrite (drop_app_length' body rest) by lia. reflexivity.
Qed.

(** What reading the length and skipping can end in. *)
Lemma read_length_and_skip_result p :
  ((let* l := quicvarint.Read in skip l) p).1 <> Err errHijacked.
Proof.
  unfold bind at 1. rewrite Read_frameParser. unfold on_r at 1.
  destruct (quicvarint.Read (r p)) as [[l|e] s2] eqn:E.
  - unfold skip, bind, on_r, io_ops.CopyN_Discard, ret. cbn [r set_r].
    destruct (int64 l <? 0); [discriminate|].
    destruct (int64 l <=? _); discriminate.
  - apply Read_stream_Err in E as ->. discriminate.
Qed.

Lemma after_type_reserved_unused p (t : FrameType) :
  t = 0x3 \/ t = 0x5 \/ t = 0xd ->
  after_type t p = (let* l := quicvarint.Read in skip l) p.
Proof.
  intros Ht. unfold after_type, bind at 1.
  replace (t >? 13) with false by (destruct Ht as [-> | [-> | ->]]; reflexivity).
  unfold ret at 1. unfold bind.
  destruct (quicvarint.Read p) as [[l|e] p1]; [|reflexivity].
  destruct Ht as [-> | [-> | ->]]; reflexivity.
Qed.

Lemma after_type_extension_no_callback p (t : FrameType) :
  t > 0xd ->
  unknownFrameHandler p = None ->
  after_type t p = (let* l := quicvarint.Read in skip l) p.
Proof.
  intros Ht Hh. unfold after_type, bind at 1.
  destruct (Z.gtb_spec t 13) as [_|]; [|lia].
  rewrite (consult_None p t None Hh). unfold bind.
  destruct (quicvarint.Read p) as [[l|e] p1]; [|reflexivity].
  not_a_base_type t.
  reflexivity.
Qed.
End Skipping.

(** C9: whenever the callback is called, on a failed read of the type tag
    or for an extension type above 0xd, an error it returns is what
    [ParseNext] returns, in place of the read error and whatever the
    hijacked flag says.  When the callback returns no error, [ParseNext]
    returns [errHijacked] if the callback reports hijacked; if it does not,
    the failed read gives the read error, which is not [errHijacked], and
    an extension frame is skipped without returning [errHijacked] in that
    turn of the loop. *)
Theorem callback_error_takes_precedence {H} (p : frameParser H)
    (h : unknownFrameHandlerFunc H) :
  unknownFrameHandler p = Some h ->
  (forall e s' hij oe hs',
     quicvarint.Read (r p) = (Err e, s') ->
     h 0 (Some e) (handler_state p) = ((hij, oe), hs') ->
     match oe with
     | Some e' => (ParseNext p).1 = Err e'
     | None => (ParseNext p).1 = Err errHijacked <-> hij = true
     end) /\
  (forall t s1 hij oe hs',
     quicvarint.Read (r p) = (Ok t, s1) ->
     t > 0xd ->
     h t None (handler_state p) = ((hij, oe), hs') ->
     match oe with
     | Some e' => (ParseNext p).1 = Err e'
     | None => if hij then (ParseNext p).1 = Err errHijacked
               else (ParseNext_body p).1 <> Err errHijacked
     end).
Proof.
  intros Hh. split.
  - intros e s' hij oe hs' Er Hcall.
    rewrite (ParseNext_no_type p h e s' hij oe hs' Er Hh Hcall). cbn [fst].
    destruct oe as [e'|]; [reflexivity|].
    apply Read_stream_Err in Er as ->.
    destruct hij; split; first [reflexivity|discriminate].
  - intros t s1 hij oe hs' Et Ht Hcall.
    rewrite ParseNext_eq, (ParseNext_body_type _ _ _ Et).
    rewrite (after_type_extension (set_r s1 p) h t hij oe hs' Ht Hh Hcall).
    destruct oe as [e'|]; [reflexivity|]. destruct hij; [reflexivity|].
    apply read_length_and_skip_result.
Qed.

Lemma callback_error_takes_precedence_witness :
  let h := recording_handler (true, Some (ErrCustom "stream reset")) in
  let p := {| r := mkstream [x21; x00] io.EOF; closeConn_calls := [];
              unknownFrameHandler := Some h; handler_state := [] |} in
  (forall e s' hij oe hs',
     quicvarint.Read (r p) = (Err e, s') ->
     h 0 (Some e) (handler_state p) = ((hij, oe), hs') ->
     match oe with
     | Some e' => (ParseNext p).1 = Err e'
     | None => (ParseNext p).1 = Err errHijacked <-> hij = true
     end) /\
  (forall t s1 hij oe hs',
     quicvarint.Read (r p) = (Ok t, s1) ->
     t > 0xd ->
     h t None (handler_state p) = ((hij, oe), hs') ->
     match oe with
     | Some e' => (ParseNext p).1 = Err e'
     | None => if hij then (ParseNext p).1 = Err errHijacked
               else (ParseNext_body p).1 <> Err errHijacked
     end).
Proof.
  apply (callback_error_takes_precedence
           {| r := mkstream [x21; x00] io.EOF; closeConn_calls := [];
              unknownFrameHandler :=
                Some (recording_handler (true, Some (ErrCustom "stream reset")));
              handler_state := [] |}
           (recording_handler (true, Some (ErrCustom "stream reset")))).
  reflexivity.
Defined.

Example callback_error_on_extension_type :
  ParseNext {| r := mkstream [x21; x00] io.EOF; closeConn_calls := [];
               unknownFrameHandler :=
                 Some (recording_handler (true, Some (ErrCustom "stream reset")));
               handler_state := [] |}
  = (Err (ErrCustom "stream reset"),
     {| r := mkstream [x00] io.EOF; closeConn_calls := [];
        unknownFrameHandler :=
          Some (recording_handler (true, Some (ErrCustom "stream reset")));
        handler_state := [(0x21, None)] |}).
Proof. reflexivity. Qed.

(** C1: a frame of type 0x3, 0x5 or 0xd, or of an extension type above 0xd
    that no callback is registered for or that the callback declines, is
    skipped: the turn of the loop that meets it consumes the header and
    exactly the [l] bytes of the body, returns nothing, and [ParseNext]
    goes on with the next frame, so that its result is the result of
    parsing what follows.  That result is an error or a data, headers,
    settings or goaway frame. *)
Theorem unknown_frame_skipped {H} (p : frameParser H) (t l : Z) (s1 s2 : stream)
    (body rest : list byte) (hs' : H) :
  quicvarint.Read (r p) = (Ok t, s1) ->
  quicvarint.Read s1 = (Ok l, s2) ->
  data s2 = body ++ rest ->
  Z.of_nat (length body) = l ->
  ((t = 0x3 \/ t = 0x5 \/ t = 0xd) /\ hs' = handler_state p) \/
  (t > 0xd /\
   match unknownFrameHandler p with
   | Some h => h t None (handler_state p) = ((false, None), hs')
   | None => hs' = handler_state p
   end) ->
  let p' := {| r := mkstream rest (final s2); closeConn_calls := closeConn_calls p;
               unknownFrameHandler := unknownFrameHandler p;
               handler_state := hs' |} in
  ParseNext_body p = (Ok None, p') /\
  ParseNext p = ParseNext p' /\
  ((exists e, (ParseNext p).1 = Err e) \/
   (exists f, (ParseNext p).1 = Ok (FData f)) \/
   (exists f, (ParseNext p).1 = Ok (FHeaders f)) \/
   (exists f, (ParseNext p).1 = Ok (FSettings f)) \/
   (exists f, (ParseNext p).1 = Ok (FGoAway f))).
Proof.
  intros Et El Hdata Hlen Htype p'.
  assert (Hbody : ParseNext_body p = (Ok None, p')).
  { rewrite (ParseNext_body_type _ _ _ Et).
    destruct Htype as [[Ht ->]|[Ht Hcb]].
    - rewrite (after_type_reserved_unused _ _ Ht).
      rewrite (read_length_and_skip (set_r s1 p) l s2 body rest El Hdata Hlen).
      reflexivity.
    - destruct (unknownFrameHandler p) as [h|] eqn:Hh.
      + rewrite (after_type_extension (set_r s1 p) h t false None hs' Ht Hh Hcb).
        rewrite (read_length_and_skip (set_handler_state hs' (set_r s1 p)) l s2
                   body rest El Hdata Hlen).
        subst p'. unfold set_r, set_handler_state. cbn. rewrite Hh. reflexivity.
      + subst hs'. rewrite (after_type_extension_no_callback (set_r s1 p) t Ht Hh).
        rewrite (read_length_and_skip (set_r s1 p) l s2 body rest El Hdata Hlen).
        subst p'. unfold set_r. cbn. rewrite Hh. reflexivity. }
  split; [exact Hbody|]. split.
  - rewrite ParseNext_eq, Hbody. reflexivity.
  - destruct (ParseNext p).1 as [[f|f|f|f]|e]; eauto 10.
Qed.

Lemma unknown_frame_skipped_witness :
  let h := recording_handler (false, None) in
  let p := {| r := mkstream [x20; x02; xaa; xbb; x07; x01; x05] io.EOF;
              closeConn_calls := []; unknownFrameHandler := Some h;
              handler_state := [] |} in
  let p' := {| r := mkstream [x07; x01; x05] io.EOF;
               closeConn_calls := []; unknownFrameHandler := Some h;
               handler_state := [(0x20, None)] |} in
  ParseNext_body p = (Ok None, p') /\
  ParseNext p = ParseNext p' /\
  ((exists e, (ParseNext p).1 = Err e) \/
   (exists f, (ParseNext p).1 = Ok (FData f)) \/
   (exists f, (ParseNext p).1 = Ok (FHeaders f)) \/
   (exists f, (ParseNext p).1 = Ok (FSettings f)) \/
   (exists f, (ParseNext p).1 = Ok (FGoAway f))).
Proof.
  apply (unknown_frame_skipped
           {| r := mkstream [x20; x02; xaa; xbb; x07; x01; x05] io.EOF;
              closeConn_calls := [];
              unknownFrameHandler := Some (recording_handler (false, None));
              handler_state := [] |}
           0x20 2 (mkstream [x02; xaa; xbb; x07; x01; x05] io.EOF)
           (mkstream [xaa; xbb; x07; x01; x05] io.EOF)
           [xaa; xbb] [x07; x01; x05] [(0x20, None)]).
  - reflexivity.
  - reflexivity.
  - reflexivity.
  - reflexivity.
  - right. split; [lia|reflexivity].
Defined.

Example unknown_frame_then_goaway :
  ParseNext {| r := mkstream [x20; x02; xaa; xbb; x07; x01; x05] io.EOF;
               closeConn_calls := []; unknownFrameHandler := None;
               handler_state := tt |}
  = (Ok (FGoAway {| StreamID := 5 |}),
     {| r := mkstream [] io.EOF; closeConn_calls := [];
        unknownFrameHandler := None; handler_state := tt |}).
Proof. reflexivity. Qed.

(** * Further properties *)

(** ** DATA, HEADERS and GOAWAY through the dispatcher *)

Section DispatcherFrames.
Context {H : Type}.
Implicit Types (p : frameParser H).

Lemma ParseNext_data p (l : Z) (s1 s2 : stream) :
  quicvarint.Read (r p) = (Ok 0x0, s1) ->
  quicvarint.Read s1 = (Ok l, s2) ->
  ParseNext p = (Ok (FData {| data_Length := l |}), set_r s2 p).
Proof.
  intros Et El. rewrite ParseNext_eq, (ParseNext_body_type _ _ _ Et).
  unfold after_type, bind at 1. cbn [Z.gtb Z.compare]. unfold ret at 1.
  unfold bind at 1. rewrite (Read_parser (set_r s1 p) s2 (Ok l)) by exact El.
  reflexivity.
Qed.

Lemma ParseNext_headers p (l : Z) (s1 s2 : stream) :
  quicvarint.Read (r p) = (Ok 0x1, s1) ->
  quicvarint.Read s1 = (Ok l, s2) ->
  ParseNext p = (Ok (FHeaders {| headers_Length := l |}), set_r s2 p).
Proof.
  intros Et El. rewrite ParseNext_eq, (ParseNext_body_type _ _ _ Et).
  unfold after_type, bind at 1. cbn [Z.gtb Z.compare Pos.compare Pos.compare_cont].
  unfold ret at 1.
  unfold bind at 1. rewrite (Read_parser (set_r s1 p) s2 (Ok l)) by exact El.
  reflexivity.
Qed.

Lemma ParseNext_goaway p (l : Z) (s1 s2 : stream) :
  quicvarint.Read (r p) = (Ok 0x7, s1) ->
  quicvarint.Read s1 = (Ok l, s2) ->
  ParseNext p = let (x, p') := parseGoAwayFrame l (set_r s2 p) in
                (match x with Ok f => Ok (FGoAway f) | Err e => Err e end, p').
Proof.
  intros Et El. rewrite ParseNext_eq, (ParseNext_body_type _ _ _ Et).
  unfold after_type, bind at 1. cbn [Z.gtb Z.compare Pos.compare Pos.compare_cont].
  unfold ret at 1. unfold bind at 1.
  rewrite (Read_parser (set_r s1 p) s2 (Ok l)) by exact El.
  cbn [Z.eqb Pos.eqb]. unfold bind. cbn [r set_r].
  change (set_r s2 (set_r s1 p)) with (set_r s2 p).
  destruct (parseGoAwayFrame l (set_r s2 p)) as [[f|e] p']; reflexivity.
Qed.
End DispatcherFrames.

(** The parse of a GOAWAY body whose identifier can be read. *)
Lemma parseGoAwayFrame_read {R} `{Remaining R} (l id : Z) (r0 r1 : R) :
  0 <= l < 2 ^ 64 ->
  quicvarint.Read r0 = (Ok id, r1) ->
  parseGoAwayFrame l r0
  = (if decide (Z.of_nat (remaining r0 - remaining r1) = l)
     then Ok {| StreamID := id |} else Err ErrGoAwayLength, r1).
Proof.
  intros Hl E. unfold parseGoAwayFrame. rewrite Read_counting, E.
  apply Read_Ok in E as (w & Hw & Hrem & Hid).
  cbn [Read inner]. rewrite Z.add_0_l, (int64_small id Hid).
  assert (Hint : Z.of_nat (remaining r0 - remaining r1) = int l <->
                 Z.of_nat (remaining r0 - remaining r1) = l).
  { unfold int, int64. destruct (Z.ltb_spec l (2 ^ 63)); lia. }
  destruct (Z.eqb_spec (Z.of_nat (remaining r0 - remaining r1)) (int l)) as [Heq|Hne];
    cbn [negb]; destruct (decide (Z.of_nat (remaining r0 - remaining r1) = l));
    first [reflexivity|tauto].
Qed.

(** X1: a data frame whose length fits a variable-length integer is encoded
    as bytes that [ParseNext] parses back to the same frame, stopping right
    behind the header: the body is left to the caller. *)
Theorem dataFrame_roundtrip (f : dataFrame) :
  0 <= data_Length f <= quicvarint.maxVarInt8 ->
  exists enc,
    (forall out, dataFrame_Append f out = Some (out ++ enc)) /\
    forall (H : Type) (p : frameParser H) (rest : list byte) (fin : io.error),
      r p = mkstream (enc ++ rest) fin ->
      ParseNext p = (Ok (FData f), set_r (mkstream rest fin) p).
Proof.
  intros Hl. destruct f as [l]. cbn [data_Length] in Hl.
  destruct (Read_Append l Hl) as (enc & Happ & _ & Hread).
  exists ([x00] ++ enc). split.
  - intros out. unfold dataFrame_Append. cbn [data_Length].
    change (quicvarint.Append out 0) with (Some (out ++ [x00])).
    cbn [mbind option_bind]. rewrite Happ. by rewrite <- (assoc_L (++)).
  - intros H p rest fin Hp.
    apply (ParseNext_data p l (mkstream (enc ++ rest) fin)).
    + rewrite Hp. reflexivity.
    + apply Hread.
Qed.

Lemma dataFrame_roundtrip_witness :
  exists enc,
    (forall out, dataFrame_Append {| data_Length := 1337 |} out = Some (out ++ enc)) /\
    forall (H : Type) (p : frameParser H) (rest : list byte) (fin : io.error),
      r p = mkstream (enc ++ rest) fin ->
      ParseNext p = (Ok (FData {| data_Length := 1337 |}), set_r (mkstream rest fin) p).
Proof.
  apply (dataFrame_roundtrip {| data_Length := 1337 |}).
  unfold quicvarint.maxVarInt8. simpl. lia.
Defined.

(** X2: a headers frame whose length fits a variable-length integer is
    encoded as bytes that [ParseNext] parses back to the same frame,
    stopping right behind the header: the header block is left to the
    caller. *)
Theorem headersFrame_roundtrip (f : headersFrame) :
  0 <= headers_Length f <= quicvarint.maxVarInt8 ->
  exists enc,
    (forall out, headersFrame_Append f out = Some (out ++ enc)) /\
    forall (H : Type) (p : frameParser H) (rest : list byte) (fin : io.error),
      r p = mkstream (enc ++ rest) fin ->
      ParseNext p = (Ok (FHeaders f), set_r (mkstream rest fin) p).
Proof.
  intros Hl. destruct f as [l]. cbn [headers_Length] in Hl.
  destruct (Read_Append l Hl) as (enc & Happ & _ & Hread).
  exists ([x01] ++ enc). split.
  - intros out. unfold headersFrame_Append. cbn [headers_Length].
    change (quicvarint.Append out 1) with (Some (out ++ [x01])).
    cbn [mbind option_bind]. rewrite Happ. by rewrite <- (assoc_L (++)).
  - intros H p rest fin Hp.
    apply (ParseNext_headers p l (mkstream (enc ++ rest) fin)).
    + rewrite Hp. reflexivity.
    + apply Hread.
Qed.

Lemma headersFrame_roundtrip_witness :
  exists enc,
    (forall out, headersFrame_Append {| headers_Length := 70000 |} out
                 = Some (out ++ enc)) /\
    forall (H : Type) (p : frameParser H) (rest : list byte) (fin : io.error),
      r p = mkstream (enc ++ rest) fin ->
      ParseNext p = (Ok (FHeaders {| headers_Length := 70000 |}),
                     set_r (mkstream rest fin) p).
Proof.
  apply (headersFrame_roundtrip {| headers_Length := 70000 |}).
  unfold quicvarint.maxVarInt8. simpl. lia.
Defined.

Lemma Len_width (i n : Z) :
  quicvarint.Len i = Some n -> n = 1 \/ n = 2 \/ n = 4 \/ n = 8.
Proof.
  unfold quicvarint.Len.
  repeat match goal with |- context [Z.leb ?a ?c] => destruct (Z.leb a c) end;
    intros [= <-]; auto.
Qed.

(** The bytes [goAwayFrame.Append] writes for an identifier that fits. *)
Lemma goAwayFrame_Append_fits (sid : Z) :
  0 <= sid <= quicvarint.maxVarInt8 ->
  exists lenc enc,
    (forall out, goAwayFrame_Append {| StreamID := sid |} out
                 = Some (out ++ [x07] ++ lenc ++ enc)) /\
    (forall rest e, quicvarint.Read (mkstream (lenc ++ rest) e)
                    = (Ok (Z.of_nat (length enc)), mkstream rest e)) /\
    (forall rest e, quicvarint.Read (mkstream (enc ++ rest) e)
                    = (Ok sid, mkstream rest e)).
Proof.
  intros Hid.
  destruct (Read_Append sid Hid) as (enc & Happ & Hlen & Hread).
  assert (Hu : uint64 sid = sid)
    by (unfold uint64, quicvarint.maxVarInt8 in *; apply Z.mod_small; lia).
  pose proof (Len_width _ _ Hlen) as Hw.
  assert (Hn : 0 <= Z.of_nat (length enc) <= quicvarint.maxVarInt8)
    by (unfold quicvarint.maxVarInt8; lia).
  assert (Hun : uint64 (Z.of_nat (length enc)) = Z.of_nat (length enc))
    by (unfold uint64; apply Z.mod_small; lia).
  destruct (Read_Append (Z.of_nat (length enc)) Hn) as (lenc & Hlapp & _ & Hlread).
  exists lenc, enc. split; [|split; assumption].
  intros out. unfold goAwayFrame_Append. cbn [StreamID].
  change (quicvarint.Append out 7) with (Some (out ++ [x07])).
  cbn [mbind option_bind]. rewrite Hu, Hlen. cbn [mbind option_bind].
  rewrite Hun, Hlapp. cbn [mbind option_bind]. rewrite Happ.
  by rewrite <- !(assoc_L (++)).
Qed.

(** X3: a goaway frame whose stream identifier is between 0 and 2^62 - 1 is
    encoded as bytes that [ParseNext] parses back to the same frame, leaving
    what follows. *)
Theorem goAwayFrame_roundtrip (f : goAwayFrame) :
  0 <= StreamID f <= quicvarint.maxVarInt8 ->
  exists enc,
    (forall out, goAwayFrame_Append f out = Some (out ++ enc)) /\
    forall (H : Type) (p : frameParser H) (rest : list byte) (fin : io.error),
      r p = mkstream (enc ++ rest) fin ->
      ParseNext p = (Ok (FGoAway f), set_r (mkstream rest fin) p).
Proof.
  intros Hid. destruct f as [sid]. cbn [StreamID] in Hid.
  destruct (goAwayFrame_Append_fits sid Hid) as (lenc & enc & Happ & Hlread & Hread).
  exists ([x07] ++ lenc ++ enc). split; [exact Happ|].
  intros H p rest fin Hp.
  rewrite (ParseNext_goaway p (Z.of_nat (length enc))
             (mkstream (lenc ++ enc ++ rest) fin) (mkstream (enc ++ rest) fin)).
  - rewrite (parseGoAwayFrame_read (Z.of_nat (length enc)) sid
               (set_r (mkstream (enc ++ rest) fin) p) (set_r (mkstream rest fin) p)).
    + cbn [remaining frameParser_Remaining r set_r data]. rewrite length_app.
      destruct (decide _) as [_|Hne]; [reflexivity|lia].
    + pose proof (Hlread [] io.EOF) as Hl. apply Read_Ok in Hl as (_ & _ & _ & Hl).
      unfold quicvarint.maxVarInt8 in Hl. lia.
    + apply (Read_parser (set_r (mkstream (enc ++ rest) fin) p) (mkstream rest fin)
               (Ok sid)). apply Hread.
  - rewrite Hp, <- !(assoc_L (++)). reflexivity.
  - apply Hlread.
Qed.

Lemma goAwayFrame_roundtrip_witness :
  exists enc,
    (forall out, goAwayFrame_Append {| StreamID := 100000 |} out = Some (out ++ enc)) /\
    forall (H : Type) (p : frameParser H) (rest : list byte) (fin : io.error),
      r p = mkstream (enc ++ rest) fin ->
      ParseNext p = (Ok (FGoAway {| StreamID := 100000 |}),
                     set_r (mkstream rest fin) p).
Proof.
  apply (goAwayFrame_roundtrip {| StreamID := 100000 |}).
  unfold quicvarint.maxVarInt8. simpl. lia.
Defined.

(** X4: [goAwayFrame.Append] panics exactly for the stream identifiers, of
    type [int64], that are negative or above 2^62 - 1: the conversion to
    [uint64] sends a negative one above 2^63. *)
Theorem goAwayFrame_Append_panics (f : goAwayFrame) (out : list byte) :
  - 2 ^ 63 <= StreamID f < 2 ^ 63 ->
  (goAwayFrame_Append f out = None <->
   StreamID f < 0 \/ quicvarint.maxVarInt8 < StreamID f).
Proof.
  intros Hrange. destruct f as [sid]. cbn [StreamID] in *.
  unfold goAwayFrame_Append. cbn [StreamID].
  change (quicvarint.Append out 7) with (Some (out ++ [x07])).
  cbn [mbind option_bind].
  destruct (Z_le_dec 0 sid) as [H0|H0]; [destruct (Z_le_dec sid quicvarint.maxVarInt8) as [H1|H1]|].
  - destruct (goAwayFrame_Append_fits sid (conj H0 H1)) as (lenc & enc & Happ & _).
    specialize (Happ out). unfold goAwayFrame_Append in Happ. cbn [StreamID] in Happ.
    change (quicvarint.Append out 7) with (Some (out ++ [x07])) in Happ.
    cbn [mbind option_bind] in Happ. rewrite Happ.
    split; [discriminate|lia].
  - assert (Hu : uint64 sid = sid) by (unfold uint64; apply Z.mod_small; lia).
    rewrite Hu. unfold quicvarint.Len.
    unfold quicvarint.maxVarInt1, quicvarint.maxVarInt2, quicvarint.maxVarInt4,
      quicvarint.maxVarInt8 in *.
    repeat match goal with |- context [Z.leb ?a ?c] => destruct (Z.leb_spec a c) end;
      try lia.
    cbn [mbind option_bind]. split; [lia|reflexivity].
  - assert (Hu : uint64 sid = sid + 2 ^ 64).
    { unfold uint64. rewrite <- (Z.mod_add sid 1 (2 ^ 64)) by lia.
      apply Z.mod_small. lia. }
    rewrite Hu. unfold quicvarint.Len.
    unfold quicvarint.maxVarInt1, quicvarint.maxVarInt2, quicvarint.maxVarInt4,
      quicvarint.maxVarInt8 in *.
    repeat match goal with |- context [Z.leb ?a ?c] => destruct (Z.leb_spec a c) end;
      try lia.
    cbn [mbind option_bind]. split; [lia|reflexivity].
Qed.

Lemma goAwayFrame_Append_panics_witness :
  goAwayFrame_Append {| StreamID := -1 |} [] = None <->
  -1 < 0 \/ quicvarint.maxVarInt8 < -1.
Proof.
  apply (goAwayFrame_Append_panics {| StreamID := -1 |} []). simpl. lia.
Defined.

(** X5: for a GOAWAY frame whose header and identifier can be read,
    [ParseNext] returns the frame when the identifier is exactly [l] bytes
    wide and the inconsistent-length error otherwise; in both cases the
    reader is left behind the identifier, whatever [l] says, and a declared
    length of 0 is never accepted. *)
Theorem goaway_through_dispatcher {H} (p : frameParser H) (l id : Z)
    (s1 s2 s3 : stream) :
  quicvarint.Read (r p) = (Ok 0x7, s1) ->
  quicvarint.Read s1 = (Ok l, s2) ->
  quicvarint.Read s2 = (Ok id, s3) ->
  ParseNext p
  = (if decide (Z.of_nat (length (data s2) - length (data s3)) = l)
     then Ok (FGoAway {| StreamID := id |}) else Err ErrGoAwayLength,
     set_r s3 p) /\
  (l = 0 -> ParseNext p = (Err ErrGoAwayLength, set_r s3 p)).
Proof.
  intros Et El Eid.
  assert (Hparse : ParseNext p
    = (if decide (Z.of_nat (length (data s2) - length (data s3)) = l)
       then Ok (FGoAway {| StreamID := id |}) else Err ErrGoAwayLength, set_r s3 p)).
  { rewrite (ParseNext_goaway p l s1 s2 Et El).
    pose proof (Read_Ok _ _ _ El) as (_ & _ & _ & Hl).
    rewrite (parseGoAwayFrame_read l id (set_r s2 p) (set_r s3 p)).
    - cbn [remaining frameParser_Remaining r set_r].
      destruct (decide _); reflexivity.
    - unfold quicvarint.maxVarInt8 in Hl. lia.
    - apply (Read_parser (set_r s2 p) s3 (Ok id)). exact Eid. }
  split; [exact Hparse|]. intros ->. rewrite Hparse.
  apply Read_Ok in Eid as (w & Hw & Hrem & _).
  cbn [remaining stream_Remaining] in Hrem.
  destruct (decide _) as [Heq|_]; [lia|reflexivity].
Qed.

Lemma goaway_through_dispatcher_witness :
  let p := {| r := mkstream [x07; x01; x40; x05; xff] io.EOF; closeConn_calls := [];
              unknownFrameHandler := None; handler_state := tt |} in
  ParseNext p
  = (if decide (Z.of_nat (length [x40; x05; xff] - length [xff]) = 1)
     then Ok (FGoAway {| StreamID := 5 |}) else Err ErrGoAwayLength,
     set_r (mkstream [xff] io.EOF) p) /\
  (1 = 0 -> ParseNext p = (Err ErrGoAwayLength, set_r (mkstream [xff] io.EOF) p)).
Proof.
  exact (goaway_through_dispatcher
           {| r := mkstream [x07; x01; x40; x05; xff] io.EOF; closeConn_calls := [];
              unknownFrameHandler := None; handler_state := tt |}
           1 5 (mkstream [x01; x40; x05; xff] io.EOF)
           (mkstream [x40; x05; xff] io.EOF) (mkstream [xff] io.EOF)
           eq_refl eq_refl eq_refl).
Defined.

(** ** What the SETTINGS parser accepts *)

Lemma settings_pairs_valid (kvs : list (Z * Z)) :
  forall st,
    NoDup kvs.*1 -> Forall valid_pair kvs -> fresh_for kvs st ->
    exists st',
      settings_pairs kvs st = (Ok tt, st') /\
      Datagram (frame_ st')
      = (if decide (settingDatagram ∈ kvs.*1)
         then bool_decide ((settingDatagram, 1) ∈ kvs) else Datagram (frame_ st)) /\
      ExtendedConnect (frame_ st')
      = (if decide (settingExtendedConnect ∈ kvs.*1)
         then bool_decide ((settingExtendedConnect, 1) ∈ kvs)
         else ExtendedConnect (frame_ st)) /\
      Other (frame_ st') = insert_pairs (Other (frame_ st)) (filter other_pair kvs).
Proof.
  induction kvs as [|[id val] kvs IH]; intros st Hnd Hvalid Hfresh.
  - exists st. split; [reflexivity|]. split; [|split]; try reflexivity;
      destruct (decide _) as [Hin|_]; try reflexivity; inversion Hin.
  - cbn [fmap list_fmap fst] in Hnd. apply NoDup_cons in Hnd as [Hnin Hnd].
    apply Forall_cons in Hvalid as [Hv Hvalid]. unfold valid_pair in Hv. cbn [fst snd] in Hv.
    destruct Hfresh as (Hf8 & Hf51 & Hfo). cbn [fmap list_fmap fst] in Hf8, Hf51, Hfo.
    cbn [settings_pairs]. unfold bind at 1.
    unfold settingExtendedConnect, settingDatagram in *.
    destruct (decide (id = 8)) as [->|Hne8]; [|destruct (decide (id = 51)) as [->|Hne51]].
    + (* extended connect *)
      assert (Hsw : settings_switch 8 val st
                    = (Ok tt, set_frame (set_ExtendedConnect (val =? 1))
                                (set_readExtendedConnect true st))).
      { unfold settings_switch, bind, get, modify, fail. cbn [Z.eqb Pos.eqb settingExtendedConnect].
        rewrite Hf8 by left.
        destruct Hv as [-> | ->]; [left; reflexivity|reflexivity..]. }
      rewrite Hsw.
      destruct (IH (set_frame (set_ExtendedConnect (val =? 1))
                      (set_readExtendedConnect true st)) Hnd Hvalid)
        as (st' & Hp & Hdg & Hec & Ho).
      { split; [intros Hin; contradiction|]. split.
        - intros Hin. cbn. apply Hf51. right. exact Hin.
        - intros k Hk H8 H51. cbn. apply Hfo; [right; exact Hk|assumption..]. }
      exists st'. split; [exact Hp|]. cbn [fmap list_fmap fst].
      cbn [frame_ set_frame set_ExtendedConnect set_readExtendedConnect Datagram
             ExtendedConnect Other] in Hdg, Hec, Ho.
      split; [|split].
      * rewrite Hdg. destruct (decide (51 ∈ kvs.*1)) as [Hin|Hin].
        -- rewrite decide_True by (right; exact Hin).
           apply bool_decide_ext. rewrite elem_of_cons. split; [auto|].
           intros [[=]|?]; assumption.
        -- rewrite decide_False; [reflexivity|].
           rewrite elem_of_cons. intros [[=]|?]; contradiction.
      * rewrite Hec. rewrite decide_False by exact Hnin.
        rewrite decide_True by left.
        destruct (Z.eqb_spec val 1) as [->|Hne].
        -- symmetry. apply bool_decide_eq_true_2. left.
        -- symmetry. apply bool_decide_eq_false_2. rewrite elem_of_cons.
           intros [[=]|Hin]; [congruence|].
           apply Hnin. apply list_elem_of_fmap. exists (8, 1). split; [reflexivity|exact Hin].
      * rewrite Ho. rewrite filter_cons_False; [reflexivity|].
        unfold other_pair, settingExtendedConnect. cbn. tauto.
    + (* datagram *)
      assert (Hsw : settings_switch 51 val st
                    = (Ok tt, set_frame (set_Datagram (val =? 1))
                                (set_readDatagram true st))).
      { unfold settings_switch, bind, get, modify, fail.
        cbn [Z.eqb Pos.eqb settingExtendedConnect settingDatagram].
        rewrite Hf51 by left.
        destruct Hv as [-> | ->]; [right; reflexivity|reflexivity..]. }
      rewrite Hsw.
      destruct (IH (set_frame (set_Datagram (val =? 1))
                      (set_readDatagram true st)) Hnd Hvalid)
        as (st' & Hp & Hdg & Hec & Ho).
      { split; [|split].
        - intros Hin. cbn. apply Hf8. right. exact Hin.
        - intros Hin; contradiction.
        - intros k Hk H8 H51. cbn. apply Hfo; [right; exact Hk|assumption..]. }
      exists st'. split; [exact Hp|]. cbn [fmap list_fmap fst].
      cbn [frame_ set_frame set_Datagram set_readDatagram Datagram
             ExtendedConnect Other] in Hdg, Hec, Ho.
      split; [|split].
      * rewrite Hdg. rewrite decide_False by exact Hnin.
        rewrite decide_True by left.
        destruct (Z.eqb_spec val 1) as [->|Hne].
        -- symmetry. apply bool_decide_eq_true_2. left.
        -- symmetry. apply bool_decide_eq_false_2. rewrite elem_of_cons.
           intros [[=]|Hin]; [congruence|].
           apply Hnin. apply list_elem_of_fmap. exists (51, 1). split; [reflexivity|exact Hin].
      * rewrite Hec. destruct (decide (8 ∈ kvs.*1)) as [Hin|Hin].
        -- rewrite decide_True by (right; exact Hin).
           apply bool_decide_ext. rewrite elem_of_cons. split; [auto|].
           intros [[=]|?]; assumption.
        -- rewrite decide_False; [reflexivity|].
           rewrite elem_of_cons. intros [[=]|?]; contradiction.
      * rewrite Ho. rewrite filter_cons_False; [reflexivity|].
        unfold other_pair, settingDatagram. cbn. tauto.
    + (* any other setting *)
      assert (Hsw : settings_switch id val st = (Ok tt, set_frame (set_Other id val) st)).
      { unfold settings_switch, bind, get, modify.
        unfold settingExtendedConnect, settingDatagram.
        destruct (Z.eqb_spec id 8); [contradiction|].
        destruct (Z.eqb_spec id 51); [contradiction|].
        rewrite Hfo by (first [left|assumption]). reflexivity. }
      rewrite Hsw.
      destruct (IH (set_frame (set_Other id val) st) Hnd Hvalid)
        as (st' & Hp & Hdg & Hec & Ho).
      { split; [|split].
        - intros Hin. cbn. apply Hf8. right. exact Hin.
        - intros Hin. cbn. apply Hf51. right. exact Hin.
        - intros k Hk H8 H51.
          cbn [frame_ set_frame set_Other Other map_index mbind option_bind].
          rewrite lookup_insert_ne by (intros ->; contradiction).
          specialize (Hfo k ltac:(right; exact Hk) H8 H51).
          destruct (Other (frame_ st)); [exact Hfo|apply lookup_empty]. }
      exists st'. split; [exact Hp|]. cbn [fmap list_fmap fst].
      cbn [frame_ set_frame set_Other Datagram ExtendedConnect Other] in Hdg, Hec, Ho.
      split; [|split].
      * rewrite Hdg. destruct (decide (51 ∈ kvs.*1)) as [Hin|Hin].
        -- rewrite decide_True by (right; exact Hin).
           apply bool_decide_ext. rewrite elem_of_cons. split; [auto|].
           intros [[=]|?]; [congruence|assumption].
        -- rewrite decide_False; [reflexivity|].
           rewrite elem_of_cons. intros [?|?]; [congruence|contradiction].
      * rewrite Hec. destruct (decide (8 ∈ kvs.*1)) as [Hin|Hin].
        -- rewrite decide_True by (right; exact Hin).
           apply bool_decide_ext. rewrite elem_of_cons. split; [auto|].
           intros [[=]|?]; [congruence|assumption].
        -- rewrite decide_False; [reflexivity|].
           rewrite elem_of_cons. intros [?|?]; [congruence|contradiction].
      * rewrite Ho. rewrite filter_cons_True by (split; assumption). reflexivity.
Qed.

Lemma NoDup_filter_fst (kvs : list (Z * Z)) :
  NoDup kvs.*1 -> NoDup (filter other_pair kvs).*1.
Proof.
  induction kvs as [|kv kvs IH]; [intros; constructor|].
  cbn [fmap list_fmap]. intros [Hnin Hnd]%NoDup_cons.
  destruct (decide (other_pair kv)) as [Hp|Hp].
  - rewrite filter_cons_True by exact Hp. cbn [fmap list_fmap].
    apply NoDup_cons. split; [|exact (IH Hnd)].
    intros Hin. apply Hnin. apply list_elem_of_fmap in Hin as (kv' & -> & Hin).
    apply list_elem_of_filter in Hin as [_ Hin].
    apply list_elem_of_fmap. exists kv'. auto.
  - rewrite filter_cons_False by exact Hp. exact (IH Hnd).
Qed.

Lemma insert_pairs_NoDup (kvs : list (Z * Z)) :
  NoDup kvs.*1 -> insert_pairs None kvs = nil_if_empty (Some (list_to_map kvs)).
Proof.
  intros Hnd.
  assert (Hm : default ∅ (insert_pairs None kvs) = list_to_map kvs).
  { rewrite insert_pairs_map. simpl. rewrite (right_id_L ∅ (∪)).
    apply list_to_map_proper; [by rewrite reverse_Permutation|apply reverse_Permutation]. }
  destruct (insert_pairs None kvs) as [m|] eqn:E; simpl in Hm.
  - subst m. destruct kvs as [|[k v] kvs]; [discriminate E|].
    cbn [nil_if_empty list_to_map foldr uncurry fst snd].
    destruct (decide _) as [Hem|_]; [|reflexivity].
    exfalso. exact (insert_non_empty _ _ _ Hem).
  - apply insert_pairs_None in E as [-> _]. reflexivity.
Qed.

(** Pairs that the switch lets through carry valid values. *)
Lemma settings_pairs_Ok_valid (kvs : list (Z * Z)) :
  forall st st' x, settings_pairs kvs st = (Ok x, st') -> Forall valid_pair kvs.
Proof.
  induction kvs as [|[id val] kvs IH]; intros st st' x; [constructor|].
  cbn [settings_pairs]. unfold bind.
  destruct (settings_switch id val st) as [[[]|e] st1] eqn:E; [|discriminate].
  intros Hp. constructor; [|exact (IH _ _ _ Hp)].
  unfold valid_pair. cbn [fst snd]. clear Hp IH.
  unfold settings_switch, bind, get, modify, fail, settingExtendedConnect,
    settingDatagram in *.
  intros [-> | ->]; cbn [Z.eqb Pos.eqb] in E.
  - destruct (readExtendedConnect st); [discriminate|].
    destruct (Z.eqb_spec val 0); [auto|]. destruct (Z.eqb_spec val 1); [auto|].
    discriminate.
  - destruct (readDatagram st); [discriminate|].
    destruct (Z.eqb_spec val 0); [auto|]. destruct (Z.eqb_spec val 1); [auto|].
    discriminate.
Qed.

Lemma fresh_for_start (kvs : list (Z * Z)) (buf : list byte) :
  fresh_for kvs (settings_start buf).
Proof. split; [|split]; intros; reflexivity. Qed.

(** X6: a SETTINGS body of at most 8192 bytes that decodes into pairs
    is accepted exactly when no identifier occurs twice and every pair for
    0x8 or 0x33 carries 0 or 1.  The frame then has each flag set when its
    pair carries 1 (an explicit 0 and an absent pair both leave it unset)
    and holds all the other pairs in [Other], which is nil when there are
    none; the reader is left behind the body. *)
Theorem settings_accepted_iff (buf more : list byte) (kvs : list (Z * Z))
    (fin : io.error) :
  decodes buf kvs [] ->
  Z.of_nat (length buf) <= 8192 ->
  (NoDup kvs.*1 /\ Forall valid_pair kvs ->
   parseSettingsFrame (Z.of_nat (length buf)) (mkstream (buf ++ more) fin)
   = (Ok (settings_of_pairs kvs), mkstream more fin)) /\
  ((exists f s', parseSettingsFrame (Z.of_nat (length buf)) (mkstream (buf ++ more) fin)
                 = (Ok f, s')) ->
   NoDup kvs.*1 /\ Forall valid_pair kvs).
Proof.
  intros Hd Hl. rewrite (parseSettingsFrame_decodes _ _ _ _ _ Hd Hl). split.
  - intros [Hnd Hvalid].
    destruct (settings_pairs_valid kvs (settings_start buf) Hnd Hvalid
                (fresh_for_start kvs buf)) as (st' & -> & Hdg & Hec & Ho).
    rewrite settings_loop_done by reflexivity. cbn [fst set_b frame_].
    f_equal. f_equal. unfold settings_of_pairs.
    cbn [settings_start frame_ Datagram ExtendedConnect Other] in Hdg, Hec, Ho.
    rewrite (insert_pairs_NoDup _ (NoDup_filter_fst _ Hnd)) in Ho.
    destruct (frame_ st') as [dg ec o]. cbn [Datagram ExtendedConnect Other] in *.
    subst o.
    assert (Hdg' : dg = bool_decide ((settingDatagram, 1) ∈ kvs)).
    { rewrite Hdg. destruct (decide (settingDatagram ∈ kvs.*1)) as [_|Hnin]; [reflexivity|].
      symmetry. apply bool_decide_eq_false_2. intros Hin. apply Hnin.
      apply list_elem_of_fmap. exists (settingDatagram, 1). auto. }
    assert (Hec' : ec = bool_decide ((settingExtendedConnect, 1) ∈ kvs)).
    { rewrite Hec. destruct (decide (settingExtendedConnect ∈ kvs.*1)) as [_|Hnin];
        [reflexivity|].
      symmetry. apply bool_decide_eq_false_2. intros Hin. apply Hnin.
      apply list_elem_of_fmap. exists (settingExtendedConnect, 1). auto. }
    rewrite <- Hdg', <- Hec'. reflexivity.
  - intros (f & s' & Hparse).
    pose proof (settings_pairs_seen kvs ∅ (settings_start buf) (seen_by_start buf)) as Hs.
    destruct (settings_pairs kvs (settings_start buf)) as [[[]|e] st'] eqn:E;
      [|discriminate].
    destruct Hs as [Hnd _]. split; [exact Hnd|].
    exact (settings_pairs_Ok_valid _ _ _ _ E).
Qed.

Lemma settings_accepted_iff_witness :
  parseSettingsFrame 6 (mkstream ([x08; x00; x0d; x25; x33; x01] ++ [xff]) io.EOF)
  = (Ok (settings_of_pairs [(8, 0); (13, 37); (51, 1)]), mkstream [xff] io.EOF).
Proof.
  refine (proj1 (settings_accepted_iff [x08; x00; x0d; x25; x33; x01] [xff]
                   [(8, 0); (13, 37); (51, 1)] io.EOF _ _) _).
  - decode_by_reading.
  - simpl. lia.
  - split.
    + cbn [fmap list_fmap fst]. repeat (apply NoDup_cons; split; [set_solver|]).
      apply NoDup_nil_2.
    + rewrite !Forall_cons, Forall_nil.
      unfold valid_pair, settingExtendedConnect, settingDatagram. cbn [fst snd].
      split_and!; [| |  |exact I]; intros [E|E]; first [discriminate E|auto].
Defined.

Example settings_explicit_zero :
  parseSettingsFrame 6 (mkstream [x08; x00; x0d; x25; x33; x01] io.EOF)
  = (Ok {| Datagram := true; ExtendedConnect := false;
           Other := Some {[ 13 := 37 ]} |}, mkstream [] io.EOF).
Proof. vm_compute. reflexivity. Qed.

(** X7: a SETTINGS body whose pairs are all acceptable but which ends in the
    middle of a pair, after an identifier or inside a variable-length
    integer, is rejected with [io.EOF], the error of the reader over the
    buffer; the reader of the stream is left behind the body. *)
Theorem settings_partial_pair_rejected (buf tl more : list byte)
    (kvs : list (Z * Z)) (fin : io.error) :
  decodes buf kvs tl ->
  Z.of_nat (length buf) <= 8192 ->
  NoDup kvs.*1 -> Forall valid_pair kvs ->
  tl <> [] ->
  (forall id s1 val s2,
     quicvarint.Read (bytes_NewReader tl) = (Ok id, s1) ->
     quicvarint.Read s1 = (Ok val, s2) -> False) ->
  parseSettingsFrame (Z.of_nat (length buf)) (mkstream (buf ++ more) fin)
  = (Err (ErrIO io.EOF), mkstream more fin).
Proof.
  intros Hd Hl Hnd Hvalid Htl Hpartial.
  rewrite (parseSettingsFrame_decodes _ _ _ _ _ Hd Hl).
  destruct (settings_pairs_valid kvs (settings_start buf) Hnd Hvalid
              (fresh_for_start kvs buf)) as (st' & -> & _).
  f_equal. rewrite settings_loop_eq. unfold settings_body, bind at 1, get.
  cbn [set_b b]. unfold bytes_Len. cbn [bytes_NewReader data].
  destruct tl as [|x tl]; [contradiction|]. cbn [length].
  destruct (Z.gtb_spec (Z.of_nat (S (length tl))) 0); [|lia]. cbn [negb].
  unfold bind at 1, on_b at 1. cbn [set_b b].
  destruct (quicvarint.Read (bytes_NewReader (x :: tl))) as [[id|e] s1] eqn:E1.
  - unfold bind at 1, on_b at 1. cbn [set_b b].
    destruct (quicvarint.Read s1) as [[val|e] s2] eqn:E2.
    + exfalso. exact (Hpartial _ _ _ _ eq_refl E2).
    + apply Read_stream in E1 as [Hf _]. apply Read_stream_Err in E2 as ->.
      rewrite Hf. reflexivity.
  - apply Read_stream_Err in E1 as ->. reflexivity.
Qed.

Lemma settings_partial_pair_rejected_witness :
  parseSettingsFrame 3 (mkstream ([x0a; x01; x08] ++ [xff]) io.EOF)
  = (Err (ErrIO io.EOF), mkstream [xff] io.EOF).
Proof.
  apply (settings_partial_pair_rejected [x0a; x01; x08] [x08] [xff] [(10, 1)] io.EOF).
  - eapply decodes_cons; [reflexivity|reflexivity|]. apply decodes_nil.
  - simpl. lia.
  - apply NoDup_singleton.
  - constructor; [|constructor]. intros [H|H]; discriminate H.
  - discriminate.
  - intros id s1 val s2 [= <- <-]. discriminate.
Defined.

(** X8: [ParseNext] leaves the reader behind the [l] bytes of a SETTINGS
    body that is there, whether the body is accepted or rejected, so that
    the next frame is read from the right place. *)
Theorem settings_frame_alignment {H} (p : frameParser H) (l : Z) (s1 s2 : stream)
    (body rest : list byte) :
  quicvarint.Read (r p) = (Ok 0x4, s1) ->
  quicvarint.Read s1 = (Ok l, s2) ->
  l <= 8192 ->
  data s2 = body ++ rest ->
  Z.of_nat (length body) = l ->
  (ParseNext p).2 = set_r (mkstream rest (final s2)) p.
Proof.
  intros Et El Hl Hdata Hlen. rewrite (ParseNext_settings p l s1 s2 Et El).
  unfold parseSettingsFrame. change (8 * Z.shiftl 1 10) with 8192.
  destruct (Z.gtb_spec l 8192); [lia|].
  destruct s2 as [d f]. cbn [data final] in *. subst d l.
  rewrite Nat2Z.id, ReadFull_prefix. reflexivity.
Qed.

Lemma settings_frame_alignment_witness :
  let p := {| r := mkstream [x04; x04; x08; x02; x08; x02; x07; x01; x05] io.EOF;
              closeConn_calls := []; unknownFrameHandler := None;
              handler_state := tt |} in
  (ParseNext p).2 = set_r (mkstream [x07; x01; x05] io.EOF) p.
Proof.
  apply (settings_frame_alignment
           {| r := mkstream [x04; x04; x08; x02; x08; x02; x07; x01; x05] io.EOF;
              closeConn_calls := []; unknownFrameHandler := None;
              handler_state := tt |}
           4 (mkstream [x04; x08; x02; x08; x02; x07; x01; x05] io.EOF)
           (mkstream [x08; x02; x08; x02; x07; x01; x05] io.EOF)
           [x08; x02; x08; x02] [x07; x01; x05]).
  - reflexivity.
  - reflexivity.
  - lia.
  - reflexivity.
  - reflexivity.
Defined.

(** X9: when the stream breaks off with an error of the transport before
    the declared bytes of a SETTINGS body have come, that error is returned
    as it is; only the unexpected end of stream that [io.ReadFull] reports
    is turned into [io.EOF].  The bytes that were there are consumed. *)
Theorem settings_transport_error (l : Z) (s : stream) (msg : string) :
  0 <= l <= 8192 ->
  Z.of_nat (length (data s)) < l ->
  final s = io.ErrOther msg ->
  parseSettingsFrame l s
  = (Err (ErrIO (io.ErrOther msg)), mkstream [] (io.ErrOther msg)) /\
  (forall (H : Type) (p : frameParser H) (s0 : stream),
     quicvarint.Read (r p) = (Ok 0x4, s0) ->
     quicvarint.Read s0 = (Ok l, s) ->
     ParseNext p
     = (Err (ErrIO (io.ErrOther msg)), set_r (mkstream [] (io.ErrOther msg)) p)).
Proof.
  intros Hl Hshort Hfin.
  assert (Hparse : parseSettingsFrame l s
                   = (Err (ErrIO (io.ErrOther msg)), mkstream [] (io.ErrOther msg))).
  { unfold parseSettingsFrame, io_ops.ReadFull. change (8 * Z.shiftl 1 10) with 8192.
    destruct (Z.gtb_spec l 8192); [lia|].
    destruct (Nat.leb_spec (Z.to_nat l) (length (data s))); [lia|].
    destruct s as [[|x d] f]; cbn in *; subst f; reflexivity. }
  split; [exact Hparse|]. intros H p s0 Et El.
  rewrite (ParseNext_settings p l s0 s Et El), Hparse. reflexivity.
Qed.

Lemma settings_transport_error_witness :
  parseSettingsFrame 4 (mkstream [x08; x01; x33] (io.ErrOther "reset"))
  = (Err (ErrIO (io.ErrOther "reset")), mkstream [] (io.ErrOther "reset")) /\
  (forall (H : Type) (p : frameParser H) (s0 : stream),
     quicvarint.Read (r p) = (Ok 0x4, s0) ->
     quicvarint.Read s0 = (Ok 4, mkstream [x08; x01; x33] (io.ErrOther "reset")) ->
     ParseNext p
     = (Err (ErrIO (io.ErrOther "reset")), set_r (mkstream [] (io.ErrOther "reset")) p)).
Proof.
  apply (settings_transport_error 4 (mkstream [x08; x01; x33] (io.ErrOther "reset"))
           "reset").
  - lia.
  - simpl. lia.
  - reflexivity.
Defined.

(** ** What the SETTINGS encoder writes *)

Lemma Len_None (x : Z) : quicvarint.Len x = None <-> quicvarint.maxVarInt8 < x.
Proof.
  unfold quicvarint.Len, quicvarint.maxVarInt1, quicvarint.maxVarInt2,
    quicvarint.maxVarInt4, quicvarint.maxVarInt8.
  repeat match goal with |- context [Z.leb ?a ?c] => destruct (Z.leb_spec a c) end;
    split; first [discriminate|lia|reflexivity].
Qed.

Lemma range_Len_None (kvs : list (Z * Z)) (l : Z) :
  range_Len kvs l = None <->
  Exists (fun kv => quicvarint.maxVarInt8 < kv.1 \/ quicvarint.maxVarInt8 < kv.2) kvs.
Proof.
  revert l. induction kvs as [|[id val] kvs IH]; intros l.
  - cbn. split; [discriminate|]. intros Hex. inversion Hex.
  - cbn [range_Len]. rewrite Exists_cons. cbn [fst snd].
    destruct (quicvarint.Len id) as [a|] eqn:Ea.
    2:{ apply Len_None in Ea. cbn. split; [auto|reflexivity]. }
    destruct (quicvarint.Len val) as [c|] eqn:Ec.
    2:{ apply Len_None in Ec. cbn. split; [auto|reflexivity]. }
    cbn [mbind option_bind]. rewrite IH.
    apply Len_Some in Ea, Ec. split; [auto|]. intros [[?|?]|?]; [lia..|assumption].
Qed.

Lemma range_Len_bound (kvs : list (Z * Z)) (l n : Z) :
  range_Len kvs l = Some n -> l <= n <= l + 16 * Z.of_nat (length kvs).
Proof.
  revert l. induction kvs as [|[id val] kvs IH]; intros l.
  - cbn. intros [= <-]. lia.
  - cbn [range_Len].
    destruct (quicvarint.Len id) as [a|] eqn:Ea; [|discriminate].
    destruct (quicvarint.Len val) as [c|] eqn:Ec; [|discriminate].
    cbn [mbind option_bind]. intros Hn. apply IH in Hn.
    apply Len_width in Ea, Ec. cbn [length]. lia.
Qed.

(** The entries an order of the map visits are the entries of the map. *)
Lemma range_of_elem (m : option (gmap Z Z)) (kvs : list (Z * Z)) (k v : Z) :
  range_of m kvs -> ((k, v) ∈ kvs <-> map_index m k = Some v).
Proof.
  unfold range_of. intros ->. rewrite elem_of_map_to_list.
  destruct m as [m|]; [reflexivity|]. simpl. rewrite lookup_empty. reflexivity.
Qed.

Lemma range_of_NoDup (m : option (gmap Z Z)) (kvs : list (Z * Z)) :
  range_of m kvs -> NoDup kvs.*1.
Proof. unfold range_of. intros ->. apply NoDup_fst_map_to_list. Qed.

(** The pairs of a frame in the order they are written. *)
Lemma settingsFrame_Append_layout (f : settingsFrame) (range1 range2 : list (Z * Z))
    (n : Z) :
  range1 ≡ₚ range2 ->
  Forall (fun kv => 0 <= kv.1 /\ 0 <= kv.2) range2 ->
  range_Len range1 0 = Some n ->
  n + 4 <= quicvarint.maxVarInt8 ->
  exists lenc body,
    (forall out, settingsFrame_Append range1 range2 f out
                 = Some (out ++ [x04] ++ lenc ++ body)) /\
    Z.of_nat (length body)
    = n + (if Datagram f then 2 else 0) + (if ExtendedConnect f then 2 else 0) /\
    (forall rest e, quicvarint.Read (mkstream (lenc ++ rest) e)
                    = (Ok (Z.of_nat (length body)), mkstream rest e)) /\
    forall tl, decodes (body ++ tl)
                 ((if Datagram f then [(settingDatagram, 1)] else []) ++
                  (if ExtendedConnect f then [(settingExtendedConnect, 1)] else []) ++
                  range2) tl.
Proof.
  intros Hperm Hnn Hn Hmax.
  assert (Hfit : Forall (fun kv => 0 <= kv.1 <= quicvarint.maxVarInt8 /\
                                   0 <= kv.2 <= quicvarint.maxVarInt8) range2).
  { pose proof (range_Len_Some _ _ _ Hn) as Hle. rewrite Hperm in Hle.
    rewrite Forall_forall in Hle, Hnn |- *. intros kv Hin.
    specialize (Hle _ Hin). specialize (Hnn _ Hin). lia. }
  destruct (range_Append_decodes range2 Hfit) as (enc & Happ & Hlen & Hdec).
  specialize (Hlen 0). rewrite <- (range_Len_perm _ _ Hperm), Hn in Hlen.
  injection Hlen as Hlen.
  set (l := n + (if Datagram f then 2 else 0) + (if ExtendedConnect f then 2 else 0)).
  set (prebytes := (if Datagram f then [x33; x01] else []) ++
                   (if ExtendedConnect f then [x08; x01] else [])).
  assert (Hbody : Z.of_nat (length (prebytes ++ enc)) = l).
  { rewrite length_app. subst l prebytes.
    destruct (Datagram f), (ExtendedConnect f); cbn [length app]; lia. }
  assert (Hl0 : 0 <= l <= quicvarint.maxVarInt8).
  { subst l. destruct (Datagram f), (ExtendedConnect f); lia. }
  destruct (Read_Append l Hl0) as (lenc & Hlapp & _ & Hlread).
  exists lenc, (prebytes ++ enc). split; [|split; [exact Hbody|split]].
  - intros out. rewrite (settingsFrame_Append_eq _ _ _ _ _ Hn). fold l.
    replace (uint64 l) with l
      by (unfold uint64, quicvarint.maxVarInt8 in *; rewrite Z.mod_small; lia).
    rewrite Hlapp. cbn [mbind option_bind]. rewrite Happ.
    subst prebytes. f_equal. cbn [app]. by rewrite <- !(assoc_L (++)).
  - intros rest e. rewrite Hbody. apply Hlread.
  - intros tl. subst prebytes. rewrite <- !(assoc_L (++)). apply decodes_flags, Hdec.
Qed.

(** X10: whenever no identifier and no value of [Other] is above 2^62 - 1,
    [settingsFrame.Append] appends the type 0x4, the length of the body as a
    variable-length integer, and a body that reads as the pair of the
    datagram flag when it is set, then the pair of the extended-connect flag
    when it is set, then the entries of [Other] in the order of the second
    loop.  Nothing restricts the identifiers in [Other] or the size of the
    body here. *)
Theorem settings_encoding_layout (f : settingsFrame) (range1 range2 : list (Z * Z)) :
  range_of (Other f) range1 ->
  range_of (Other f) range2 ->
  (forall k v, map_index (Other f) k = Some v ->
     0 <= k <= quicvarint.maxVarInt8 /\ 0 <= v <= quicvarint.maxVarInt8) ->
  Z.of_nat (length range2) <= 2 ^ 57 ->
  exists lenc body,
    (forall out, settingsFrame_Append range1 range2 f out
                 = Some (out ++ [x04] ++ lenc ++ body)) /\
    (forall rest e, quicvarint.Read (mkstream (lenc ++ rest) e)
                    = (Ok (Z.of_nat (length body)), mkstream rest e)) /\
    forall tl, decodes (body ++ tl)
                 ((if Datagram f then [(settingDatagram, 1)] else []) ++
                  (if ExtendedConnect f then [(settingExtendedConnect, 1)] else []) ++
                  range2) tl.
Proof.
  intros Hr1 Hr2 Hfit Hsize.
  assert (Hperm : range1 ≡ₚ range2) by (unfold range_of in *; rewrite Hr1, Hr2; done).
  assert (Hfit1 : Forall (fun kv => 0 <= kv.1 <= quicvarint.maxVarInt8 /\
                                    0 <= kv.2 <= quicvarint.maxVarInt8) range1).
  { rewrite Forall_forall. intros [k v] Hin.
    apply (range_of_elem _ _ k v Hr1) in Hin. exact (Hfit _ _ Hin). }
  destruct (range_Append_decodes range1 Hfit1) as (enc1 & _ & Hlen1 & _).
  specialize (Hlen1 0). cbn [Z.add] in Hlen1.
  pose proof (range_Len_bound _ _ _ Hlen1) as Hb.
  rewrite (Permutation_length Hperm) in Hb.
  destruct (settingsFrame_Append_layout f range1 range2
              (0 + Z.of_nat (length enc1)) Hperm)
    as (lenc & body & Happ & _ & Hread & Hdec); [| exact Hlen1 | |].
  - rewrite <- Hperm. eapply Forall_impl; [exact Hfit1|]. cbn. intros; lia.
  - unfold quicvarint.maxVarInt8. lia.
  - exists lenc, body. auto.
Qed.

Lemma settings_encoding_layout_witness :
  exists lenc body,
    (forall out, settingsFrame_Append [(8, 7); (51, 1)] [(51, 1); (8, 7)]
                   {| Datagram := true; ExtendedConnect := false;
                      Other := Some {[ 8 := 7; 51 := 1 ]} |} out
                 = Some (out ++ [x04] ++ lenc ++ body)) /\
    (forall rest e, quicvarint.Read (mkstream (lenc ++ rest) e)
                    = (Ok (Z.of_nat (length body)), mkstream rest e)) /\
    forall tl, decodes (body ++ tl) ([(settingDatagram, 1)] ++ [] ++ [(51, 1); (8, 7)]) tl.
Proof.
  apply (settings_encoding_layout
           {| Datagram := true; ExtendedConnect := false;
              Other := Some {[ 8 := 7; 51 := 1 ]} |} [(8, 7); (51, 1)] [(51, 1); (8, 7)]).
  - unfold range_of. vm_compute. apply perm_swap.
  - unfold range_of. vm_compute. reflexivity.
  - intros k v. cbn [Other map_index mbind option_bind].
    intros Hkv. apply lookup_insert_Some in Hkv as [[<- <-]|[_ Hkv]].
    + unfold quicvarint.maxVarInt8. lia.
    + apply lookup_singleton_Some in Hkv as [<- <-]. unfold quicvarint.maxVarInt8. lia.
  - simpl. lia.
Defined.

(** X11: with [Other] holding unsigned identifiers and values,
    [settingsFrame.Append] panics exactly when an identifier or a value of
    [Other] is above 2^62 - 1, the largest variable-length integer; the
    panic is the one of [quicvarint.Len] in the first loop. *)
Theorem settingsFrame_Append_panics (f : settingsFrame) (range1 range2 : list (Z * Z))
    (out : list byte) :
  range_of (Other f) range1 ->
  range_of (Other f) range2 ->
  (forall k v, map_index (Other f) k = Some v -> 0 <= k /\ 0 <= v) ->
  Z.of_nat (length range2) <= 2 ^ 57 ->
  (settingsFrame_Append range1 range2 f out = None <->
   exists k v, map_index (Other f) k = Some v /\
               (quicvarint.maxVarInt8 < k \/ quicvarint.maxVarInt8 < v)) /\
  (range_Len range1 0 = None <-> settingsFrame_Append range1 range2 f out = None).
Proof.
  intros Hr1 Hr2 Hnn Hsize.
  assert (Hperm : range1 ≡ₚ range2) by (unfold range_of in *; rewrite Hr1, Hr2; done).
  assert (Hnone : range_Len range1 0 = None ->
            settingsFrame_Append range1 range2 f out = None).
  { intros Hn. unfold settingsFrame_Append. rewrite Append_0x4, Hn. reflexivity. }
  assert (Hsome : forall n, range_Len range1 0 = Some n ->
            settingsFrame_Append range1 range2 f out <> None).
  { intros n Hn. pose proof (range_Len_bound _ _ _ Hn) as Hb.
    rewrite (Permutation_length Hperm) in Hb.
    destruct (settingsFrame_Append_layout f range1 range2 n Hperm)
      as (lenc & body & Happ & _); [| exact Hn | |].
    - rewrite Forall_forall. intros [k v] Hin.
      apply (range_of_elem _ _ k v Hr2) in Hin. exact (Hnn _ _ Hin).
    - unfold quicvarint.maxVarInt8. lia.
    - rewrite Happ. discriminate. }
  split; [|split; [exact Hnone|]].
  - split.
    + intros Happ. destruct (range_Len range1 0) as [n|] eqn:Hn.
      * exfalso. exact (Hsome n eq_refl Happ).
      * apply (proj1 (range_Len_None range1 0)) in Hn.
        apply Exists_exists in Hn as ([k v] & Hin & Hbig).
        exists k, v. split; [|exact Hbig]. apply (range_of_elem _ _ k v Hr1), Hin.
    + intros (k & v & Hkv & Hbig). apply Hnone, range_Len_None, Exists_exists.
      exists (k, v). split; [|exact Hbig]. apply (range_of_elem _ _ k v Hr1), Hkv.
  - intros Happ. destruct (range_Len range1 0) as [n|] eqn:Hn; [|reflexivity].
    exfalso. exact (Hsome n eq_refl Happ).
Qed.

Lemma settingsFrame_Append_panics_witness :
  settingsFrame_Append [(13, 2 ^ 62)] [(13, 2 ^ 62)]
    {| Datagram := false; ExtendedConnect := false; Other := Some {[ 13 := 2 ^ 62 ]} |} []
  = None.
Proof.
  refine (proj2 (proj1 (settingsFrame_Append_panics
           {| Datagram := false; ExtendedConnect := false;
              Other := Some {[ 13 := 2 ^ 62 ]} |} [(13, 2 ^ 62)] [(13, 2 ^ 62)] []
           _ _ _ _)) _).
  - unfold range_of. simpl. rewrite map_to_list_singleton. reflexivity.
  - unfold range_of. simpl. rewrite map_to_list_singleton. reflexivity.
  - intros k v. cbn [Other map_index mbind option_bind].
    intros [<- <-]%lookup_singleton_Some. lia.
  - simpl. lia.
  - exists 13, (2 ^ 62). split; [apply lookup_singleton_Some; auto|].
    right. unfold quicvarint.maxVarInt8. lia.
Defined.

(** X12: [settingsFrame.Append] does not look for 0x8 or 0x33 in [Other].
    A frame that has a flag set and an entry for that flag's identifier in
    [Other] is encoded with that identifier twice: the body reads as the
    pairs of the flags followed by the entries of [Other], among them the
    flag's pair [(k, 1)] and the entry [(k, v)].  [ParseNext] rejects the
    encoding and leaves the reader behind the frame.  The error is the one
    of the first offending pair of the body, and there is only one such
    error: the duplicate-setting error when the first entry of [Other] that
    offends has the identifier of a set flag, whatever its value, and the
    invalid-value error when it is an entry for 0x8 or 0x33 whose flag is
    not set and whose value is neither 0 nor 1.  When the entries of
    [Other] for 0x8 and 0x33 all hold 0 or 1, the error is the
    duplicate-setting error of the identifier of a set flag. *)
Theorem settings_collision_rejected {H} (p : frameParser H) (f : settingsFrame)
    (range1 range2 : list (Z * Z)) (n : Z) (enc more : list byte) (fin : io.error) :
  range_of (Other f) range1 ->
  range_of (Other f) range2 ->
  (forall k v, map_index (Other f) k = Some v -> 0 <= k /\ 0 <= v) ->
  range_Len range1 0 = Some n ->
  n + (if Datagram f then 2 else 0) + (if ExtendedConnect f then 2 else 0) <= 8192 ->
  (Datagram f = true /\ is_Some (map_index (Other f) settingDatagram)) \/
  (ExtendedConnect f = true /\ is_Some (map_index (Other f) settingExtendedConnect)) ->
  settingsFrame_Append range1 range2 f [] = Some enc ->
  r p = mkstream (enc ++ more) fin ->
  let flags := (if Datagram f then [(settingDatagram, 1)] else []) ++
               (if ExtendedConnect f then [(settingExtendedConnect, 1)] else []) in
  exists lenc body e,
    enc = [x04] ++ lenc ++ body /\
    decodes body (flags ++ range2) [] /\
    (exists k v, ((k, 1) ∈ flags) /\ ((k, v) ∈ range2)) /\
    ParseNext p = (Err e, set_r (mkstream more fin) p) /\
    first_offence ∅ (flags ++ range2) e /\
    (forall e', first_offence ∅ (flags ++ range2) e' -> e' = e) /\
    (Forall valid_pair range2 ->
     exists k, ((k, 1) ∈ flags) /\ is_Some (map_index (Other f) k) /\
               e = ErrDuplicateSetting k).
Proof.
  intros Hr1 Hr2 Hnn Hn Hl Hcoll Henc Hp flags.
  assert (Hperm : range1 ≡ₚ range2) by (unfold range_of in *; rewrite Hr1, Hr2; done).
  destruct (settingsFrame_Append_layout f range1 range2 n Hperm)
    as (lenc & body & Happ & Hlen & Hread & Hdec); [| exact Hn | |].
  { rewrite Forall_forall. intros [k v] Hin.
    apply (range_of_elem _ _ k v Hr2) in Hin. exact (Hnn _ _ Hin). }
  { unfold quicvarint.maxVarInt8.
    destruct (Datagram f), (ExtendedConnect f); lia. }
  rewrite Happ in Henc. injection Henc as <-. cbn [app] in Hp.
  rewrite <- !(assoc_L (++)) in Hp.
  specialize (Hdec []). rewrite app_nil_r, (assoc_L (++)) in Hdec. fold flags in Hdec.
  assert (Htwice : exists k v, ((k, 1) ∈ flags) /\ ((k, v) ∈ range2)).
  { subst flags.
    destruct Hcoll as [[Hdg [v Hv]]|[Hec [v Hv]]];
      apply (range_of_elem _ _ _ _ Hr2) in Hv.
    - exists settingDatagram, v. rewrite Hdg. split; [set_solver|exact Hv].
    - exists settingExtendedConnect, v. rewrite Hec. split; [set_solver|exact Hv]. }
  assert (Hflagkeys : forall k, k ∈ flags.*1 -> (k, 1) ∈ flags).
  { subst flags. intros k.
    destruct (Datagram f), (ExtendedConnect f); cbn; set_solver. }
  assert (Hflags_ok : NoDup flags.*1 /\ Forall valid_pair flags).
  { subst flags. unfold valid_pair, settingDatagram, settingExtendedConnect.
    destruct (Datagram f), (ExtendedConnect f); cbn [app fmap list_fmap fst]; split;
      repeat first [apply NoDup_cons; split; [set_solver|]
                   |apply NoDup_nil_2
                   |apply Forall_cons; split; [cbn [fst snd]; auto|]
                   |apply Forall_nil_2]. }
  rewrite (ParseNext_settings p (Z.of_nat (length body))
             (mkstream (lenc ++ body ++ more) fin) (mkstream (body ++ more) fin))
    by (rewrite ?Hp; first [reflexivity|apply Hread]).
  rewrite (parseSettingsFrame_decodes _ _ _ _ _ Hdec) by lia.
  pose proof (settings_pairs_seen (flags ++ range2) ∅ (settings_start body)
                (seen_by_start body)) as Hs.
  destruct (settings_pairs (flags ++ range2) (settings_start body)) as [[[]|e] st'].
  { exfalso. destruct Hs as (Hnd & _). destruct Htwice as (k & v & Hk1 & Hkv).
    rewrite fmap_app in Hnd. apply NoDup_app in Hnd as (_ & Hdisj & _).
    apply (Hdisj k).
    - apply list_elem_of_fmap. exists (k, 1). auto.
    - apply list_elem_of_fmap. exists (k, v). auto. }
  exists lenc, body, e.
  split; [reflexivity|]. split; [exact Hdec|]. split; [exact Htwice|].
  split; [reflexivity|]. split; [exact Hs|].
  split; [intros e' He'; exact (first_offence_unique _ _ _ _ Hs He')|].
  intros Hvalid.
  destruct Hs as (pre & id & val & post & Heq & (Hnd & _ & _) & Hoff).
  assert (Hall : Forall valid_pair (pre ++ (id, val) :: post)).
  { rewrite <- Heq. apply Forall_app. split; [tauto|exact Hvalid]. }
  apply Forall_app in Hall as [_ Hall]. apply Forall_cons in Hall as [Hv _].
  unfold valid_pair in Hv. cbn [fst snd] in Hv.
  destruct Hoff as [[[Hin|Hin] ->]|[(_ & _ & -> & H0 & H1 & _)|(_ & _ & -> & H0 & H1 & _)]].
  - set_solver.
  - assert (Hocc : (id ∈ flags.*1) /\ (id ∈ range2.*1)).
    { apply list_elem_of_split in Hin as (p1 & p2 & Hpre).
      apply (twice_in_app flags.*1 range2.*1 p1 p2 post.*1 id).
      - rewrite <- fmap_app, Heq, fmap_app, Hpre, <- (assoc_L (++)). reflexivity.
      - tauto.
      - exact (range_of_NoDup _ _ Hr2). }
    destruct Hocc as [Hf Hr2']. exists id. split; [exact (Hflagkeys _ Hf)|].
    split; [|reflexivity].
    apply list_elem_of_fmap in Hr2' as ([k v] & -> & Hkv). cbn [fst].
    exists v. apply (range_of_elem _ _ k v Hr2). exact Hkv.
  - destruct Hv; [left; reflexivity|contradiction..].
  - destruct Hv; [right; reflexivity|contradiction..].
Qed.

Lemma settings_collision_rejected_witness :
  let p := {| r := mkstream ([x04; x04; x33; x01; x33; x05] ++ [xff]) io.EOF;
              closeConn_calls := []; unknownFrameHandler := None;
              handler_state := tt |} in
  let flags := [(settingDatagram, 1)] ++ [] in
  exists lenc body e,
    [x04; x04; x33; x01; x33; x05] = [x04] ++ lenc ++ body /\
    decodes body (flags ++ [(51, 5)]) [] /\
    (exists k v, ((k, 1) ∈ flags) /\ ((k, v) ∈ [(51, 5)])) /\
    ParseNext p = (Err e, set_r (mkstream [xff] io.EOF) p) /\
    first_offence ∅ (flags ++ [(51, 5)]) e /\
    (forall e', first_offence ∅ (flags ++ [(51, 5)]) e' -> e' = e) /\
    (Forall valid_pair [(51, 5)] ->
     exists k, ((k, 1) ∈ flags) /\ is_Some (map_index (Some {[ 51 := 5 ]}) k) /\
               e = ErrDuplicateSetting k).
Proof.
  intros p.
  refine (settings_collision_rejected p
            {| Datagram := true; ExtendedConnect := false; Other := Some {[ 51 := 5 ]} |}
            [(51, 5)] [(51, 5)] 2 [x04; x04; x33; x01; x33; x05] [xff] io.EOF
            _ _ _ eq_refl _ _ eq_refl eq_refl).
  - unfold range_of. simpl. rewrite map_to_list_singleton. reflexivity.
  - unfold range_of. simpl. rewrite map_to_list_singleton. reflexivity.
  - intros k v. cbn [Other map_index mbind option_bind].
    intros [<- <-]%lookup_singleton_Some. lia.
  - simpl. lia.
  - left. split; [reflexivity|]. exists 5. reflexivity.
Defined.

(** The frame with the datagram flag set and the entry [0x33: 5] in
    [Other]: the entry repeats the identifier of the flag's pair, and the
    error is the duplicate-setting error, not the invalid-value error of
    the 5. *)
Example settings_collision_duplicate_first :
  settingsFrame_Append [(51, 5)] [(51, 5)]
    {| Datagram := true; ExtendedConnect := false; Other := Some {[ 51 := 5 ]} |} []
  = Some [x04; x04; x33; x01; x33; x05] /\
  ParseNext {| r := mkstream [x04; x04; x33; x01; x33; x05] io.EOF;
               closeConn_calls := []; unknownFrameHandler := None;
               handler_state := tt |}
  = (Err (ErrDuplicateSetting 51),
     {| r := mkstream [] io.EOF; closeConn_calls := [];
        unknownFrameHandler := None; handler_state := tt |}).
Proof. split; reflexivity. Qed.

(** ** What [ParseNext] leaves alone *)

(** The induction principle of a loop: a property of the initial state and
    the outcome that every leaving turn establishes and every other turn
    carries back. *)
Lemma for_loop_post {S A} (body : M S (option A)) (mu : S -> nat)
    (Hdec : forall s s', body s = (Ok None, s') -> (mu s' < mu s)%nat)
    (P : S -> result A * S -> Prop) :
  (forall s,
     match body s with
     | (Err e, s') => P s (Err e, s')
     | (Ok (Some a), s') => P s (Ok a, s')
     | (Ok None, s') => forall out, P s' out -> P s out
     end) ->
  forall s, P s (for_loop body mu Hdec s).
Proof.
  intros Hstep s. remember (mu s) as n eqn:Hn. revert s Hn.
  induction n as [n IH] using lt_wf_ind. intros s ->.
  rewrite for_loop_eq. specialize (Hstep s).
  destruct (body s) as [[[a|]|e] s'] eqn:E; try exact Hstep.
  apply Hstep. apply (IH (mu s')); [apply Hdec; exact E|reflexivity].
Qed.

Lemma settings_switch_not_hijacked (id val : Z) (st st' : settings_locals) (e : error) :
  settings_switch id val st = (Err e, st') -> e <> errHijacked.
Proof.
  unfold settings_switch, bind, get, modify, fail.
  repeat match goal with
         | |- context [if ?c then _ else _] => destruct c
         | |- context [match ?c with Some _ => _ | None => _ end] => destruct c
         end; intros [= <- _]; discriminate.
Qed.

Lemma settings_loop_not_hijacked (st : settings_locals) :
  (settings_loop st).1 <> Err errHijacked.
Proof.
  unfold settings_loop.
  apply (for_loop_invariant _ _ _ (fun _ => True) (fun x => x <> Err errHijacked));
    [|exact I].
  clear st. intros st _. unfold settings_body, bind, get, ret, on_b.
  destruct (negb (bytes_Len (b st) >? 0)); [discriminate|].
  destruct (quicvarint.Read (b st)) as [[id|e] b1] eqn:E1.
  2:{ apply Read_stream_Err in E1 as ->. discriminate. }
  cbn [b set_b].
  destruct (quicvarint.Read b1) as [[val|e] b2] eqn:E2.
  2:{ apply Read_stream_Err in E2 as ->. discriminate. }
  destruct (settings_switch id val _) as [[[]|e] st2] eqn:E3; [exact I|].
  apply settings_switch_not_hijacked in E3. congruence.
Qed.

(** [parseSettingsFrame] takes bytes from the front of the stream and
    never answers [errHijacked]. *)
Lemma parseSettingsFrame_stream (l : Z) (s s' : stream) (x : result settingsFrame) :
  parseSettingsFrame l s = (x, s') ->
  final s' = final s /\ (exists pre, data s = pre ++ data s') /\
  x <> Err errHijacked.
Proof.
  unfold parseSettingsFrame, io_ops.ReadFull.
  destruct (l >? _); [intros [= <- <-]; split_and!; [done|by exists []|done]|].
  destruct (Z.to_nat l <=? length (data s))%nat.
  - intros [= <- <-]. cbn [data final]. split_and!; [done| |].
    + exists (take (Z.to_nat l) (data s)). by rewrite take_drop.
    + apply settings_loop_not_hijacked.
  - destruct (data s) as [|y d] eqn:Ed.
    + assert (Hx : forall e, Err (A := settingsFrame) (ErrIO e) <> Err errHijacked)
        by discriminate.
      destruct (final s) eqn:Ef; intros [= <- <-]; rewrite ?Ef;
        (split_and!; [reflexivity| |apply Hx]); exists []; by rewrite Ed.
    + assert (Hx : forall e, Err (A := settingsFrame) (ErrIO e) <> Err errHijacked)
        by discriminate.
      destruct (io.is_EOF (final s)); [|destruct (final s) eqn:Ef]; intros [= <- <-];
        cbn [data final]; (split_and!; [reflexivity| |apply Hx]);
        exists (y :: d); by rewrite app_nil_r.
Qed.

Section Effects.
Context {H : Type}.
Implicit Types (p : frameParser H).

Lemma advanced_refl p : advanced p p.
Proof. unfold advanced. split_and!; try done. by exists []. Qed.

Lemma advanced_trans p1 p2 p3 : advanced p1 p2 -> advanced p2 p3 -> advanced p1 p3.
Proof.
  intros (Hh1 & Hc1 & Hf1 & [pre1 Hd1] & Hs1) (Hh2 & Hc2 & Hf2 & [pre2 Hd2] & Hs2).
  unfold advanced. split_and!; try congruence.
  - exists (pre1 ++ pre2). rewrite Hd1, Hd2. by rewrite (assoc_L (++)).
  - intros Hn. rewrite Hs2, Hs1; congruence.
Qed.

Lemma advanced_set_r p (s' : stream) :
  final s' = final (r p) -> (exists pre, data (r p) = pre ++ data s') ->
  advanced p (set_r s' p).
Proof. intros Hf Hd. unfold advanced. cbn. split_and!; done. Qed.

Lemma Read_advanced p p' (x : result Z) :
  quicvarint.Read p = (x, p') -> advanced p p' /\ x <> Err errHijacked.
Proof.
  rewrite Read_frameParser. unfold on_r.
  destruct (quicvarint.Read (r p)) as [y s'] eqn:E. intros [= <- <-]. split.
  - apply Read_stream in E as [Hf Hd]. apply advanced_set_r; assumption.
  - destruct y as [v|e]; [discriminate|].
    apply Read_stream_Err in E as ->. discriminate.
Qed.

Lemma consult_advanced (t : FrameType) (e : option error) p p' (x : result unit) :
  consult t e p = (x, p') ->
  advanced p p' /\ (unknownFrameHandler p = None -> x = Ok tt).
Proof.
  unfold consult, bind, get, call_handler, after_handler, fail, ret.
  destruct (unknownFrameHandler p) as [h|] eqn:Eh.
  - destruct (h t e (handler_state p)) as [[hij [err|]] hs]; simpl;
      [|destruct hij]; intros [= <- <-];
      (split; [|discriminate]); unfold advanced; cbn;
      (split_and!; [done|done|done|by exists []|rewrite Eh; discriminate]).
  - intros [= <- <-]. split; [apply advanced_refl|reflexivity].
Qed.

Lemma skip_advanced (l : Z) p p' (x : result (option frame)) :
  skip l p = (x, p') -> advanced p p' /\ x <> Err errHijacked.
Proof.
  unfold skip, bind, on_r, io_ops.CopyN_Discard, ret.
  destruct (int64 l <? 0).
  { intros [= <- <-]. split; [|discriminate].
    apply advanced_set_r; [done|by exists []]. }
  destruct (int64 l <=? _); intros [= <- <-]; (split; [|discriminate]);
    apply advanced_set_r; cbn [data final]; try done.
  - exists (take (Z.to_nat (int64 l)) (data (r p))). by rewrite take_drop.
  - exists (data (r p)). by rewrite app_nil_r.
Qed.

Lemma parseGoAwayFrame_advanced (l : Z) p p' (x : result goAwayFrame) :
  parseGoAwayFrame l p = (x, p') -> advanced p p' /\ x <> Err errHijacked.
Proof.
  unfold parseGoAwayFrame. rewrite Read_counting.
  destruct (quicvarint.Read p) as [[id|e] p1] eqn:E; apply Read_advanced in E as [Ha He];
    cbn [inner Read].
  - destruct (negb _); intros [= <- <-]; (split; [exact Ha|discriminate]).
  - intros [= <- <-]. split; [exact Ha|congruence].
Qed.

(** One turn of the loop: it reads, and calls [closeConn] only to leave
    with the error of a reserved type; without a callback it does not
    answer [errHijacked]. *)
Lemma ParseNext_body_effects p p' (x : result (option frame)) :
  ParseNext_body p = (x, p') ->
  (advanced p p' \/
   exists t p1,
     (t = 0x2 \/ t = 0x6 \/ t = 0x8 \/ t = 0x9) /\
     x = Err (ErrReservedFrameType t) /\ advanced p p1 /\
     p' = add_closeConn_call (ErrCodeFrameUnexpected, "") p1) /\
  (unknownFrameHandler p = None -> x <> Err errHijacked).
Proof.
  unfold ParseNext_body.
  destruct (quicvarint.Read p) as [[t|e] p1] eqn:E1;
    apply Read_advanced in E1 as [A1 N1].
  2:{ unfold bind, fail.
      destruct (consult 0 (Some e) p1) as [[[]|e'] p2] eqn:E2;
        apply consult_advanced in E2 as [A2 N2]; intros [= <- <-].
      - split; [left; exact (advanced_trans _ _ _ A1 A2)|]. intros _. congruence.
      - split; [left; exact (advanced_trans _ _ _ A1 A2)|]. intros Hn.
        destruct A1 as [Hh1 _]. rewrite Hh1 in N2. specialize (N2 Hn). discriminate. }
  unfold after_type, bind at 1.
  destruct ((if t >? 13 then consult t None else ret tt) p1) as [[[]|e] p2] eqn:E2.
  2:{ intros [= <- <-]. destruct (t >? 13); [|discriminate E2].
      apply consult_advanced in E2 as [A2 N2].
      split; [left; exact (advanced_trans _ _ _ A1 A2)|]. intros Hn.
      destruct A1 as [Hh1 _]. rewrite Hh1 in N2. specialize (N2 Hn). discriminate. }
  assert (A2 : advanced p1 p2).
  { destruct (t >? 13); [apply consult_advanced in E2; tauto|].
    injection E2 as <-. apply advanced_refl. }
  clear E2. pose proof (advanced_trans _ _ _ A1 A2) as A12.
  unfold bind at 1.
  destruct (quicvarint.Read p2) as [[l|e] p3] eqn:E3;
    apply Read_advanced in E3 as [A3 N3].
  2:{ intros [= <- <-]. split; [left; exact (advanced_trans _ _ _ A12 A3)|].
      intros _. congruence. }
  pose proof (advanced_trans _ _ _ A12 A3) as A.
  assert (Hskip : skip l p3 = (x, p') ->
            (advanced p p' \/
             exists t p1,
               (t = 0x2 \/ t = 0x6 \/ t = 0x8 \/ t = 0x9) /\
               x = Err (ErrReservedFrameType t) /\ advanced p p1 /\
               p' = add_closeConn_call (ErrCodeFrameUnexpected, "") p1) /\
            (unknownFrameHandler p = None -> x <> Err errHijacked)).
  { intros Es. apply skip_advanced in Es as [As Ns].
    split; [left; exact (advanced_trans _ _ _ A As)|]. intros _. exact Ns. }
  destruct (Z.eqb_spec t 0); [intros [= <- <-]; split; [left; exact A|discriminate]|].
  destruct (Z.eqb_spec t 1); [intros [= <- <-]; split; [left; exact A|discriminate]|].
  destruct (Z.eqb_spec t 4).
  { unfold bind, on_r, ret.
    destruct (parseSettingsFrame l (r p3)) as [[f|e'] s4] eqn:E4;
      apply parseSettingsFrame_stream in E4 as (Hf & Hd & Ne); intros [= <- <-].
    - split; [left|discriminate].
      exact (advanced_trans _ _ _ A (advanced_set_r _ _ Hf Hd)).
    - split; [left; exact (advanced_trans _ _ _ A (advanced_set_r _ _ Hf Hd))|].
      intros _. congruence. }
  destruct (Z.eqb_spec t 3); [exact Hskip|].
  destruct (Z.eqb_spec t 5); [exact Hskip|].
  destruct (Z.eqb_spec t 7).
  { unfold bind, ret.
    destruct (parseGoAwayFrame l p3) as [[f|e'] p4] eqn:E4;
      apply parseGoAwayFrame_advanced in E4 as [A4 N4]; intros [= <- <-].
    - split; [left; exact (advanced_trans _ _ _ A A4)|discriminate].
    - split; [left; exact (advanced_trans _ _ _ A A4)|]. intros _. congruence. }
  destruct (Z.eqb_spec t 13); [exact Hskip|].
  destruct ((t =? 2) || (t =? 6) || (t =? 8) || (t =? 9)) eqn:Er; [|exact Hskip].
  unfold bind, closeConn, modify, fail. intros [= <- <-].
  split; [|discriminate]. right. exists t, p3.
  split; [|split; [reflexivity|split; [exact A|reflexivity]]].
  apply orb_true_iff in Er as [Er|Er]; [|apply Z.eqb_eq in Er; auto].
  apply orb_true_iff in Er as [Er|Er]; [|apply Z.eqb_eq in Er; auto].
  apply orb_true_iff in Er as [Er|Er]; apply Z.eqb_eq in Er; auto.
Qed.

End Effects.

(** X13: whatever the input, [ParseNext] only reads and calls the callback:
    the parser it leaves has the same callback, a reader with the same
    final error that holds a suffix of the bytes and, when there is no
    callback, the same callback state.  It calls [closeConn] at most once,
    with the code [ErrCodeFrameUnexpected] and no reason, as its last act,
    and then returns the error of a reserved frame type 0x2, 0x6, 0x8 or
    0x9. *)
Theorem ParseNext_effects {H} (p : frameParser H) :
  advanced p (ParseNext p).2 \/
  exists t p1,
    (t = 0x2 \/ t = 0x6 \/ t = 0x8 \/ t = 0x9) /\
    (ParseNext p).1 = Err (ErrReservedFrameType t) /\ advanced p p1 /\
    (ParseNext p).2 = add_closeConn_call (ErrCodeFrameUnexpected, "") p1.
Proof.
  unfold ParseNext.
  apply (for_loop_post ParseNext_body _ _
           (fun p out =>
              advanced p out.2 \/
              exists t p1,
                (t = 0x2 \/ t = 0x6 \/ t = 0x8 \/ t = 0x9) /\
                out.1 = Err (ErrReservedFrameType t) /\ advanced p p1 /\
                out.2 = add_closeConn_call (ErrCodeFrameUnexpected, "") p1)).
  clear p. intros p.
  destruct (ParseNext_body p) as [x p'] eqn:E.
  apply ParseNext_body_effects in E as [[A|(t & p1 & Ht & Hx & A & Hp)] _].
  - destruct x as [[a|]|e]; cbn [fst snd]; auto.
    intros out [A'|(t & p1 & Ht & Hx & A' & Hp)]; [left|right].
    + exact (advanced_trans _ _ _ A A').
    + exists t, p1. split_and!; try done. exact (advanced_trans _ _ _ A A').
  - subst x. cbn [fst snd]. right. exists t, p1. auto.
Qed.

(** X14: a parser without a callback never returns [errHijacked]. *)
Theorem no_callback_never_hijacked {H} (p : frameParser H) :
  unknownFrameHandler p = None -> (ParseNext p).1 <> Err errHijacked.
Proof.
  unfold ParseNext.
  apply (for_loop_post ParseNext_body _ _
           (fun p out => unknownFrameHandler p = None -> out.1 <> Err errHijacked)).
  clear p. intros p.
  destruct (ParseNext_body p) as [x p'] eqn:E.
  apply ParseNext_body_effects in E as [Hadv Hn].
  destruct x as [[a|]|e]; cbn [fst];
    [discriminate| |intros Hnone; specialize (Hn Hnone); congruence].
  intros out IH Hnone. apply IH.
  destruct Hadv as [(Hh & _)|(t & p1 & _ & [=] & _)]. congruence.
Qed.

Lemma no_callback_never_hijacked_witness :
  (ParseNext {| r := mkstream [x21; x01; xaa; x40] io.EOF; closeConn_calls := [];
                unknownFrameHandler := None; handler_state := tt |}).1
  <> Err errHijacked.
Proof.
  apply (no_callback_never_hijacked
           {| r := mkstream [x21; x01; xaa; x40] io.EOF; closeConn_calls := [];
              unknownFrameHandler := None; handler_state := tt |}).
  reflexivity.
Defined.

(** ** Frames the dispatcher skips *)

Lemma Read_stream_Err_data (s s' : stream) (e : error) :
  quicvarint.Read s = (Err e, s') -> data s' = [].
Proof.
  assert (Hm : forall n acc s, quicvarint.read_more n acc s = (Err e, s') -> data s' = []).
  { clear s. induction n as [|n IH]; intros acc s; [discriminate|].
    cbn [quicvarint.read_more]. unfold bind, ReadByte at 1, stream_ByteReader.
    destruct s as [[|y d] f]; cbn [data final].
    - intros [= _ <-]. reflexivity.
    - apply IH. }
  unfold quicvarint.Read, bind, ReadByte at 1, stream_ByteReader.
  destruct s as [[|y d] f]; cbn [data final].
  - intros [= _ <-]. reflexivity.
  - apply Hm.
Qed.

Section Skipped.
Context {H : Type}.
Implicit Types (p : frameParser H) (h : unknownFrameHandlerFunc H).

Lemma set_handler_state_same p : set_handler_state (handler_state p) p = p.
Proof. destruct p; reflexivity. Qed.

Lemma set_r_same p : set_r (r p) p = p.
Proof. destruct p; reflexivity. Qed.

Lemma after_type_unassigned p (t : FrameType) :
  t = 0xa \/ t = 0xb \/ t = 0xc ->
  after_type t p = (let* l := quicvarint.Read in skip l) p.
Proof.
  intros Ht. unfold after_type, bind at 1.
  replace (t >? 13) with false by (destruct Ht as [-> | [-> | ->]]; reflexivity).
  unfold ret at 1. unfold bind.
  destruct (quicvarint.Read p) as [[l|e] p1]; [|reflexivity].
  destruct Ht as [-> | [-> | ->]]; reflexivity.
Qed.

Lemma after_type_skipped p (t : FrameType) (hs' : H) :
  skipped_type p t hs' ->
  after_type t p = (let* l := quicvarint.Read in skip l) (set_handler_state hs' p).
Proof.
  intros [[Ht ->]|[Ht Hcb]].
  - rewrite set_handler_state_same.
    destruct Ht as [Ht|[Ht|[Ht|[Ht|[Ht|Ht]]]]];
      first [apply after_type_reserved_unused; auto; fail
            |apply after_type_unassigned; auto].
  - destruct (unknownFrameHandler p) as [h|] eqn:Hh.
    + exact (after_type_extension p h t false None hs' Ht Hh Hcb).
    + subst hs'. rewrite set_handler_state_same.
      exact (after_type_extension_no_callback p t Ht Hh).
Qed.

(** Reading the length and skipping a body that is cut short. *)
Lemma read_length_and_skip_short p (l : Z) (s2 : stream) :
  quicvarint.Read (r p) = (Ok l, s2) ->
  Z.of_nat (length (data s2)) < l ->
  (let* l := quicvarint.Read in skip l) p
  = (Err (ErrIO (final s2)), set_r (mkstream [] (final s2)) p).
Proof.
  intros El Hshort. unfold bind at 1. rewrite (Read_parser _ _ _ El).
  apply Read_Ok in El as (_ & _ & _ & Hl).
  unfold skip, bind, on_r, io_ops.CopyN_Discard. rewrite (int64_small l Hl).
  cbn [r set_r].
  destruct (Z.ltb_spec l 0); [lia|].
  destruct (Z.leb_spec l (Z.of_nat (length (data s2)))); [lia|]. reflexivity.
Qed.

(** After the type tag, a length that cannot be read. *)
Lemma after_type_no_length p (t : FrameType) (e : error) (s2 : stream) :
  t <= 0xd ->
  quicvarint.Read (r p) = (Err e, s2) ->
  after_type t p = (Err e, set_r s2 p).
Proof.
  intros Ht El. unfold after_type, bind at 1.
  destruct (Z.gtb_spec t 13); [lia|]. unfold ret at 1. unfold bind.
  rewrite (Read_parser _ _ _ El). reflexivity.
Qed.
End Skipped.

(** X15: a frame of type 0xa, 0xb or 0xc, for which the dispatch has no
    case, is skipped like an unknown frame, but the callback is not
    consulted for it, registered or not: the turn of the loop consumes the
    header and the [l] bytes of the body and changes nothing else, and
    [ParseNext] goes on with what follows. *)
Theorem unassigned_type_skipped {H} (p : frameParser H) (t l : Z) (s1 s2 : stream)
    (body rest : list byte) :
  t = 0xa \/ t = 0xb \/ t = 0xc ->
  quicvarint.Read (r p) = (Ok t, s1) ->
  quicvarint.Read s1 = (Ok l, s2) ->
  data s2 = body ++ rest ->
  Z.of_nat (length body) = l ->
  ParseNext_body p = (Ok None, set_r (mkstream rest (final s2)) p) /\
  ParseNext p = ParseNext (set_r (mkstream rest (final s2)) p).
Proof.
  intros Ht Et El Hdata Hlen.
  assert (Hbody : ParseNext_body p = (Ok None, set_r (mkstream rest (final s2)) p)).
  { rewrite (ParseNext_body_type _ _ _ Et), (after_type_unassigned _ _ Ht).
    exact (read_length_and_skip (set_r s1 p) l s2 body rest El Hdata Hlen). }
  split; [exact Hbody|]. rewrite ParseNext_eq, Hbody. reflexivity.
Qed.

Lemma unassigned_type_skipped_witness :
  let p := {| r := mkstream [x0b; x02; xaa; xbb; x00; x05] io.EOF;
              closeConn_calls := [];
              unknownFrameHandler := Some (recording_handler (true, None));
              handler_state := [] |} in
  ParseNext_body p = (Ok None, set_r (mkstream [x00; x05] io.EOF) p) /\
  ParseNext p = ParseNext (set_r (mkstream [x00; x05] io.EOF) p).
Proof.
  intros p.
  exact (unassigned_type_skipped p 0xb 2 (mkstream [x02; xaa; xbb; x00; x05] io.EOF)
           (mkstream [xaa; xbb; x00; x05] io.EOF) [xaa; xbb] [x00; x05]
           ltac:(right; left; reflexivity) eq_refl eq_refl eq_refl eq_refl).
Defined.

(** X16: when the body of a frame that is to be skipped is shorter than
    its declared length, [ParseNext] returns the error the reader ends
    with, [io.EOF] at the end of a stream, and has consumed all the bytes
    there were. *)
Theorem skipped_frame_cut_short {H} (p : frameParser H) (t l : Z) (s1 s2 : stream)
    (hs' : H) :
  quicvarint.Read (r p) = (Ok t, s1) ->
  skipped_type p t hs' ->
  quicvarint.Read s1 = (Ok l, s2) ->
  Z.of_nat (length (data s2)) < l ->
  ParseNext p
  = (Err (ErrIO (final s2)),
     {| r := mkstream [] (final s2); closeConn_calls := closeConn_calls p;
        unknownFrameHandler := unknownFrameHandler p; handler_state := hs' |}).
Proof.
  intros Et Hskip El Hshort.
  rewrite ParseNext_eq, (ParseNext_body_type _ _ _ Et).
  rewrite (after_type_skipped (set_r s1 p) t hs' Hskip).
  rewrite (read_length_and_skip_short (set_handler_state hs' (set_r s1 p)) l s2 El Hshort).
  reflexivity.
Qed.

Lemma skipped_frame_cut_short_witness :
  ParseNext {| r := mkstream [x21; x03; xaa; xbb] io.EOF; closeConn_calls := [];
               unknownFrameHandler := Some (recording_handler (false, None));
               handler_state := [] |}
  = (Err (ErrIO io.EOF),
     {| r := mkstream [] io.EOF; closeConn_calls := [];
        unknownFrameHandler := Some (recording_handler (false, None));
        handler_state := [(0x21, None)] |}).
Proof.
  apply (skipped_frame_cut_short
           {| r := mkstream [x21; x03; xaa; xbb] io.EOF; closeConn_calls := [];
              unknownFrameHandler := Some (recording_handler (false, None));
              handler_state := [] |}
           0x21 3 (mkstream [x03; xaa; xbb] io.EOF) (mkstream [xaa; xbb] io.EOF)
           [(0x21, None)]).
  - reflexivity.
  - right. split; [lia|reflexivity].
  - reflexivity.
  - simpl. lia.
Defined.

(** X17: when the type tag is one of the base types, up to 0xd, and the
    length that follows cannot be read, [ParseNext] returns the read error,
    which is the error the reader ends with.  This holds for the reserved
    types 0x2, 0x6, 0x8 and 0x9 as well: the length is read before the
    dispatch, so [closeConn] is not called and the reserved-type error is
    not returned; the callback is not consulted either. *)
Theorem length_read_failure {H} (p : frameParser H) (t : Z) (s1 s2 : stream)
    (e : error) :
  quicvarint.Read (r p) = (Ok t, s1) ->
  t <= 0xd ->
  quicvarint.Read s1 = (Err e, s2) ->
  ParseNext p = (Err e, set_r s2 p) /\ e = ErrIO (final (r p)) /\ data s2 = [].
Proof.
  intros Et Ht El. split; [|split].
  - rewrite ParseNext_eq, (ParseNext_body_type _ _ _ Et).
    rewrite (after_type_no_length (set_r s1 p) t e s2 Ht El). reflexivity.
  - apply Read_stream in Et as [<- _]. exact (Read_stream_Err _ _ _ El).
  - exact (Read_stream_Err_data _ _ _ El).
Qed.

Lemma length_read_failure_witness :
  let p := {| r := mkstream [x02; x40] io.EOF; closeConn_calls := [];
              unknownFrameHandler := Some (recording_handler (true, None));
              handler_state := [] |} in
  ParseNext p = (Err (ErrIO io.EOF), set_r (mkstream [] io.EOF) p) /\
  ErrIO io.EOF = ErrIO (final (r p)) /\ data (mkstream [] io.EOF) = [].
Proof.
  intros p.
  exact (length_read_failure p 0x2 (mkstream [x40] io.EOF) (mkstream [] io.EOF)
           (ErrIO io.EOF) eq_refl ltac:(lia) eq_refl).
Defined.

(** X18: when the callback takes over a frame of an extension type, by
    reporting hijacked or by returning an error, [ParseNext] has consumed
    the type tag and nothing more: the length and the body are still on the
    reader, for the callback's side to read.  [closeConn] is not called. *)
Theorem taken_over_after_type_tag {H} (p : frameParser H)
    (h : unknownFrameHandlerFunc H) (t : Z) (s1 : stream) (hij : bool)
    (oe : option error) (hs' : H) :
  unknownFrameHandler p = Some h ->
  quicvarint.Read (r p) = (Ok t, s1) ->
  t > 0xd ->
  h t None (handler_state p) = ((hij, oe), hs') ->
  hij = true \/ oe <> None ->
  ParseNext p
  = (Err (match oe with Some e' => e' | None => errHijacked end),
     {| r := s1; closeConn_calls := closeConn_calls p;
        unknownFrameHandler := Some h; handler_state := hs' |}).
Proof.
  intros Hh Et Ht Hcall Htaken.
  rewrite ParseNext_eq, (ParseNext_body_type _ _ _ Et).
  rewrite (after_type_extension (set_r s1 p) h t hij oe hs' Ht Hh Hcall).
  unfold set_handler_state, set_r. cbn. rewrite Hh.
  destruct oe as [e'|]; [reflexivity|].
  destruct Htaken as [->|Hoe]; [reflexivity|contradiction].
Qed.

Lemma taken_over_after_type_tag_witness :
  ParseNext {| r := mkstream [x21; x02; xaa; xbb] io.EOF; closeConn_calls := [];
               unknownFrameHandler := Some (recording_handler (true, None));
               handler_state := [] |}
  = (Err errHijacked,
     {| r := mkstream [x02; xaa; xbb] io.EOF; closeConn_calls := [];
        unknownFrameHandler := Some (recording_handler (true, None));
        handler_state := [(0x21, None)] |}).
Proof.
  apply (taken_over_after_type_tag
           {| r := mkstream [x21; x02; xaa; xbb] io.EOF; closeConn_calls := [];
              unknownFrameHandler := Some (recording_handler (true, None));
              handler_state := [] |}
           (recording_handler (true, None)) 0x21 (mkstream [x02; xaa; xbb] io.EOF)
           true None [(0x21, None)]).
  - reflexivity.
  - reflexivity.
  - lia.
  - reflexivity.
  - left. reflexivity.
Defined.

(** X19: without a callback, a type tag that cannot be read makes
    [ParseNext] return the error the reader ends with, [io.EOF] at the end
    of the stream, whether the stream ends at a frame boundary or inside
    the tag; whatever was left of the stream is consumed and nothing else
    changes. *)
Theorem type_tag_failure_without_callback {H} (p : frameParser H) (e : error)
    (s' : stream) :
  unknownFrameHandler p = None ->
  quicvarint.Read (r p) = (Err e, s') ->
  ParseNext p = (Err (ErrIO (final (r p))), set_r (mkstream [] (final (r p))) p).
Proof.
  intros Hh Er. rewrite ParseNext_eq, (ParseNext_body_no_type _ _ _ Er).
  unfold bind. rewrite (consult_None (set_r s' p) 0 (Some e) Hh). unfold fail.
  pose proof (Read_stream_Err _ _ _ Er) as ->.
  pose proof (Read_stream_Err_data _ _ _ Er) as Hd.
  apply Read_stream in Er as [Hf _].
  destruct s' as [d f]. cbn [data final] in *. subst d f. reflexivity.
Qed.

Lemma type_tag_failure_without_callback_witness :
  let p := {| r := mkstream [x80; x01] (io.ErrOther "reset"); closeConn_calls := [];
              unknownFrameHandler := None; handler_state := tt |} in
  ParseNext p
  = (Err (ErrIO (io.ErrOther "reset")), set_r (mkstream [] (io.ErrOther "reset")) p).
Proof.
  intros p.
  exact (type_tag_failure_without_callback p (ErrIO (io.ErrOther "reset"))
           (mkstream [] (io.ErrOther "reset")) eq_refl eq_refl).
Defined.

(** X20: [ParseNext] passes over any number of frames it skips: on a
    reader that holds such frames, all there, its result is the result on
    what follows them.  Frames of extension types are among them when no
    callback is registered. *)
Theorem skippable_frames_passed {H} (ext : bool) (p : frameParser H) (s' : stream) :
  (ext = true -> unknownFrameHandler p = None) ->
  skippable ext (r p) s' ->
  ParseNext p = ParseNext (set_r s' p).
Proof.
  intros Hext Hs. remember (r p) as s eqn:Hr. revert p Hext Hr.
  induction Hs as [s|s t s1 l s2 body rest s' Et Ht El Hdata Hlen _ IH];
    intros p Hext ->.
  - rewrite set_r_same. reflexivity.
  - assert (Hskip : skipped_type (set_r s1 p) t (handler_state p)).
    { destruct Ht as [Ht|[Ht He]]; [left; auto|right].
      split; [exact Ht|]. cbn [unknownFrameHandler set_r].
      rewrite (Hext He). reflexivity. }
    rewrite ParseNext_eq, (ParseNext_body_type _ _ _ Et).
    rewrite (after_type_skipped (set_r s1 p) t (handler_state p) Hskip).
    rewrite (read_length_and_skip (set_handler_state (handler_state p) (set_r s1 p))
               l s2 body rest El Hdata Hlen).
    rewrite (IH (set_r (mkstream rest (final s2))
                   (set_handler_state (handler_state p) (set_r s1 p))));
      [destruct p; reflexivity|exact Hext|reflexivity].
Qed.

Lemma skippable_frames_passed_witness :
  let p := {| r := mkstream [x03; x01; xaa; x21; x00; x0c; x02; xbb; xcc; x00; x05] io.EOF;
              closeConn_calls := []; unknownFrameHandler := None;
              handler_state := tt |} in
  ParseNext p = ParseNext (set_r (mkstream [x00; x05] io.EOF) p).
Proof.
  intros p.
  apply (skippable_frames_passed true p (mkstream [x00; x05] io.EOF)).
  - reflexivity.
  - eapply (skippable_cons true _ 0x3 _ 1 _ [xaa]);
      [reflexivity|left; auto|reflexivity|reflexivity|reflexivity|].
    eapply (skippable_cons true _ 0x21 _ 0 _ []);
      [reflexivity|right; split; [lia|reflexivity]|reflexivity|reflexivity|reflexivity|].
    eapply (skippable_cons true _ 0xc _ 2 _ [xbb; xcc]);
      [reflexivity|left; auto 10|reflexivity|reflexivity|reflexivity|].
    apply skippable_nil.
Defined.
